(** * create-hono-app: the OpenAPI normalizer, the tag partitioner,
      the template helpers and the command-line action

    A shallow embedding of
      - src/parsers/openapi.ts   (parseOpenAPISpec and its helpers,
                                  getEndpointsByTag),
      - src/generators/routes.ts, handlers.ts, schema.ts
                                 (the per-tag emitters and the Handlebars
                                  helpers they register),
      - bin/cli.ts               (the commander action and walk).

    Conventions.
      - A JavaScript string whose code units are all below 256 is a Rocq
        [string], one character per code unit; strings with higher code
        units are not represented.  The regular-expression classes are
        the ASCII ones the source writes ([A-Z], [a-zA-Z0-9]); case
        mapping and white space are those of the language on these code
        units.
      - A decoded JSON/YAML object is the list of its entries in the order
        Object.entries enumerates them.  An object the program builds
        itself is kept as its own entries in the order they were
        assigned; reading a key also finds what every object inherits
        from Object.prototype, and enumerating it follows Object.entries
        (array indices first, in numeric order).
      - A function that may throw returns a [result]; a function with
        file-system effects runs in the state-and-exception monad [M] over
        a [World], and a throw keeps the world reached so far (nothing is
        rolled back).
      - The template engine, the JSON/YAML decoders and the scaffold
        directory are capabilities of the [Host]. *)

From Stdlib Require Import String Ascii List Bool Arith NArith Lia Sorted.
Import ListNotations.
Local Open Scope string_scope.
Local Open Scope list_scope.

(* ================================================================== *)
(** * JavaScript string primitives *)
(* ================================================================== *)

Module JsString.

Definition code (c : ascii) : nat := nat_of_ascii c.

Definition in_range (lo hi : nat) (c : ascii) : bool :=
  (lo <=? code c)%nat && (code c <=? hi)%nat.

(** The class [A-Z]. *)
Definition isUpper (c : ascii) : bool := in_range 65 90 c.
(** The class [a-z]. *)
Definition isLower (c : ascii) : bool := in_range 97 122 c.
(** The class [0-9]. *)
Definition isDigit (c : ascii) : bool := in_range 48 57 c.
(** The class [a-zA-Z0-9]. *)
Definition isAlnum (c : ascii) : bool := isLower c || isUpper c || isDigit c.

(** The capital letters above 127 that have a small form below 256:
    U+00C0 to U+00DE but the multiplication sign U+00D7. *)
Definition isLatinUpper (c : ascii) : bool :=
  in_range 192 222 c && negb (code c =? 215)%nat.

(** Their small forms: U+00E0 to U+00FE but the division sign U+00F7. *)
Definition isLatinLower (c : ascii) : bool :=
  in_range 224 254 c && negb (code c =? 247)%nat.

(** The lower-case mapping of one code unit. *)
Definition lowerChar (c : ascii) : ascii :=
  if isUpper c || isLatinUpper c then ascii_of_nat (code c + 32) else c.

(** The upper-case mapping of a code unit that maps to one code unit
    below 256. *)
Definition upperChar (c : ascii) : ascii :=
  if isLower c || isLatinLower c then ascii_of_nat (code c - 32) else c.

(** The upper-case mapping of one code unit: the sharp s U+00DF becomes
    two letters.  The capitals of the micro sign U+00B5 and of U+00FF
    lie above 255 and cannot be written here: these two are left as
    they are, and statements that depend on their capitals exclude
    them. *)
Definition upperOf (c : ascii) : string :=
  if (code c =? 223)%nat then "SS" else String (upperChar c) EmptyString.

(** The code units whose capital is representable. *)
Definition capital_below_256 (c : ascii) : bool :=
  negb (code c =? 181)%nat && negb (code c =? 255)%nat.

Fixpoint map_chars (f : ascii -> ascii) (s : string) : string :=
  match s with
  | EmptyString => EmptyString
  | String c r => String (f c) (map_chars f r)
  end.

(** String.prototype.toLowerCase / toUpperCase. *)
Definition toLowerCase (s : string) : string := map_chars lowerChar s.
Fixpoint toUpperCase (s : string) : string :=
  match s with
  | EmptyString => EmptyString
  | String c r => (upperOf c ++ toUpperCase r)%string
  end.

(** String.prototype.charAt: the one-character string at index [i], or
    the empty string when [i] is out of range. *)
Definition charAt (i : nat) (s : string) : string := substring i 1 s.

(** String.prototype.slice with one (non-negative) argument. *)
Definition slice (start : nat) (s : string) : string :=
  substring start (String.length s - start) s.

(** [s.replace(/[cls]/g, f)]: every character of the class is replaced,
    left to right, by what the replacer returns for the matched
    one-character string. *)
Fixpoint replace_class (cls : ascii -> bool) (f : string -> string)
         (s : string) : string :=
  match s with
  | EmptyString => EmptyString
  | String c r =>
      if cls c
      then f (String c EmptyString) ++ replace_class cls f r
      else String c (replace_class cls f r)
  end.

Fixpoint forall_chars (p : ascii -> bool) (s : string) : bool :=
  match s with
  | EmptyString => true
  | String c r => p c && forall_chars p r
  end.

Fixpoint count_chars (p : ascii -> bool) (s : string) : nat :=
  match s with
  | EmptyString => 0
  | String c r => (if p c then 1 else 0) + count_chars p r
  end.

(** String.prototype.endsWith. *)
Definition endsWith (suffix s : string) : bool :=
  let n := String.length s in
  let k := String.length suffix in
  (k <=? n)%nat && String.eqb (substring (n - k) k s) suffix.

(** [s] between double quotes. *)
Definition quoted (s : string) : string :=
  let q := String (ascii_of_nat 34) EmptyString in (q ++ s ++ q)%string.

(** A value used as a condition: the empty string is falsy. *)
Definition truthy (s : string) : bool := negb (String.eqb s "").

(** [a || b] on optional strings: [undefined] and [""] fall through. *)
Definition or_else (a : option string) (b : string) : string :=
  match a with
  | Some s => if truthy s then s else b
  | None => b
  end.

End JsString.
Import JsString.

(* ================================================================== *)
(** * Results of functions that may throw *)
(* ================================================================== *)

Inductive error : Type :=
| Error (message : string)            (* throw new Error(message) *)
| ReferenceError (message : string)
| TypeError (message : string).

Inductive result (A : Type) : Type :=
| Ok (a : A)
| Throw (e : error).
Arguments Ok {A} a.
Arguments Throw {A} e.

Definition rbind {A B} (r : result A) (k : A -> result B) : result B :=
  match r with
  | Ok a => k a
  | Throw e => Throw e
  end.

Declare Scope result_scope.
Delimit Scope result_scope with res.
Notation "x <- r ;; k" := (rbind r (fun x => k))
  (at level 61, r at next level, right associativity) : result_scope.

Definition is_ok {A} (r : result A) : bool :=
  match r with Ok _ => true | Throw _ => false end.

(** Array.prototype.map with a callback that may throw: the elements are
    visited in order and the first throw abandons the rest. *)
Fixpoint mapM {A B} (f : A -> result B) (l : list A) : result (list B) :=
  match l with
  | [] => Ok []
  | x :: r =>
      (y <- f x ;;
       ys <- mapM f r ;;
       Ok (y :: ys))%res
  end.

(** Array.prototype.forEach with a callback that updates an accumulator
    captured by the closure and may throw. *)
Fixpoint forEach {A S} (f : S -> A -> result S) (l : list A) (acc : S)
  : result S :=
  match l with
  | [] => Ok acc
  | x :: r => (acc' <- f acc x ;; forEach f r acc')%res
  end.

(* ================================================================== *)
(** * The decoded OpenAPI document (openapi-types, as far as it is read) *)
(* ================================================================== *)

(** A schema object or a reference object, with the members the
    generators read.  [schema_ref] is the [$ref] member. *)
#[local] Unset Elimination Schemes.
Inductive SchemaObject : Type :=
| Schema (schema_ref : option string)
         (type : option string)
         (items : option SchemaObject)
         (properties : option (list (string * SchemaObject)))
         (required : option (list string)).
#[local] Set Elimination Schemes.

Definition schema_type (s : SchemaObject) : option string :=
  match s with Schema _ t _ _ _ => t end.
Definition schema_items (s : SchemaObject) : option SchemaObject :=
  match s with Schema _ _ i _ _ => i end.
Definition schema_properties (s : SchemaObject)
  : option (list (string * SchemaObject)) :=
  match s with Schema _ _ _ p _ => p end.
Definition schema_required (s : SchemaObject) : option (list string) :=
  match s with Schema _ _ _ _ r => r end.

(** Schemas by media type. *)
Definition Content : Type := list (string * option SchemaObject).

(** A member that is either an inline object or a reference object
    ([{"$ref": target}]). *)
Inductive or_ref (A : Type) : Type :=
| Ref (target : string)
| Inline (a : A).
Arguments Ref {A} target.
Arguments Inline {A} a.

(** ["$ref" in x] *)
Definition has_ref {A} (x : or_ref A) : bool :=
  match x with Ref _ => true | Inline _ => false end.

Record ParameterObject : Type := {
  po_name : string;
  po_in : string;
  po_required : option bool;
  po_schema : option SchemaObject }.

Record RequestBodyObject : Type := {
  rb_required : option bool;
  rb_content : option Content }.

Record ResponseObject : Type := {
  ro_description : string;
  ro_content : option Content }.

Record OperationObject : Type := {
  op_operationId : option string;
  op_summary : option string;
  op_description : option string;
  op_tags : option (list string);
  op_parameters : option (list (or_ref ParameterObject));
  op_requestBody : option (or_ref RequestBodyObject);
  op_responses : option (list (string * or_ref ResponseObject)) }.

(** What a member of a path item can hold. *)
Inductive PathItemValue : Type :=
| VOperation (op : OperationObject)                  (* get, post, ... *)
| VParameters (ps : list (or_ref ParameterObject))   (* parameters *)
| VText (s : string)                                 (* summary, description *)
| VNull.

Definition PathItemObject : Type := list (string * PathItemValue).

Record InfoObject : Type := {
  info_title : string;
  info_version : string;
  info_description : option string }.

Record Document : Type := {
  doc_info : InfoObject;
  doc_paths : option (list (string * option PathItemObject));
  doc_component_schemas : option (list (string * option SchemaObject)) }.

(** An object none of whose members is set: what reading
    [operationId], [tags], ... yields on a value that is not an
    operation object. *)
Definition no_members : OperationObject :=
  {| op_operationId := None; op_summary := None; op_description := None;
     op_tags := None; op_parameters := None; op_requestBody := None;
     op_responses := None |}.

(** [!operation] is false. *)
Definition value_truthy (v : PathItemValue) : bool :=
  match v with
  | VOperation _ => true
  | VParameters _ => true
  | VText s => truthy s
  | VNull => false
  end.

(** [operation as OpenAPIV3.OperationObject]: a cast, no check. *)
Definition as_operation (v : PathItemValue) : OperationObject :=
  match v with
  | VOperation op => op
  | _ => no_members
  end.

(* ================================================================== *)
(** * The intermediate representation (src/parsers/openapi.ts) *)
(* ================================================================== *)

Record ParsedParameter : Type := {
  pp_name : string;
  pp_in : string;
  pp_required : bool;
  pp_schema : option SchemaObject }.

Record ParsedRequestBody : Type := {
  prb_required : bool;
  prb_content : Content }.

Record ParsedResponse : Type := {
  pr_statusCode : string;
  pr_description : string;
  pr_content : option Content }.

Record ParsedEndpoint : Type := {
  path : string;
  method : string;
  operationId : string;
  summary : option string;
  description : option string;
  tags : list string;
  parameters : list ParsedParameter;
  requestBody : option ParsedRequestBody;
  responses : list ParsedResponse }.

Record ParsedSchema : Type := {
  ps_name : string;
  ps_properties : list (string * SchemaObject);
  ps_required : list string }.

Record ParsedOpenAPI : Type := {
  endpoints : list ParsedEndpoint;
  schemas : list ParsedSchema;
  info : InfoObject }.

Definition default {A} (o : option A) (d : A) : A :=
  match o with Some a => a | None => d end.

(* ------------------------------------------------------------------ *)
(** ** Normalizer *)

Definition parseParameters (parameters : list (or_ref ParameterObject))
  : result (list ParsedParameter) :=
  mapM (fun param =>
          match param with
          | Ref _ => Throw (Error "Parameter references not yet supported")
          | Inline p =>
              Ok {| pp_name := po_name p;
                    pp_in := po_in p;
                    pp_required := default (po_required p) false;
                    pp_schema := po_schema p |}
          end) parameters.

Definition parseRequestBody (requestBody : option (or_ref RequestBodyObject))
  : option ParsedRequestBody :=
  match requestBody with
  | None => None
  | Some (Ref _) => None
  | Some (Inline b) =>
      Some {| prb_required := default (rb_required b) false;
              prb_content := default (rb_content b) [] |}
  end.

Definition parseResponses (responses : list (string * or_ref ResponseObject))
  : result (list ParsedResponse) :=
  mapM (fun '(statusCode, response) =>
          match response with
          | Ref _ => Throw (Error "Response references not yet supported")
          | Inline r =>
              Ok {| pr_statusCode := statusCode;
                    pr_description := ro_description r;
                    pr_content := ro_content r |}
          end) responses.

Definition generateOperationId (method path : string) : string :=
  method ++ replace_class (fun c => negb (isAlnum c)) (fun _ => "") path.

(** The object literal pushed for one member of a path item (the body of
    the inner forEach callback, past its guard); the members are
    evaluated in the order they are written. *)
Definition endpoint_literal (path method : string) (op : OperationObject)
  : result ParsedEndpoint :=
  (let method' := toUpperCase method in
   let operationId' :=
     or_else (op_operationId op) (generateOperationId method path) in
   let tags' := default (op_tags op) ["default"] in
   parameters' <- parseParameters (default (op_parameters op) []) ;;
   let requestBody' := parseRequestBody (op_requestBody op) in
   responses' <- parseResponses (default (op_responses op) []) ;;
   Ok {| path := path;
         method := method';
         operationId := operationId';
         summary := op_summary op;
         description := op_description op;
         tags := tags';
         parameters := parameters';
         requestBody := requestBody';
         responses := responses' |})%res.

Definition parseEndpoints (spec : Document) : result (list ParsedEndpoint) :=
  forEach
    (fun endpoints '(path, pathItem) =>
       match pathItem with
       | None => Ok endpoints
       | Some item =>
           forEach
             (fun endpoints '(method, operation) =>
                if String.eqb method "parameters"
                   || negb (value_truthy operation)
                then Ok endpoints
                else
                  (e <- endpoint_literal path method
                                         (as_operation operation) ;;
                   Ok (endpoints ++ [e]))%res)
             item endpoints
       end)
    (default (doc_paths spec) []) [].

Definition parseSchemas (spec : Document) : list ParsedSchema :=
  fold_left
    (fun schemas '(name, schema) =>
       match schema with
       | Some s =>
           match schema_properties s with
           | Some props =>
               schemas ++ [ {| ps_name := name;
                               ps_properties := props;
                               ps_required := default (schema_required s) []
                            |} ]
           | None => schemas
           end
       | None => schemas
       end)
    (default (doc_component_schemas spec) []) [].

(** The part of parseOpenAPISpec that follows the load. *)
Definition parse_document (spec : Document) : result ParsedOpenAPI :=
  (endpoints' <- parseEndpoints spec ;;
   Ok {| endpoints := endpoints';
         schemas := parseSchemas spec;
         info := doc_info spec |})%res.

(* ------------------------------------------------------------------ *)
(** ** Objects used as dictionaries *)

(** The members every object literal inherits from Object.prototype.
    Read through a key, each is truthy, and none is an array or a
    string. *)
Definition object_prototype_members : list string :=
  [ "constructor"; "__defineGetter__"; "__defineSetter__";
    "hasOwnProperty"; "__lookupGetter__"; "__lookupSetter__";
    "isPrototypeOf"; "propertyIsEnumerable"; "toString"; "valueOf";
    "__proto__"; "toLocaleString" ].

Definition inherited (key : string) : bool :=
  existsb (String.eqb key) object_prototype_members.

Fixpoint number_of (s : string) (acc : N) : option N :=
  match s with
  | EmptyString => Some acc
  | String c r =>
      if isDigit c
      then number_of r (10 * acc + N.of_nat (code c - 48))%N
      else None
  end.

(** The array index a key stands for, if any: the decimal numeral,
    without leading zero, of an integer below 2^32 - 1.  Object.entries
    enumerates such keys first, in ascending order, then the other keys
    in the order they were created. *)
Definition array_index (key : string) : option N :=
  match key with
  | EmptyString => None
  | String c r =>
      if (code c =? 48)%nat && negb (String.eqb r "")
      then None
      else match number_of key 0 with
           | Some n => if (n <? 4294967295)%N then Some n else None
           | None => None
           end
  end.

Fixpoint insert_index {V} (n : N) (kv : string * V)
         (sorted : list (N * (string * V))) : list (N * (string * V)) :=
  match sorted with
  | [] => [(n, kv)]
  | (m, kv') :: r =>
      if (n <? m)%N then (n, kv) :: sorted
      else (m, kv') :: insert_index n kv r
  end.

(** The entries whose key is an array index, in ascending order. *)
Definition index_entries {V} (own : list (string * V))
  : list (N * (string * V)) :=
  fold_right
    (fun kv sorted =>
       match array_index (fst kv) with
       | Some n => insert_index n kv sorted
       | None => sorted
       end)
    [] own.

(** Object.entries of an object whose own entries, in creation order,
    are [own]. *)
Definition entries {V} (own : list (string * V)) : list (string * V) :=
  map snd (index_entries own)
  ++ filter (fun kv => match array_index (fst kv) with
                       | Some _ => false
                       | None => true
                       end) own.

(* ------------------------------------------------------------------ *)
(** ** Tag partitioner *)

(** The accumulator of the reduce: an object literal used as a
    dictionary from tag to array, kept as its own entries in the order
    they were assigned. *)
Definition Groups : Type := list (string * list ParsedEndpoint).

Fixpoint get (acc : Groups) (tag : string) : option (list ParsedEndpoint) :=
  match acc with
  | [] => None
  | (k, v) :: r => if String.eqb k tag then Some v else get r tag
  end.

(** [acc[tag] = v] *)
Fixpoint set (acc : Groups) (tag : string) (v : list ParsedEndpoint)
  : Groups :=
  match acc with
  | [] => [(tag, v)]
  | (k, v') :: r =>
      if String.eqb k tag then (k, v) :: r else (k, v') :: set r tag v
  end.

(** [tags[0] || "default"] *)
Definition first_tag (endpoint : ParsedEndpoint) : string :=
  or_else (nth_error (tags endpoint) 0) "default".

(** What [acc[tag]] evaluates to. *)
Inductive member : Type :=
| Own (es : list ParsedEndpoint)    (* an array the reduce has stored *)
| Inherited                         (* a member of Object.prototype *)
| Undefined.

Definition lookup (acc : Groups) (tag : string) : member :=
  match get acc tag with
  | Some es => Own es
  | None => if inherited tag then Inherited else Undefined
  end.

(** One step of the reduce callback.  An inherited member is truthy,
    so the guard does not replace it, and it has no push. *)
Definition group_step (acc : Groups) (endpoint : ParsedEndpoint)
  : result Groups :=
  let tag := first_tag endpoint in
  (* if (!acc[tag]) acc[tag] = [] *)
  let acc := match lookup acc tag with
             | Undefined => set acc tag []
             | _ => acc
             end in
  (* acc[tag].push(endpoint) *)
  match lookup acc tag with
  | Own es => Ok (set acc tag (es ++ [endpoint]))
  | Inherited => Throw (TypeError "acc[tag].push is not a function")
  | Undefined =>
      Throw (TypeError "Cannot read properties of undefined (reading 'push')")
  end.

Definition getEndpointsByTag (endpoints : list ParsedEndpoint)
  : result Groups :=
  forEach group_step endpoints [].

Definition getSchemaByName (schemas : list ParsedSchema) (name : string)
  : option ParsedSchema :=
  find (fun schema => String.eqb (ps_name schema) name) schemas.

(* ================================================================== *)
(** * Handlebars helpers (generators/routes.ts, generators/schema.ts) *)
(* ================================================================== *)

Module Helpers.

Definition camelCase (str : string) : string :=
  toLowerCase (charAt 0 str) ++ slice 1 str.

Definition pascalCase (str : string) : string :=
  toUpperCase (charAt 0 str) ++ slice 1 str.

Definition capitalize (str : string) : string :=
  toUpperCase (charAt 0 str) ++ slice 1 str.

Definition lowercase (str : string) : string := toLowerCase str.

Definition snakeCase (str : string) : string :=
  replace_class isUpper (fun letter => ("_" ++ toLowerCase letter)%string) str.

(** [switch (x.type) { case "k": ... default: ... }] with string cases. *)
Fixpoint switch {A} (scrutinee : option string)
         (cases : list (string * A)) (dflt : A) : A :=
  match cases with
  | [] => dflt
  | (k, v) :: r =>
      match scrutinee with
      | Some t => if String.eqb t k then v else switch scrutinee r dflt
      | None => dflt
      end
  end.

Definition drizzleType (property : SchemaObject) : string :=
  switch (schema_type property)
         [ ("string", "text()");
           ("integer", "integer()");
           ("number", "real()");
           ("boolean", ("integer({ mode: " ++ quoted "boolean" ++ " })")%string) ]
         "text()".

(** What an identifier can denote where the body of the zodType helper
    is evaluated. *)
Inductive binding : Type :=
| SchemaFunction (f : option SchemaObject -> result string)
| OtherBinding.

Definition Scope : Type := list (string * binding).

Fixpoint resolve (sc : Scope) (name : string) : option binding :=
  match sc with
  | [] => None
  | (k, b) :: r => if String.eqb k name then Some b else resolve r name
  end.

(** Every identifier in scope inside the arrow function registered as
    "zodType": its parameter, then the imports and the declarations of
    routes.ts.  The helper is registered under a name in the Handlebars
    registry; that does not bind an identifier. *)
Definition routes_ts_scope : Scope :=
  [ ("schema", OtherBinding);
    ("writeFileSync", OtherBinding);
    ("ensureDirSync", OtherBinding);
    ("path", OtherBinding);
    ("Handlebars", OtherBinding);
    ("routeTemplate", OtherBinding);
    ("generateRoutes", OtherBinding);
    ("registerHandlebarsHelpers", OtherBinding) ].

(** The call expression [name(arg)]. *)
Definition call (sc : Scope) (name : string) (arg : option SchemaObject)
  : result string :=
  match resolve sc name with
  | None => Throw (ReferenceError (name ++ " is not defined"))
  | Some (SchemaFunction f) => f arg
  | Some OtherBinding => Throw (TypeError (name ++ " is not a function"))
  end.

(** The body of the arrow function registered as "zodType", evaluated
    in scope [sc]. *)
Definition zodType_body (sc : Scope) (schema : option SchemaObject)
  : result string :=
  match schema with
  | None => Ok "z.unknown()"
  | Some s =>
      switch (schema_type s)
             [ ("string", Ok "z.string()");
               ("number", Ok "z.number()");
               ("integer", Ok "z.number().int()");
               ("boolean", Ok "z.boolean()");
               ("array",
                (inner <- call sc "zodType" (schema_items s) ;;
                 Ok ("z.array(" ++ inner ++ ")")%string)%res) ]
             (Ok "z.unknown()")
  end.

(** The helper as registered by registerHandlebarsHelpers. *)
Definition zodType (schema : option SchemaObject) : result string :=
  zodType_body routes_ts_scope schema.

(** The validation table as the specification words it: an array maps
    to array-of the validator of its items, by the same table. *)
Fixpoint validation_table (s : SchemaObject) : string :=
  match s with
  | Schema _ t i _ _ =>
      switch t
             [ ("string", "z.string()");
               ("number", "z.number()");
               ("integer", "z.number().int()");
               ("boolean", "z.boolean()");
               ("array",
                ("z.array(" ++
                   match i with
                   | Some s' => validation_table s'
                   | None => "z.unknown()"
                   end ++ ")")%string) ]
             "z.unknown()"
  end.

(** What the statusCodeConstant helper returns: a string, or the
    member of Object.prototype the code names. *)
Inductive helper_value : Type :=
| Text (s : string)
| InheritedMember (name : string).

(** [codeMap[code] || code]: the names of the table are not empty, and
    a member inherited by the table is truthy. *)
Definition statusCodeConstant (code : string) : helper_value :=
  match switch (Some code)
               [ ("200", Some "OK");
                 ("201", Some "CREATED");
                 ("204", Some "NO_CONTENT");
                 ("400", Some "BAD_REQUEST");
                 ("401", Some "UNAUTHORIZED");
                 ("404", Some "NOT_FOUND");
                 ("422", Some "UNPROCESSABLE_ENTITY");
                 ("500", Some "INTERNAL_SERVER_ERROR") ]
               None with
  | Some name => Text (or_else (Some name) code)
  | None => if inherited code then InheritedMember code else Text code
  end.

End Helpers.
Import Helpers.

(* ================================================================== *)
(** * File-system effects *)
(* ================================================================== *)

Inductive node : Type :=
| FileNode (content : string)
| DirNode.

(** The effects a run performs, in the order it performs them. *)
Inductive event : Type :=
| ReadFile (p : string)
| EnsureDir (p : string)
| WriteFile (p content : string)
| CopyFile (src dest : string).

(** An event that creates or changes something under the target. *)
Definition is_output (e : event) : bool :=
  match e with
  | ReadFile _ => false
  | _ => true
  end.

Record World : Type := {
  fs : list (string * node);
  trace : list event }.

(** A fresh process over the files [files]. *)
Definition boot (files : list (string * node)) : World :=
  {| fs := files; trace := [] |}.

Definition M (A : Type) : Type := World -> result A * World.

Definition mret {A} (a : A) : M A := fun w => (Ok a, w).

Definition mbind {A B} (m : M A) (k : A -> M B) : M B :=
  fun w =>
    match m w with
    | (Ok a, w') => k a w'
    | (Throw e, w') => (Throw e, w')
    end.

Definition throw {A} (e : error) : M A := fun w => (Throw e, w).

Definition lift {A} (r : result A) : M A := fun w => (r, w).

Declare Scope io_scope.
Delimit Scope io_scope with io.
Notation "x <- m ;; k" := (mbind m (fun x => k))
  (at level 61, m at next level, right associativity) : io_scope.
Notation "m ;;; k" := (mbind m (fun _ => k))
  (at level 61, right associativity) : io_scope.

(** [for (const x of l) { await f(x) }] *)
Definition forM_ {A} (f : A -> M unit) : list A -> M unit :=
  fix each (l : list A) : M unit :=
    match l with
    | [] => mret tt
    | x :: r => (f x ;;; each r)%io
    end.

Fixpoint find_node (files : list (string * node)) (p : string)
  : option node :=
  match files with
  | [] => None
  | (k, n) :: r => if String.eqb k p then Some n else find_node r p
  end.

Fixpoint put_node (files : list (string * node)) (p : string) (n : node)
  : list (string * node) :=
  match files with
  | [] => [(p, n)]
  | (k, n') :: r =>
      if String.eqb k p then (k, n) :: r else (k, n') :: put_node r p n
  end.

Definition log (e : event) (w : World) : World :=
  {| fs := fs w; trace := trace w ++ [e] |}.

Definition existsSync (p : string) : M bool :=
  fun w => (Ok (match find_node (fs w) p with
                | Some _ => true
                | None => false
                end), w).

Definition readFileSync (p : string) : M string :=
  fun w =>
    match find_node (fs w) p with
    | Some (FileNode content) => (Ok content, log (ReadFile p) w)
    | Some DirNode =>
        (Throw (Error "EISDIR: illegal operation on a directory, read"),
         log (ReadFile p) w)
    | None =>
        (Throw (Error "ENOENT: no such file or directory"),
         log (ReadFile p) w)
    end.

(** The three writers below always succeed: the file-persistence
    capability is taken as given. *)
Definition ensureDirSync (p : string) : M unit :=
  fun w =>
    (Ok tt,
     {| fs := match find_node (fs w) p with
              | Some _ => fs w
              | None => put_node (fs w) p DirNode
              end;
        trace := trace w ++ [EnsureDir p] |}).

Definition writeFileSync (p content : string) : M unit :=
  fun w =>
    (Ok tt,
     {| fs := put_node (fs w) p (FileNode content);
        trace := trace w ++ [WriteFile p content] |}).

(** [copySync(src, dest)]; [content] is what the source file holds. *)
Definition copySync (src dest content : string) : M unit :=
  fun w =>
    (Ok tt,
     {| fs := put_node (fs w) dest (FileNode content);
        trace := trace w ++ [CopyFile src dest] |}).

(** path.join on two segments (no normalisation of dots or of doubled
    separators is modelled). *)
Definition join (a b : string) : string := (a ++ "/" ++ b)%string.

(* ================================================================== *)
(** * Host capabilities *)
(* ================================================================== *)

(** An entry of the scaffold directory, as readdirSync and lstatSync
    present it. *)
#[local] Unset Elimination Schemes.
Inductive entry : Type :=
| File (name content : string)
| Directory (name : string) (children : list entry).
#[local] Set Elimination Schemes.

Record Options : Type := {
  cors : bool;
  auth : bool;
  spec : option string;
  database : option string }.

Record TemplateData : Type := {
  td_name : string;
  td_cors : bool;
  td_auth : bool;
  td_database : option string;
  (* spread of the parsed spec; a member read may yield undefined *)
  td_endpoints : option (list ParsedEndpoint);
  td_schemas : option (list ParsedSchema);
  td_info : option InfoObject }.

(** An endpoint with the two filtered parameter lists the generators
    add. *)
Record EndpointView : Type := {
  ev_endpoint : ParsedEndpoint;
  pathParams : list ParsedParameter;
  queryParams : list ParsedParameter }.

Inductive template : Type :=
| FileTemplate (source : string)     (* a *.hbs file of the scaffold *)
| RouteTemplate
| HandlerTemplate
| SchemaTemplate.

Inductive context : Type :=
| AppContext (data : TemplateData)
| RoutesContext (tag : string) (endpoints : list EndpointView)
| HandlersContext (tag tableName : string) (hasDatabase : bool)
                  (endpoints : list EndpointView)
| SchemaContext (schemas : list ParsedSchema).

Record Host : Type := {
  cwd : string;                                  (* process.cwd() *)
  tplRoot : string;                 (* __dirname/../templates/app *)
  scaffold : list entry;            (* the directory at [tplRoot] *)
  yaml_load : string -> result Document;
  JSON_parse : string -> result Document;
  (* Handlebars.compile(template)(context): the text the engine
     produces once the helper calls of the template have returned *)
  render : template -> context -> result string }.

(* ================================================================== *)
(** * Generators *)
(* ================================================================== *)

Definition view (endpoint : ParsedEndpoint) : EndpointView :=
  {| ev_endpoint := endpoint;
     pathParams :=
       filter (fun p => String.eqb (pp_in p) "path") (parameters endpoint);
     queryParams :=
       filter (fun p => String.eqb (pp_in p) "query") (parameters endpoint) |}.

Definition routesDir (targetDir : string) : string :=
  join (join targetDir "src") "routes".

Definition routesFile (targetDir tag : string) : string :=
  join (routesDir targetDir) (toLowerCase tag ++ ".routes.ts").

Definition handlersFile (targetDir tag : string) : string :=
  join (routesDir targetDir) (toLowerCase tag ++ ".handlers.ts").

Definition schemaPath (targetDir : string) : string :=
  join (join (join targetDir "src") "db") "schema.ts".

(** The engine's complaint about a helper that nobody registered and
    that is called with an argument. *)
Definition missing_helper (name : string) : error :=
  Error ("Missing helper: " ++ quoted name).

(** The helper calls routeTemplate makes for one endpoint, in the order
    of the template; the first that throws ends the render.  Inside
    [#if parameters]: zodType on the schema of each path parameter,
    then of each query parameter, then getSchemaName when there is a
    request body.  Then, per response, statusCodeConstant, and
    getResponseSchema when the response has a content member (an object
    is truthy for [#if], even an empty one).  getSchemaName and
    getResponseSchema are registered nowhere. *)
Definition route_helper_calls (v : EndpointView) : result unit :=
  (_ <- match parameters (ev_endpoint v) with
        | [] => Ok tt
        | _ :: _ =>
            (_ <- mapM (fun p => zodType (pp_schema p)) (pathParams v) ;;
             _ <- mapM (fun p => zodType (pp_schema p)) (queryParams v) ;;
             match requestBody (ev_endpoint v) with
             | Some _ => Throw (missing_helper "getSchemaName")
             | None => Ok tt
             end)
        end ;;
   _ <- mapM (fun r =>
                let constant := statusCodeConstant (pr_statusCode r) in
                match pr_content r with
                | Some _ => Throw (missing_helper "getResponseSchema")
                | None => Ok constant
                end)
             (responses (ev_endpoint v)) ;;
   Ok tt)%res.

(** [template({ tag, endpoints })] for routeTemplate. *)
Definition render_routes (h : Host) (tag : string)
           (views : list EndpointView) : result string :=
  (_ <- mapM route_helper_calls views ;;
   render h RouteTemplate (RoutesContext tag views))%res.

(** The reduce is the one of getEndpointsByTag, written out again in
    the generator; a throw of its callback leaves the generator before
    any file is touched. *)
Definition generateRoutes (h : Host) (targetDir : string)
           (endpoints : list ParsedEndpoint) : M unit :=
  (endpointsByTag <- lift (forEach group_step endpoints []) ;;
   forM_
     (fun '(tag, tagEndpoints) =>
        (ensureDirSync (routesDir targetDir) ;;;
         content <- lift (render_routes h tag (map view tagEndpoints)) ;;
         writeFileSync (routesFile targetDir tag) content))
     (entries endpointsByTag))%io.

(** handlerTemplate calls camelCase, pascalCase and eq.  The first two
    are those generateRoutes has registered (the registry is
    process-wide, and the action runs generateRoutes first); eq is
    registered here. *)
Definition generateHandlers (h : Host) (targetDir : string)
           (endpoints : list ParsedEndpoint) : M unit :=
  (endpointsByTag <- lift (forEach group_step endpoints []) ;;
   forM_
     (fun '(tag, tagEndpoints) =>
        (ensureDirSync (routesDir targetDir) ;;;
         content <- lift (render h HandlerTemplate
                            (HandlersContext tag (toLowerCase tag) true
                                             (map view tagEndpoints))) ;;
         writeFileSync (handlersFile targetDir tag) content))
     (entries endpointsByTag))%io.

Definition generateSchema (h : Host) (targetDir : string)
           (schemas : list ParsedSchema) (dbTyp : option string) : M unit :=
  match schemas with
  | [] => mret tt
  | _ :: _ =>
      (content <- lift (render h SchemaTemplate (SchemaContext schemas)) ;;
       writeFileSync (schemaPath targetDir) content)%io
  end.

(* ================================================================== *)
(** * The command-line action (bin/cli.ts) *)
(* ================================================================== *)

(** The white space and line terminators below 256: U+0009 to U+000D,
    the space and the no-break space U+00A0. *)
Definition isSpace (c : ascii) : bool :=
  in_range 9 13 c || (code c =? 32)%nat || (code c =? 160)%nat.

Fixpoint trimStart (s : string) : string :=
  match s with
  | EmptyString => EmptyString
  | String c r => if isSpace c then trimStart r else s
  end.

Fixpoint trimEnd (s : string) : string :=
  match s with
  | EmptyString => EmptyString
  | String c r =>
      match trimEnd r with
      | EmptyString => if isSpace c then EmptyString else String c EmptyString
      | r' => String c r'
      end
  end.

Definition trim (s : string) : string := trimEnd (trimStart s).

(** The class [a-zA-Z0-9-_]. *)
Definition isNameChar (c : ascii) : bool :=
  isAlnum c || (code c =? 45)%nat || (code c =? 95)%nat.

Definition validateAppName (appName : string) : result unit :=
  if negb (truthy appName) || (String.length (trim appName) =? 0)%nat
  then Throw (Error "App name cannot be empty")
  else if negb (truthy appName && forall_chars isNameChar appName)
  then Throw (Error
    "App name can only contain letters, numbers, hyphens, and underscores")
  else Ok tt.

(** [name.replace(/\.hbs$/, "")] *)
Definition strip_hbs (name : string) : string :=
  if endsWith ".hbs" name
  then substring 0 (String.length name - 4) name
  else name.

Fixpoint walk_entry (h : Host) (src dest : string)
         (templateData : TemplateData) (e : entry) {struct e} : M unit :=
  match e with
  | Directory name children =>
      let srcPath := join src name in
      let destPath := join dest (strip_hbs name) in
      (ensureDirSync destPath ;;;
       forM_ (walk_entry h srcPath destPath templateData) children)%io
  | File name tpl =>
      let srcPath := join src name in
      let destPath := join dest (strip_hbs name) in
      if endsWith ".hbs" name
      then
        (rendered <- lift (render h (FileTemplate tpl)
                                  (AppContext templateData)) ;;
         writeFileSync destPath rendered)%io
      else copySync srcPath destPath tpl
  end.

(** [walk(src, dest, templateData)], [listing] being what readdirSync
    returns for [src]. *)
Definition walk (h : Host) (src dest : string)
           (templateData : TemplateData) (listing : list entry) : M unit :=
  forM_ (walk_entry h src dest templateData) listing.

Definition loadOpenAPISpec (h : Host) (specPath : string) : M Document :=
  (content <- readFileSync specPath ;;
   if endsWith ".yaml" specPath || endsWith ".yml" specPath
   then lift (yaml_load h content)
   else lift (JSON_parse h content))%io.

Definition parseOpenAPISpec (h : Host) (specPath : string)
  : M ParsedOpenAPI :=
  (spec <- loadOpenAPISpec h specPath ;;
   lift (parse_document spec))%io.

(** [const templateData = { name: appName, ..., ...parsedSpec }] *)
Definition templateData (appName : string) (opts : Options)
           (parsedSpec : ParsedOpenAPI) : TemplateData :=
  {| td_name := appName;
     td_cors := cors opts;
     td_auth := auth opts;
     td_database := database opts;
     td_endpoints := Some (endpoints parsedSpec);
     td_schemas := Some (schemas parsedSpec);
     td_info := Some (info parsedSpec) |}.

(** The statements of the action that follow the parse. *)
Definition emit (h : Host) (appName : string) (opts : Options)
           (target : string) (parsedSpec : ParsedOpenAPI) : M unit :=
  (ensureDirSync target ;;;
   let data := templateData appName opts parsedSpec in
   (* if (templateData.endpoints !== undefined) *)
   match td_endpoints data with
   | Some _ => walk h (tplRoot h) target data (scaffold h)
   | None => throw (Error "No endpoints found in OpenAPI spec")
   end ;;;
   generateRoutes h target (endpoints parsedSpec) ;;;
   generateHandlers h target (endpoints parsedSpec) ;;;
   generateSchema h target (schemas parsedSpec) (database opts))%io.

(** The body of the try block. *)
Definition action_try (h : Host) (appName : string) (opts : Options)
  : M unit :=
  (lift (validateAppName appName) ;;;
   let target := join (cwd h) appName in
   taken <- existsSync target ;;
   if taken
   then throw (Error ("Folder " ++ quoted appName ++ " already exists."))
   else
     match spec opts with
     | Some specPath =>
         if truthy specPath
         then
           (found <- existsSync specPath ;;
            if negb found
            then throw (Error ("OpenAPI spec file not found: " ++ specPath))
            else
              (parsedSpec <- parseOpenAPISpec h specPath ;;
               emit h appName opts target parsedSpec))
         else mret tt
     | None => mret tt
     end)%io.

Inductive outcome : Type :=
| Completed
| Exit (status : nat) (message : string).

Definition message_of (e : error) : string :=
  match e with
  | Error m => m
  | ReferenceError m => m
  | TypeError m => m
  end.

(** The action: the try block, and the catch that reports the message
    and calls process.exit(1). *)
Definition action (h : Host) (appName : string) (opts : Options)
  : World -> outcome * World :=
  fun w =>
    match action_try h appName opts w with
    | (Ok _, w') => (Completed, w')
    | (Throw e, w') => (Exit 1 (message_of e), w')
    end.

(* ================================================================== *)
(** * Vocabulary of the statements, and sample inputs *)
(* ================================================================== *)

(* ------------------------------------------------------------------ *)
(** ** Operations and references *)

(** [validation_table] on a member that may be missing. *)
Definition table_of (o : option SchemaObject) : string :=
  match o with
  | Some s => validation_table s
  | None => "z.unknown()"
  end.

(** The members of a path item the normalizer takes for operations:
    every member but [parameters] whose value is truthy. *)
Definition members (item : PathItemObject) : list (string * PathItemValue) :=
  filter (fun '(method, operation) =>
            negb (String.eqb method "parameters"
                  || negb (value_truthy operation)))
         item.

Record Operation : Type := {
  o_path : string;
  o_method : string;          (* the member name, as the document spells it *)
  o_object : OperationObject }.

(** The operations of a document, in document order: path by path, and
    member by member inside a path item. *)
Definition operations (spec : Document) : list Operation :=
  flat_map
    (fun '(path, pathItem) =>
       match pathItem with
       | None => []
       | Some item =>
           map (fun '(method, operation) =>
                  {| o_path := path; o_method := method;
                     o_object := as_operation operation |})
               (members item)
       end)
    (default (doc_paths spec) []).

Definition normalize_operation (o : Operation) : result ParsedEndpoint :=
  endpoint_literal (o_path o) (o_method o) (o_object o).

(** Some parameter or some response of the operation is a reference. *)
Definition op_mentions_ref (op : OperationObject) : bool :=
  existsb has_ref (default (op_parameters op) [])
  || existsb (fun sr => has_ref (snd sr)) (default (op_responses op) []).

Definition doc_mentions_ref (spec : Document) : bool :=
  existsb (fun o => op_mentions_ref (o_object o)) (operations spec).

Definition unsupported_reference (e : error) : Prop :=
  e = Error "Parameter references not yet supported"
  \/ e = Error "Response references not yet supported".

(** The identifier as the specification words it: the method in upper
    case, then the path without its non-alphanumeric characters. *)
Definition announced_operationId (method path : string) : string :=
  (toUpperCase method
   ++ replace_class (fun c => negb (isAlnum c)) (fun _ => "") path)%string.

(* ------------------------------------------------------------------ *)
(** ** Sample documents *)

Definition petstore_info : InfoObject :=
  {| info_title := "Petstore"; info_version := "1.0.0";
     info_description := None |}.

(** paths: { "/pets": { get: {} } } *)
Definition get_pets : Document :=
  {| doc_info := petstore_info;
     doc_paths := Some [ ("/pets", Some [ ("get", VOperation no_members) ]) ];
     doc_component_schemas := None |}.

Definition get_pets_endpoint : ParsedEndpoint :=
  {| path := "/pets"; method := "GET"; operationId := "getpets";
     summary := None; description := None; tags := ["default"];
     parameters := []; requestBody := None; responses := [] |}.

Definition pet_id_ref : or_ref ParameterObject :=
  Ref "#/components/parameters/petId".

(** A document whose second operation has a referenced parameter. *)
Definition ref_parameter_doc : Document :=
  {| doc_info := petstore_info;
     doc_paths :=
       Some [ ("/pets", Some [ ("get", VOperation no_members) ]);
              ("/pets/{petId}",
               Some [ ("get",
                       VOperation
                         {| op_operationId := Some "showPetById";
                            op_summary := None; op_description := None;
                            op_tags := Some ["pets"];
                            op_parameters := Some [pet_id_ref];
                            op_requestBody := None;
                            op_responses := None |}) ]) ];
     doc_component_schemas := None |}.

(** A document whose only operation has a referenced request body. *)
Definition ref_body_doc : Document :=
  {| doc_info := petstore_info;
     doc_paths :=
       Some [ ("/pets",
               Some [ ("post",
                       VOperation
                         {| op_operationId := Some "createPet";
                            op_summary := None; op_description := None;
                            op_tags := Some ["pets"];
                            op_parameters := None;
                            op_requestBody :=
                              Some (Ref "#/components/requestBodies/Pet");
                            op_responses := None |}) ]) ];
     doc_component_schemas := None |}.

(** Two paths, three operations, a path-level parameters member. *)
Definition three_operations : Document :=
  {| doc_info := petstore_info;
     doc_paths :=
       Some [ ("/pets",
               Some [ ("parameters", VParameters [pet_id_ref]);
                      ("post", VOperation no_members);
                      ("get", VOperation no_members) ]);
              ("/owners", Some [ ("get", VOperation no_members) ]) ];
     doc_component_schemas := None |}.

(** paths: { "/pets": { summary: "Pets", get: {} } } *)
Definition summary_doc : Document :=
  {| doc_info := petstore_info;
     doc_paths :=
       Some [ ("/pets",
               Some [ ("summary", VText "Pets");
                      ("get", VOperation no_members) ]) ];
     doc_component_schemas := None |}.

(** The fixed fields of a path item that hold an operation. *)
Definition http_methods : list string :=
  [ "get"; "put"; "post"; "delete"; "options"; "head"; "patch"; "trace" ].

Definition is_method (name : string) : bool :=
  existsb (String.eqb name) http_methods.

Definition is_operation_object (v : PathItemValue) : bool :=
  match v with VOperation _ => true | _ => false end.

(** The operations a path item declares: its members named after an
    HTTP method that hold an operation object. *)
Definition declared (item : PathItemObject) : list (string * PathItemValue) :=
  filter (fun kv => is_method (fst kv) && is_operation_object (snd kv)) item.

(** The operations a document declares, in document order. *)
Definition declared_operations (spec : Document) : list Operation :=
  flat_map
    (fun '(path, pathItem) =>
       match pathItem with
       | None => []
       | Some item =>
           map (fun '(method, operation) =>
                  {| o_path := path; o_method := method;
                     o_object := as_operation operation |})
               (declared item)
       end)
    (default (doc_paths spec) []).

(** Every member of every path item is an operation under its HTTP
    method, or is named [parameters]. *)
Definition plain_member (kv : string * PathItemValue) : bool :=
  String.eqb (fst kv) "parameters"
  || (is_method (fst kv) && is_operation_object (snd kv)).

Definition plain_path_items (spec : Document) : bool :=
  forallb (fun entry : string * option PathItemObject =>
             match snd entry with
             | None => true
             | Some item => forallb plain_member item
             end)
          (default (doc_paths spec) []).

(* ------------------------------------------------------------------ *)
(** ** Groups *)

(** The endpoints of [eps] whose first tag is [tag], in the order of
    [eps]. *)
Definition group_of (tag : string) (eps : list ParsedEndpoint)
  : list ParsedEndpoint :=
  filter (fun e => String.eqb (first_tag e) tag) eps.

Definition nonempty {A} (l : list A) : option (list A) :=
  match l with [] => None | _ => Some l end.

(** How many endpoints the groups hold, all together. *)
Definition total (g : Groups) : nat := List.length (concat (map snd g)).

(** What the reduce maintains: after the endpoints [eps] the groups are
    the non-empty [group_of]s, under distinct keys. *)
Definition partitions (g : Groups) (eps : list ParsedEndpoint) : Prop :=
  NoDup (map fst g)
  /\ (forall tag, get g tag = nonempty (group_of tag eps))
  /\ total g = List.length eps.

Definition tagged (id : string) (ts : list string) : ParsedEndpoint :=
  {| path := "/"; method := "GET"; operationId := id;
     summary := None; description := None; tags := ts;
     parameters := []; requestBody := None; responses := [] |}.

Definition five_endpoints : list ParsedEndpoint :=
  [ tagged "a" ["pets"; "admin"]; tagged "b" ["owners"]; tagged "c" [];
    tagged "d" ["pets"]; tagged "e" [""] ].

(** No first tag of the list names a member of Object.prototype. *)
Definition own_tags (eps : list ParsedEndpoint) : bool :=
  forallb (fun e => negb (inherited (first_tag e))) eps.

Definition not_a_function : error :=
  TypeError "acc[tag].push is not a function".

(* ------------------------------------------------------------------ *)
(** ** Traces of runs *)

(** [m] only appends to the trace. *)
Definition appends {A} (m : M A) : Prop :=
  forall w, exists es, trace (snd (m w)) = trace w ++ es.

(** [m] returns, having appended exactly [es]. *)
Definition returns {A} (m : M A) (a : A) (es : list event) : Prop :=
  forall w, exists w', m w = (Ok a, w') /\ trace w' = trace w ++ es.

(** Induction on scaffold entries, the children of a directory being
    covered by [Forall]. *)
Definition entry_induction (P : entry -> Prop)
           (Hfile : forall name content, P (File name content))
           (Hdir : forall name children,
               Forall P children -> P (Directory name children))
  : forall e, P e :=
  fix go (e : entry) : P e :=
    match e with
    | File name content => Hfile name content
    | Directory name children =>
        Hdir name children
             ((fix all (l : list entry) : Forall P l :=
                 match l with
                 | [] => Forall_nil P
                 | c :: r => Forall_cons c (go c) (all r)
                 end) children)
    end.

(** A fresh run goes one of three ways: it stops before the parse with
    nothing done; it has no spec to work on; or it is the parse of the
    spec followed, if the parse returns, by the emission. *)
Inductive course (h : Host) (appName : string) (opts : Options)
          (files : list (string * node)) : Prop :=
| Refused (e : error)
          (Hrun : action_try h appName opts (boot files)
                  = (Throw e, boot files))
| Idle (Hspec : match spec opts with
                | Some specPath => truthy specPath = false
                | None => True
                end)
       (Hrun : action_try h appName opts (boot files) = (Ok tt, boot files))
| Parsing (specPath : string)
          (Hspec : spec opts = Some specPath)
          (Htruthy : truthy specPath = true)
          (Hname : validateAppName appName = Ok tt)
          (Hfree : find_node files (join (cwd h) appName) = None)
          (Hrun : action_try h appName opts (boot files) =
                  match parseOpenAPISpec h specPath (boot files) with
                  | (Ok ir, w1) =>
                      emit h appName opts (join (cwd h) appName) ir w1
                  | (Throw e, w1) => (Throw e, w1)
                  end).

Definition no_output (es : list event) : bool :=
  forallb (fun ev => negb (is_output ev)) es.

(* ------------------------------------------------------------------ *)
(** ** A host to run on *)

Definition json_member (k v : string) : string :=
  (quoted k ++ ":" ++ v)%string.

Definition json_object (ms : list string) : string :=
  ("{" ++ String.concat "," ms ++ "}")%string.

Definition petstore_head : list string :=
  [ json_member "openapi" (quoted "3.0.0");
    json_member "info"
      (json_object [ json_member "title" (quoted "Petstore");
                     json_member "version" (quoted "1.0.0") ]) ].

(** An OpenAPI document with an empty paths object. *)
Definition no_paths_json : string :=
  json_object (petstore_head ++ [ json_member "paths" "{}" ]).

Definition no_paths : Document :=
  {| doc_info := petstore_info; doc_paths := Some [];
     doc_component_schemas := None |}.

Definition get_pets_json : string :=
  json_object
    (petstore_head
     ++ [ json_member "paths"
            (json_object
               [ json_member "/pets"
                   (json_object [ json_member "get" "{}" ]) ]) ]).

Definition ref_parameter_json : string :=
  json_object
    (petstore_head
     ++ [ json_member "paths"
            (json_object
               [ json_member "/pets"
                   (json_object [ json_member "get" "{}" ]);
                 json_member "/pets/{petId}"
                   (json_object
                      [ json_member "get"
                          (json_object
                             [ json_member "operationId" (quoted "showPetById");
                               json_member "tags" ("[" ++ quoted "pets" ++ "]");
                               json_member "parameters"
                                 ("["
                                  ++ json_object
                                       [ json_member "$ref"
                                           (quoted "#/components/parameters/petId") ]
                                  ++ "]") ]) ]) ]) ]).

(** JSON.parse on the three texts above. *)
Definition demo_JSON_parse (content : string) : result Document :=
  if String.eqb content no_paths_json then Ok no_paths
  else if String.eqb content get_pets_json then Ok get_pets
  else if String.eqb content ref_parameter_json then Ok ref_parameter_doc
  else Throw (Error "Unexpected token in JSON").

Definition demo_render (t : template) (c : context) : result string :=
  match t with
  | FileTemplate source => Ok source
  | RouteTemplate => Ok "// routes"
  | HandlerTemplate => Ok "// handlers"
  | SchemaTemplate => Ok "// schema"
  end.

Definition demo_host : Host :=
  {| cwd := "/home/dev";
     tplRoot := "/opt/cli/templates/app";
     scaffold :=
       [ File "package.json.hbs" "{ name: {{name}} }";
         Directory "src"
           [ File "app.ts" "export default app";
             Directory "db" [ File "index.ts" "export default db" ] ] ];
     yaml_load := fun _ => Throw (Error "bad indentation of a mapping entry");
     JSON_parse := demo_JSON_parse;
     render := demo_render |}.

Definition demo_files : list (string * node) :=
  [ ("empty.json", FileNode no_paths_json);
    ("pets.json", FileNode get_pets_json);
    ("refs.json", FileNode ref_parameter_json);
    ("/home/dev/taken", DirNode) ].

(** paths: { "/pets": { get: { responses: { "200": { description:
    "A list of pets", content: { "application/json": {} } } } } } } *)
Definition list_pets : Document :=
  {| doc_info := petstore_info;
     doc_paths :=
       Some [ ("/pets",
               Some [ ("get",
                       VOperation
                         {| op_operationId := None; op_summary := None;
                            op_description := None; op_tags := None;
                            op_parameters := None; op_requestBody := None;
                            op_responses :=
                              Some [ ("200",
                                      Inline
                                        {| ro_description := "A list of pets";
                                           ro_content :=
                                             Some [ ("application/json", None) ]
                                        |}) ] |}) ]) ];
     doc_component_schemas := None |}.

Definition list_pets_endpoint : ParsedEndpoint :=
  {| path := "/pets"; method := "GET"; operationId := "getpets";
     summary := None; description := None; tags := ["default"];
     parameters := []; requestBody := None;
     responses :=
       [ {| pr_statusCode := "200"; pr_description := "A list of pets";
            pr_content := Some [ ("application/json", None) ] |} ] |}.

Definition list_pets_json : string :=
  json_object
    (petstore_head
     ++ [ json_member "paths"
            (json_object
               [ json_member "/pets"
                   (json_object
                      [ json_member "get"
                          (json_object
                             [ json_member "responses"
                                 (json_object
                                    [ json_member "200"
                                        (json_object
                                           [ json_member "description"
                                               (quoted "A list of pets");
                                             json_member "content"
                                               (json_object
                                                  [ json_member
                                                      "application/json"
                                                      "{}" ]) ]) ]) ]) ]) ]) ]).

(** The host above, with a decoder that knows the listing as well. *)
Definition listing_host : Host :=
  {| cwd := cwd demo_host;
     tplRoot := tplRoot demo_host;
     scaffold := scaffold demo_host;
     yaml_load := yaml_load demo_host;
     JSON_parse := fun content =>
                     if String.eqb content list_pets_json then Ok list_pets
                     else demo_JSON_parse content;
     render := demo_render |}.

Definition listing_files : list (string * node) :=
  ("listing.json", FileNode list_pets_json) :: demo_files.

(** Two operations, the second under the tag 7, and one object
    schema. *)
Definition store : Document :=
  {| doc_info := petstore_info;
     doc_paths :=
       Some [ ("/pets",
               Some [ ("get",
                       VOperation
                         {| op_operationId := Some "listPets";
                            op_summary := None; op_description := None;
                            op_tags := Some ["Pets"];
                            op_parameters := None; op_requestBody := None;
                            op_responses := None |}) ]);
              ("/releases",
               Some [ ("get",
                       VOperation
                         {| op_operationId := Some "listReleases";
                            op_summary := None; op_description := None;
                            op_tags := Some ["7"];
                            op_parameters := None; op_requestBody := None;
                            op_responses := None |}) ]) ];
     doc_component_schemas :=
       Some [ ("Pet",
               Some (Schema None (Some "object") None
                            (Some [ ("name", Schema None (Some "string")
                                                    None None None) ])
                            None)) ] |}.

Definition store_json : string :=
  json_object
    (petstore_head
     ++ [ json_member "paths"
            (json_object
               [ json_member "/pets"
                   (json_object
                      [ json_member "get"
                          (json_object
                             [ json_member "operationId" (quoted "listPets");
                               json_member "tags"
                                 ("[" ++ quoted "Pets" ++ "]") ]) ]);
                 json_member "/releases"
                   (json_object
                      [ json_member "get"
                          (json_object
                             [ json_member "operationId"
                                 (quoted "listReleases");
                               json_member "tags"
                                 ("[" ++ quoted "7" ++ "]") ]) ]) ]);
          json_member "components"
            (json_object
               [ json_member "schemas"
                   (json_object
                      [ json_member "Pet"
                          (json_object
                             [ json_member "type" (quoted "object");
                               json_member "properties"
                                 (json_object
                                    [ json_member "name"
                                        (json_object
                                           [ json_member "type"
                                               (quoted "string") ]) ]) ])
                      ]) ]) ]).



Definition store_host : Host :=
  {| cwd := cwd demo_host;
     tplRoot := tplRoot demo_host;
     scaffold := scaffold demo_host;
     yaml_load := yaml_load demo_host;
     JSON_parse := fun content =>
                     if String.eqb content store_json then Ok store
                     else demo_JSON_parse content;
     render := demo_render |}.

Definition store_files : list (string * node) :=
  ("store.json", FileNode store_json) :: demo_files.


Definition with_spec (specPath : string) : Options :=
  {| cors := false; auth := false; spec := Some specPath;
     database := Some "sqlite" |}.

(* ------------------------------------------------------------------ *)
(** ** Emission *)

(** The template engine renders whatever it is given. *)
Definition renders (h : Host) : Prop :=
  forall t c, is_ok (render h t c) = true.

(** The text of a successful render. *)
Definition rendered (h : Host) (t : template) (c : context) : string :=
  match render h t c with
  | Ok text => text
  | Throw _ => ""
  end.


(** The key is an array index. *)
Definition is_index (key : string) : bool :=
  match array_index key with Some _ => true | None => false end.

(** No key of the object is an array index: Object.entries then
    enumerates the keys in the order they were created. *)
Definition no_index_key {V} (own : list (string * V)) : bool :=
  forallb (fun kv => match array_index (fst kv) with
                     | Some _ => false
                     | None => true
                     end) own.

(** What generateRoutes and generateHandlers do for the groups
    [groups] when every render succeeds: per group, in the order
    Object.entries gives, the routes directory is ensured and the file
    of the group is written. *)
Definition routes_events (h : Host) (targetDir : string)
           (groups : Groups) : list event :=
  flat_map
    (fun '(tag, tagEndpoints) =>
       [ EnsureDir (routesDir targetDir);
         WriteFile (routesFile targetDir tag)
                   (rendered h RouteTemplate
                             (RoutesContext tag (map view tagEndpoints))) ])
    (entries groups).

Definition handlers_events (h : Host) (targetDir : string)
           (groups : Groups) : list event :=
  flat_map
    (fun '(tag, tagEndpoints) =>
       [ EnsureDir (routesDir targetDir);
         WriteFile (handlersFile targetDir tag)
                   (rendered h HandlerTemplate
                             (HandlersContext tag (toLowerCase tag) true
                                              (map view tagEndpoints))) ])
    (entries groups).

(** The path an output event creates or overwrites. *)
Definition destination (e : event) : option string :=
  match e with
  | ReadFile _ => None
  | EnsureDir p => Some p
  | WriteFile p _ => Some p
  | CopyFile _ dest => Some dest
  end.


(* ------------------------------------------------------------------ *)
(** ** Further vocabulary *)

(** The characters of a string, in order. *)
Definition chars (s : string) : list ascii := list_ascii_of_string s.

(** The code unit a string starts with. *)
Definition head_code (s : string) : option nat :=
  match s with
  | EmptyString => None
  | String c _ => Some (code c)
  end.

(** The word ecole with its capital E acute (U+00C9). *)
Definition ecole : string := String (ascii_of_nat 201) "cole".

(** All characters of the string are white space ([trim] leaves
    nothing). *)
Definition blank (s : string) : bool := forall_chars isSpace s.


(** The path [p] exists in the world. *)
Definition present (p : string) (w : World) : Prop :=
  find_node (fs w) p <> None.

(** [m] removes no path: what is present before is present after. *)
Definition keeps {A} (m : M A) : Prop :=
  forall p w, present p w -> present p (snd (m w)).


(** The error the parse of one operation throws: a referenced parameter
    is met before any response is looked at. *)
Definition reference_error (op : OperationObject) : error :=
  if existsb has_ref (default (op_parameters op) [])
  then Error "Parameter references not yet supported"
  else Error "Response references not yet supported".

(** A component schema that has a properties member. *)
Definition is_object_schema (entry : string * option SchemaObject) : bool :=
  match snd entry with
  | Some s => match schema_properties s with Some _ => true | None => false end
  | None => false
  end.

(** The elements of a list without repetition, each at the place of its
    first occurrence. *)
Fixpoint first_occurrences (l : list string) : list string :=
  match l with
  | [] => []
  | x :: r => x :: filter (fun y => negb (String.eqb x y)) (first_occurrences r)
  end.

(** An operation with a referenced response, then one with a referenced
    parameter and a referenced response. *)
Definition two_refs : Document :=
  {| doc_info := petstore_info;
     doc_paths :=
       Some [ ("/pets",
               Some [ ("get", VOperation no_members);
                      ("post",
                       VOperation
                         {| op_operationId := None; op_summary := None;
                            op_description := None; op_tags := None;
                            op_parameters := None; op_requestBody := None;
                            op_responses :=
                              Some [ ("201", Ref "#/components/responses/Created") ]
                         |}) ]);
              ("/owners",
               Some [ ("get",
                       VOperation
                         {| op_operationId := None; op_summary := None;
                            op_description := None; op_tags := None;
                            op_parameters := Some [pet_id_ref];
                            op_requestBody := None;
                            op_responses :=
                              Some [ ("200", Ref "#/components/responses/Owners") ]
                         |}) ]) ];
     doc_component_schemas := None |}.

(** An operation without tags, one with an empty tag list, one tagged. *)
Definition tag_variants : Document :=
  {| doc_info := petstore_info;
     doc_paths :=
       Some [ ("/a", Some [ ("get", VOperation no_members) ]);
              ("/b",
               Some [ ("get",
                       VOperation
                         {| op_operationId := None; op_summary := None;
                            op_description := None; op_tags := Some [];
                            op_parameters := None; op_requestBody := None;
                            op_responses := None |}) ]);
              ("/c",
               Some [ ("get",
                       VOperation
                         {| op_operationId := None; op_summary := None;
                            op_description := None;
                            op_tags := Some ["pets"; "admin"];
                            op_parameters := None; op_requestBody := None;
                            op_responses := None |}) ]) ];
     doc_component_schemas := None |}.

(** The tags member is missing, empty, or starts with the empty
    string. *)
Definition untagged (op : OperationObject) : Prop :=
  op_tags op = None \/ op_tags op = Some []
  \/ exists rest, op_tags op = Some ("" :: rest).

(** Components: an object schema, a string alias, an absent value, a
    second object schema. *)
Definition pet_components : Document :=
  {| doc_info := petstore_info;
     doc_paths := None;
     doc_component_schemas :=
       Some [ ("Pet",
               Some (Schema None (Some "object") None
                            (Some [ ("id", Schema None (Some "integer")
                                                  None None None);
                                    ("name", Schema None (Some "string")
                                                    None None None) ])
                            (Some ["id"])));
              ("PetId", Some (Schema None (Some "string") None None None));
              ("Gone", None);
              ("Owner",
               Some (Schema None None None (Some []) None)) ] |}.

Definition absent_from (keys : list string) (t : string) : bool :=
  negb (existsb (String.eqb t) keys).

(** The decoder loadOpenAPISpec picks for a path. *)
Definition decoder_for (h : Host) (specPath : string)
  : string -> result Document :=
  if endsWith ".yaml" specPath || endsWith ".yml" specPath
  then yaml_load h
  else JSON_parse h.

(** How many entries, directories and files, a listing holds, at any
    depth. *)
Fixpoint entry_size (e : entry) : nat :=
  match e with
  | File _ _ => 1
  | Directory _ children =>
      S ((fix sum (l : list entry) : nat :=
            match l with
            | [] => 0
            | c :: r => entry_size c + sum r
            end) children)
  end.

Definition listing_size (listing : list entry) : nat :=
  fold_right (fun e n => entry_size e + n) 0 listing.

(** The event creates a path that is [dest], a separator and more. *)
Definition under (dest : string) (e : event) : Prop :=
  exists rest, destination e = Some (dest ++ "/" ++ rest)%string.

(** [m] appends only events that satisfy [Q]. *)
Definition appends_only {A} (Q : event -> Prop) (m : M A) : Prop :=
  forall w, exists es, trace (snd (m w)) = trace w ++ es /\ Forall Q es.

(** [m] returns, having appended [n] events. *)
Definition returns_after {A} (m : M A) (a : A) (n : nat) : Prop :=
  forall w, exists w' es,
      m w = (Ok a, w') /\ trace w' = trace w ++ es /\ List.length es = n.

(** An operation that declares an empty operationId and an inline
    request body without members. *)
Definition empty_id_doc : Document :=
  {| doc_info := petstore_info;
     doc_paths :=
       Some [ ("/pets",
               Some [ ("post",
                       VOperation
                         {| op_operationId := Some "";
                            op_summary := Some "Create a pet";
                            op_description := None; op_tags := None;
                            op_parameters := None;
                            op_requestBody :=
                              Some (Inline {| rb_required := None;
                                              rb_content := None |});
                            op_responses := None |}) ]) ];
     doc_component_schemas := None |}.

(** The string holds no path separator. *)
Definition plain_segment (s : string) : bool :=
  forall_chars (fun c => negb (Ascii.eqb c "/")) s.

(* ================================================================== *)
(** * Properties of the string helpers *)
(* ================================================================== *)

Section StringFacts.

Lemma substring_0_0 (s : string) : substring 0 0 s = "".
Proof. destruct s; reflexivity. Qed.

Lemma substring_whole (s : string) : substring 0 (String.length s) s = s.
Proof. induction s as [|c r IH]; simpl; [reflexivity | now rewrite IH]. Qed.

Lemma charAt_0_cons (c : ascii) (r : string) :
  charAt 0 (String c r) = String c "".
Proof. unfold charAt; simpl. now rewrite substring_0_0. Qed.

Lemma slice_1_cons (c : ascii) (r : string) : slice 1 (String c r) = r.
Proof.
  unfold slice; simpl. rewrite Nat.sub_0_r. apply substring_whole.
Qed.

Lemma append_nil_r (s : string) : (s ++ "")%string = s.
Proof. induction s as [|c r IH]; simpl; [reflexivity | now rewrite IH]. Qed.

Lemma append_assoc (a b c : string) :
  ((a ++ b) ++ c)%string = (a ++ (b ++ c))%string.
Proof. induction a as [|x a IH]; simpl; [reflexivity | now rewrite IH]. Qed.

Lemma append_inv_head (a x y : string) :
  (a ++ x)%string = (a ++ y)%string -> x = y.
Proof.
  induction a as [|c a IH]; simpl; intros H; [exact H|].
  injection H as H. now apply IH.
Qed.

Lemma append_length (a b : string) :
  String.length (a ++ b) = String.length a + String.length b.
Proof. induction a as [|x a IH]; simpl; [reflexivity | now rewrite IH]. Qed.

Lemma lowerChar_not_upper (c : ascii) :
  isUpper c = false -> isLatinUpper c = false -> lowerChar c = c.
Proof. unfold lowerChar. now intros -> ->. Qed.

Lemma upperChar_not_lower (c : ascii) :
  isLower c = false -> isLatinLower c = false -> upperChar c = c.
Proof. unfold upperChar. now intros -> ->. Qed.

Lemma toUpperCase_one (c : ascii) : toUpperCase (String c "") = upperOf c.
Proof. simpl. apply append_nil_r. Qed.

Lemma lowerChar_of_capital (c : ascii) :
  isUpper c = true -> code (lowerChar c) = code c + 32.
Proof.
  destruct c as [[] [] [] [] [] [] [] []]; vm_compute; congruence.
Qed.

Lemma upperChar_of_small (c : ascii) :
  isLower c = true -> code (upperChar c) = code c - 32.
Proof.
  destruct c as [[] [] [] [] [] [] [] []]; vm_compute; congruence.
Qed.

Lemma replace_class_none (cls : ascii -> bool) (f : string -> string)
      (s : string) :
  forall_chars (fun c => negb (cls c)) s = true -> replace_class cls f s = s.
Proof.
  induction s as [|c r IH]; simpl; [reflexivity|].
  intros H. apply andb_prop in H as [Hc Hr].
  apply negb_true_iff in Hc. rewrite Hc. now rewrite IH.
Qed.

End StringFacts.

Lemma snakeCase_cons (c : ascii) (r : string) :
  snakeCase (String c r) =
  if isUpper c
  then String "_" (String (lowerChar c) (snakeCase r))
  else String c (snakeCase r).
Proof. unfold snakeCase; simpl. destruct (isUpper c); reflexivity. Qed.

Lemma snakeCase_length (s : string) :
  String.length (snakeCase s) = String.length s + count_chars isUpper s.
Proof.
  induction s as [|c r IH]; [reflexivity|].
  rewrite snakeCase_cons. simpl count_chars. simpl String.length.
  destruct (isUpper c); simpl; rewrite IH; lia.
Qed.

(** C9, as stated, fails for snakeCase: the E acute of Ecole is an
    upper-case letter (its lower-case form is another character, the
    one 32 code points up), and snakeCase returns the word as it is,
    with no underscore before the letter and the letter not
    lower-cased. *)
Lemma snakeCase_skips_other_capitals :
  code (lowerChar (ascii_of_nat 201)) = 233
  /\ toLowerCase ecole <> ecole
  /\ snakeCase ecole = ecole.
Proof. split; [reflexivity|]. split; [discriminate | reflexivity]. Qed.

(** C9, amended.  camelCase lower-cases the first character only and pascalCase
    upper-cases the first character only, the rest of the string being
    kept as it is (the empty string maps to itself): the result is the
    lower-case, respectively upper-case, form of the one-character
    string made of the first character, followed by the rest.  That
    form is one character, except for the sharp s, whose capital is SS;
    for a letter of [A-Z] it is the letter 32 code points up, for a
    letter of [a-z] the letter 32 code points down.  snakeCase
    replaces every letter of [A-Z], and nothing else, by an underscore
    followed by that letter in lower case, so that the result is longer
    by the number of such letters; a string without them, such as a
    snake_case or kebab-case name, is returned unchanged. *)
Theorem case_helpers_contract (c : ascii) (rest s : string) :
  camelCase "" = ""
  /\ camelCase (String c rest) = (toLowerCase (String c "") ++ rest)%string
  /\ camelCase (String c rest) = String (lowerChar c) rest
  /\ (isUpper c = true -> code (lowerChar c) = code c + 32)
  /\ pascalCase "" = ""
  /\ pascalCase (String c rest) = (toUpperCase (String c "") ++ rest)%string
  /\ (capital_below_256 c = true -> (code c =? 223)%nat = false ->
      pascalCase (String c rest) = String (upperChar c) rest)
  /\ ((code c =? 223)%nat = true ->
      pascalCase (String c rest) = ("SS" ++ rest)%string)
  /\ (isLower c = true -> code (upperChar c) = code c - 32)
  /\ snakeCase "" = ""
  /\ snakeCase (String c rest) =
       (if isUpper c
        then String "_" (String (lowerChar c) (snakeCase rest))
        else String c (snakeCase rest))
  /\ String.length (snakeCase s) = String.length s + count_chars isUpper s
  /\ (forall_chars (fun x => negb (isUpper x)) s = true -> snakeCase s = s).
Proof.
  assert (Hp : pascalCase (String c rest)
               = (toUpperCase (String c "") ++ rest)%string).
  { unfold pascalCase. now rewrite charAt_0_cons, slice_1_cons. }
  split; [reflexivity|].
  split; [unfold camelCase; now rewrite charAt_0_cons, slice_1_cons|].
  split; [unfold camelCase; now rewrite charAt_0_cons, slice_1_cons|].
  split; [apply lowerChar_of_capital|].
  split; [reflexivity|].
  split; [exact Hp|].
  split.
  { intros _ Hss. rewrite Hp, toUpperCase_one. unfold upperOf.
    now rewrite Hss. }
  split.
  { intros Hss. rewrite Hp, toUpperCase_one. unfold upperOf.
    now rewrite Hss. }
  split; [apply upperChar_of_small|].
  split; [reflexivity|].
  split; [apply snakeCase_cons|].
  split; [apply snakeCase_length|].
  apply replace_class_none.
Qed.

Lemma case_helpers_contract_witness :
  pascalCase "petStore" = "PetStore"
  /\ camelCase "ListPets" = "listPets"
  /\ snakeCase "pet-store_v2" = "pet-store_v2".
Proof.
  destruct (case_helpers_contract "p" "etStore" "pet-store_v2")
    as (_ & _ & _ & _ & _ & _ & Hp & _ & _ & _ & _ & _ & Hs).
  destruct (case_helpers_contract "L" "istPets" "")
    as (_ & _ & Hc & _).
  split; [apply Hp; reflexivity|].
  split; [exact Hc|].
  apply Hs. reflexivity.
Defined.

Example camelCase_listPets : camelCase "ListPets" = "listPets".
Proof. reflexivity. Qed.

Example camelCase_keeps_segments : camelCase "List_all-Pets" = "list_all-Pets".
Proof. reflexivity. Qed.

Example pascalCase_petStore : pascalCase "petStore" = "PetStore".
Proof. reflexivity. Qed.

Example snakeCase_PetStore : snakeCase "PetStoreV2" = "_pet_store_v2".
Proof. reflexivity. Qed.

(* ------------------------------------------------------------------ *)
(** ** The storage-type table *)

Lemma switch_none {A} (cases : list (string * A)) (d : A) :
  switch None cases d = d.
Proof. destruct cases as [|[k v] r]; reflexivity. Qed.

Lemma switch_miss {A} (t : string) (cases : list (string * A)) (d : A) :
  ~ In t (map fst cases) -> switch (Some t) cases d = d.
Proof.
  induction cases as [|[k v] r IH]; simpl; [reflexivity|].
  intros H. destruct (String.eqb_spec t k) as [->|_].
  - exfalso. apply H. now left.
  - apply IH. intros Hin. apply H. now right.
Qed.

(** C8.  drizzleType maps the type string to text(), integer to
    integer(), number to real(), boolean to the boolean-mode integer
    column, and a missing type or any other type to text(); its result
    is determined by the type member alone, so two properties of the
    same type get the same column. *)
Theorem drizzleType_table (property other : SchemaObject) :
  (schema_type property = Some "string" -> drizzleType property = "text()")
  /\ (schema_type property = Some "integer" ->
      drizzleType property = "integer()")
  /\ (schema_type property = Some "number" -> drizzleType property = "real()")
  /\ (schema_type property = Some "boolean" ->
      drizzleType property =
      ("integer({ mode: " ++ quoted "boolean" ++ " })")%string)
  /\ (schema_type property = None -> drizzleType property = "text()")
  /\ (forall t, schema_type property = Some t ->
                ~ In t ["string"; "integer"; "number"; "boolean"] ->
                drizzleType property = "text()")
  /\ (schema_type property = schema_type other ->
      drizzleType property = drizzleType other).
Proof.
  unfold drizzleType.
  repeat split; try (intros ->; reflexivity).
  intros t -> H. now apply switch_miss.
Qed.

Lemma drizzleType_table_witness :
  drizzleType (Schema None (Some "object") None (Some []) None) = "text()".
Proof.
  destruct (drizzleType_table
              (Schema None (Some "object") None (Some []) None)
              (Schema None None None None None))
    as (_ & _ & _ & _ & _ & H & _).
  apply (H "object").
  - reflexivity.
  - simpl. intros [H0|[H0|[H0|[H0|[]]]]]; discriminate H0.
Defined.

(* ------------------------------------------------------------------ *)
(** ** The validation-type helper *)

Lemma validation_table_unfold (s : SchemaObject) :
  validation_table s =
  switch (schema_type s)
         [ ("string", "z.string()");
           ("number", "z.number()");
           ("integer", "z.number().int()");
           ("boolean", "z.boolean()");
           ("array", ("z.array(" ++ table_of (schema_items s) ++ ")")%string) ]
         "z.unknown()".
Proof. destruct s as [r t i p q]. destruct i; reflexivity. Qed.

Lemma switch_map {A B} (g : A -> B) (t : option string)
      (cases : list (string * A)) (d : A) :
  g (switch t cases d) =
  switch t (map (fun kv => (fst kv, g (snd kv))) cases) (g d).
Proof.
  induction cases as [|[k v] r IH]; simpl; [reflexivity|].
  destruct t as [t|]; [|reflexivity].
  destruct (String.eqb t k); [reflexivity | exact IH].
Qed.

(** Had the identifier zodType been bound, where the helper body runs, to
    a function computing the table, the body would compute the table. *)
Lemma zodType_body_table (sc : Scope) (s : SchemaObject) :
  resolve sc "zodType" = Some (SchemaFunction (fun o => Ok (table_of o))) ->
  zodType_body sc (Some s) = Ok (validation_table s).
Proof.
  intros Hsc. rewrite validation_table_unfold.
  unfold zodType_body, call. rewrite Hsc. simpl rbind.
  rewrite (switch_map (@Ok string)). reflexivity.
Qed.

(** Off the array case the registered helper follows the table. *)
Lemma zodType_scalar (s : SchemaObject) :
  schema_type s <> Some "array" ->
  zodType (Some s) = Ok (validation_table s).
Proof.
  intros H. rewrite validation_table_unfold.
  unfold zodType, zodType_body.
  destruct (schema_type s) as [t|]; [|reflexivity].
  simpl.
  destruct (String.eqb t "string"); [reflexivity|].
  destruct (String.eqb t "number"); [reflexivity|].
  destruct (String.eqb t "integer"); [reflexivity|].
  destruct (String.eqb t "boolean"); [reflexivity|].
  destruct (String.eqb_spec t "array") as [->|_]; [now elim H | reflexivity].
Qed.

(** C3.  On every schema of type array the registered helper throws: its
    body calls the identifier zodType, which nothing in routes.ts binds,
    so no array-of validator is produced, whatever the items are. *)
Theorem zodType_array_throws
        (r : option string) (items : option SchemaObject)
        (props : option (list (string * SchemaObject)))
        (req : option (list string)) :
  zodType (Some (Schema r (Some "array") items props req)) =
  Throw (ReferenceError "zodType is not defined").
Proof. reflexivity. Qed.

Example zodType_array_of_string :
  zodType (Some (Schema None (Some "array")
                        (Some (Schema None (Some "string") None None None))
                        None None)) =
  Throw (ReferenceError "zodType is not defined")
  /\ validation_table
       (Schema None (Some "array")
               (Some (Schema None (Some "string") None None None))
               None None) = "z.array(z.string())".
Proof. split; reflexivity. Qed.

(* ================================================================== *)
(** * Properties of the normalizer *)
(* ================================================================== *)

Section ResultFacts.

Context {A B : Type}.

Lemma mapM_app (f : A -> result B) (l1 l2 : list A) :
  mapM f (l1 ++ l2) =
  (xs <- mapM f l1 ;; ys <- mapM f l2 ;; Ok (xs ++ ys))%res.
Proof.
  induction l1 as [|x l1 IH]; simpl.
  - destruct (mapM f l2); reflexivity.
  - destruct (f x); simpl; [|reflexivity].
    rewrite IH. destruct (mapM f l1); simpl; [|reflexivity].
    destruct (mapM f l2); reflexivity.
Qed.

Lemma mapM_ok_Forall2 (f : A -> result B) (l : list A) (ys : list B) :
  mapM f l = Ok ys -> Forall2 (fun x y => f x = Ok y) l ys.
Proof.
  revert ys; induction l as [|x l IH]; simpl; intros ys H.
  - injection H as <-. constructor.
  - destruct (f x) as [y|] eqn:Hx; simpl in H; [|discriminate].
    destruct (mapM f l) as [ys'|]; simpl in H; [|discriminate].
    injection H as <-. constructor; auto.
Qed.

Lemma mapM_is_ok (f : A -> result B) (l : list A) :
  is_ok (mapM f l) = forallb (fun x => is_ok (f x)) l.
Proof.
  induction l as [|x l IH]; simpl; [reflexivity|].
  destruct (f x); simpl; [|reflexivity].
  rewrite <- IH. destruct (mapM f l); reflexivity.
Qed.

(** The error of a failed map is the error of one of its elements. *)
Lemma mapM_throw (f : A -> result B) (l : list A) (e : error) :
  mapM f l = Throw e -> exists x, In x l /\ f x = Throw e.
Proof.
  induction l as [|x l IH]; simpl; [discriminate|].
  destruct (f x) as [y|e'] eqn:Hx; simpl.
  - destruct (mapM f l); simpl; [discriminate|].
    intros H. injection H as ->.
    destruct IH as (x' & Hin & Hx'); [reflexivity|]. eauto.
  - intros H. injection H as ->. eauto.
Qed.

End ResultFacts.

Lemma is_ok_true {A} (r : result A) : is_ok r = true -> exists a, r = Ok a.
Proof. destruct r; [eauto | discriminate]. Qed.

Lemma is_ok_false {A} (r : result A) : is_ok r = false -> exists e, r = Throw e.
Proof. destruct r; [discriminate | eauto]. Qed.

(** The inner forEach appends the descriptors of the item's members. *)
Lemma inner_forEach (path : string) (item : PathItemObject)
      (acc : list ParsedEndpoint) :
  forEach
    (fun endpoints '(method, operation) =>
       if String.eqb method "parameters" || negb (value_truthy operation)
       then Ok endpoints
       else
         (e <- endpoint_literal path method (as_operation operation) ;;
          Ok (endpoints ++ [e]))%res)
    item acc =
  (es <- mapM (fun '(method, operation) =>
                 endpoint_literal path method (as_operation operation))
              (members item) ;;
   Ok (acc ++ es))%res.
Proof.
  revert acc; induction item as [|[m v] item IH]; intros acc; simpl.
  - now rewrite app_nil_r.
  - destruct (String.eqb m "parameters" || negb (value_truthy v)); simpl.
    + apply IH.
    + destruct (endpoint_literal path m (as_operation v)); simpl;
        [|reflexivity].
      rewrite IH.
      destruct (mapM _ (members item)); simpl; [|reflexivity].
      now rewrite <- app_assoc.
Qed.

Lemma mapM_map {A B C} (g : A -> B) (f : B -> result C) (l : list A) :
  mapM f (map g l) = mapM (fun x => f (g x)) l.
Proof.
  induction l as [|x l IH]; simpl; [reflexivity|]. now rewrite IH.
Qed.

Lemma mapM_ext {A B} (f g : A -> result B) (l : list A) :
  (forall x, f x = g x) -> mapM f l = mapM g l.
Proof.
  intros H; induction l as [|x l IH]; simpl; [reflexivity|].
  now rewrite H, IH.
Qed.

(** parseEndpoints maps the operations of the document, in order, and
    stops at the first one that throws. *)
Lemma parseEndpoints_mapM (spec : Document) :
  parseEndpoints spec = mapM normalize_operation (operations spec).
Proof.
  unfold parseEndpoints, operations.
  generalize (default (doc_paths spec) []); intros paths.
  assert (G : forall acc,
    forEach
      (fun endpoints '(path, pathItem) =>
         match pathItem with
         | None => Ok endpoints
         | Some item =>
             forEach
               (fun endpoints '(method, operation) =>
                  if String.eqb method "parameters"
                     || negb (value_truthy operation)
                  then Ok endpoints
                  else
                    (e <- endpoint_literal path method
                                           (as_operation operation) ;;
                     Ok (endpoints ++ [e]))%res)
               item endpoints
         end)
      paths acc =
    (es <- mapM normalize_operation
             (flat_map
                (fun '(path, pathItem) =>
                   match pathItem with
                   | None => []
                   | Some item =>
                       map (fun '(method, operation) =>
                              {| o_path := path; o_method := method;
                                 o_object := as_operation operation |})
                           (members item)
                   end) paths) ;;
     Ok (acc ++ es))%res).
  { induction paths as [|[p [item|]] paths IH]; intros acc; simpl.
    - now rewrite app_nil_r.
    - rewrite inner_forEach, mapM_app, mapM_map.
      rewrite (mapM_ext
                 (fun x => normalize_operation
                             (let '(method, operation) := x in
                              {| o_path := p; o_method := method;
                                 o_object := as_operation operation |}))
                 (fun '(method, operation) =>
                    endpoint_literal p method (as_operation operation)))
        by (intros [m v]; reflexivity).
      destruct (mapM _ (members item)) as [es|]; simpl; [|reflexivity].
      rewrite IH.
      destruct (mapM normalize_operation _); simpl; [|reflexivity].
      now rewrite app_assoc.
    - apply IH. }
  rewrite G. destruct (mapM normalize_operation _); reflexivity.
Qed.

Lemma parseParameters_is_ok (ps : list (or_ref ParameterObject)) :
  is_ok (parseParameters ps) = negb (existsb has_ref ps).
Proof.
  unfold parseParameters. rewrite mapM_is_ok.
  induction ps as [|[t|p] ps IH]; simpl; [reflexivity | reflexivity | exact IH].
Qed.

Lemma parseResponses_is_ok (rs : list (string * or_ref ResponseObject)) :
  is_ok (parseResponses rs) = negb (existsb (fun sr => has_ref (snd sr)) rs).
Proof.
  unfold parseResponses. rewrite mapM_is_ok.
  induction rs as [|[c [t|r]] rs IH]; simpl;
    [reflexivity | reflexivity | exact IH].
Qed.

Lemma parseParameters_throw ps e :
  parseParameters ps = Throw e ->
  e = Error "Parameter references not yet supported".
Proof.
  intros H. apply mapM_throw in H as ([t|p] & _ & H); simpl in H.
  - now injection H as <-.
  - discriminate.
Qed.

Lemma parseResponses_throw rs e :
  parseResponses rs = Throw e ->
  e = Error "Response references not yet supported".
Proof.
  intros H. apply mapM_throw in H as ([c [t|p]] & _ & H); simpl in H.
  - now injection H as <-.
  - discriminate.
Qed.

Lemma endpoint_literal_is_ok path method op :
  is_ok (endpoint_literal path method op) = negb (op_mentions_ref op).
Proof.
  unfold endpoint_literal, op_mentions_ref.
  rewrite negb_orb, <- parseParameters_is_ok, <- parseResponses_is_ok.
  destruct (parseParameters _); simpl; [|reflexivity].
  destruct (parseResponses _); reflexivity.
Qed.

Lemma endpoint_literal_throw path method op e :
  endpoint_literal path method op = Throw e -> unsupported_reference e.
Proof.
  unfold endpoint_literal, unsupported_reference.
  destruct (parseParameters _) as [ps|e1] eqn:Hp; simpl.
  - destruct (parseResponses _) as [rs|e2] eqn:Hr; simpl; [discriminate|].
    intros H; injection H as <-. right. eapply parseResponses_throw; eauto.
  - intros H; injection H as <-. left. eapply parseParameters_throw; eauto.
Qed.

Lemma endpoint_literal_fields (p m : string) (op : OperationObject)
      (e : ParsedEndpoint) :
  endpoint_literal p m op = Ok e ->
  path e = p
  /\ method e = toUpperCase m
  /\ operationId e = or_else (op_operationId op) (generateOperationId m p)
  /\ tags e = default (op_tags op) ["default"]
  /\ requestBody e = parseRequestBody (op_requestBody op).
Proof.
  unfold endpoint_literal.
  destruct (parseParameters _); simpl; [|discriminate].
  destruct (parseResponses _); simpl; [|discriminate].
  intros H; injection H as <-. repeat split.
Qed.

Lemma parseEndpoints_is_ok (spec : Document) :
  is_ok (parseEndpoints spec) = negb (doc_mentions_ref spec).
Proof.
  rewrite parseEndpoints_mapM, mapM_is_ok. unfold doc_mentions_ref.
  induction (operations spec) as [|o l IH]; simpl; [reflexivity|].
  unfold normalize_operation at 1.
  rewrite endpoint_literal_is_ok, IH. now rewrite negb_orb.
Qed.

(** Every descriptor of a successful parse is the literal built for the
    operation at the same position. *)
Lemma parseEndpoints_Forall2 (spec : Document) (eps : list ParsedEndpoint) :
  parseEndpoints spec = Ok eps ->
  Forall2 (fun o e => normalize_operation o = Ok e) (operations spec) eps.
Proof. rewrite parseEndpoints_mapM. apply mapM_ok_Forall2. Qed.

(* ------------------------------------------------------------------ *)
(** ** Synthesized operation ids *)

(** C2, as stated, fails: for the operation get of /pets, which declares
    no operationId, the descriptor carries the id getpets, not GETpets. *)
Lemma operationId_not_upper_cased :
  ~ (forall (spec : Document) (eps : list ParsedEndpoint),
        parseEndpoints spec = Ok eps ->
        Forall2 (fun o e =>
                   op_operationId (o_object o) = None ->
                   operationId e =
                   announced_operationId (o_method o) (o_path o))
                (operations spec) eps).
Proof.
  intros H.
  specialize (H get_pets [get_pets_endpoint] eq_refl).
  inversion H as [|o e os es Hhead _]; subst.
  specialize (Hhead eq_refl). discriminate Hhead.
Qed.

(** C2, amended.  An operation that declares no operationId gets the
    member name of the operation exactly as the path item spells it (it
    is not upper-cased, although the method member of the descriptor is),
    followed by the path without its non-alphanumeric characters. *)
Theorem generated_operationId (spec : Document) (eps : list ParsedEndpoint) :
  parseEndpoints spec = Ok eps ->
  Forall2 (fun o e =>
             op_operationId (o_object o) = None ->
             operationId e =
             (o_method o
              ++ replace_class (fun c => negb (isAlnum c)) (fun _ => "")
                               (o_path o))%string
             /\ method e = toUpperCase (o_method o))
          (operations spec) eps.
Proof.
  intros H. apply parseEndpoints_Forall2 in H.
  eapply Forall2_impl; [|exact H].
  intros o e Ho Hid. unfold normalize_operation in Ho.
  apply endpoint_literal_fields in Ho as (_ & Hm & Hop & _).
  rewrite Hop, Hid. split; [reflexivity | exact Hm].
Qed.

Lemma generated_operationId_witness :
  parseEndpoints get_pets = Ok [get_pets_endpoint]
  /\ operationId get_pets_endpoint = "getpets".
Proof.
  split; [reflexivity|].
  pose proof (generated_operationId get_pets [get_pets_endpoint] eq_refl) as H.
  inversion H as [|o e os es Hhead _]; subst.
  exact (proj1 (Hhead eq_refl)).
Defined.

(* ------------------------------------------------------------------ *)
(** ** References *)

(** C4.  If a parameter or a response of some operation of the document
    is a reference, parseEndpoints throws one of the two
    unsupported-reference errors, and so does the parse of the whole
    document: no IR is produced.  A request body that is a reference is
    normalized to undefined; it does not make the parse fail: when no
    parameter and no response is a reference the parse succeeds, and the
    descriptor of every operation whose request body is a reference has
    no requestBody. *)
Theorem reference_policy (spec : Document) :
  (doc_mentions_ref spec = true ->
   exists e, unsupported_reference e
             /\ parseEndpoints spec = Throw e
             /\ parse_document spec = Throw e)
  /\ (forall target, parseRequestBody (Some (Ref target)) = None)
  /\ (doc_mentions_ref spec = false ->
      exists eps,
        parseEndpoints spec = Ok eps
        /\ Forall2 (fun o e =>
                      forall target,
                        op_requestBody (o_object o) = Some (Ref target) ->
                        requestBody e = None)
                   (operations spec) eps).
Proof.
  split; [|split].
  - intros Href.
    pose proof (parseEndpoints_is_ok spec) as Hok. rewrite Href in Hok.
    apply is_ok_false in Hok as [e He].
    exists e. split; [|split].
    + rewrite parseEndpoints_mapM in He.
      apply mapM_throw in He as (o & _ & Ho).
      eapply endpoint_literal_throw; exact Ho.
    + exact He.
    + unfold parse_document. now rewrite He.
  - reflexivity.
  - intros Href.
    pose proof (parseEndpoints_is_ok spec) as Hok. rewrite Href in Hok.
    apply is_ok_true in Hok as [eps Heps].
    exists eps. split; [exact Heps|].
    apply parseEndpoints_Forall2 in Heps.
    eapply Forall2_impl; [|exact Heps].
    intros o e Ho target Hbody. unfold normalize_operation in Ho.
    apply endpoint_literal_fields in Ho as (_ & _ & _ & _ & Hrb).
    now rewrite Hrb, Hbody.
Qed.

Lemma reference_policy_witness :
  (exists e, unsupported_reference e
             /\ parseEndpoints ref_parameter_doc = Throw e
             /\ parse_document ref_parameter_doc = Throw e)
  /\ (exists eps,
         parseEndpoints ref_body_doc = Ok eps
         /\ Forall2 (fun o e =>
                       forall target,
                         op_requestBody (o_object o) = Some (Ref target) ->
                         requestBody e = None)
                    (operations ref_body_doc) eps).
Proof.
  split.
  - apply (proj1 (reference_policy ref_parameter_doc)). reflexivity.
  - apply (proj2 (proj2 (reference_policy ref_body_doc))). reflexivity.
Defined.

(* ------------------------------------------------------------------ *)
(** ** One descriptor per operation, in document order *)

(** C6.  The document whose only path item has a summary and one
    operation, get, has no referenced parameter or response and
    declares one operation; its parse yields two descriptors, the first
    of them built from the summary member, with method SUMMARY. *)
Theorem summary_member_yields_a_descriptor :
  doc_mentions_ref summary_doc = false
  /\ map (fun o => (o_method o, o_path o)) (declared_operations summary_doc)
     = [ ("get", "/pets") ]
  /\ parseEndpoints summary_doc =
     Ok [ {| path := "/pets"; method := "SUMMARY";
             operationId := "summarypets";
             summary := None; description := None; tags := ["default"];
             parameters := []; requestBody := None; responses := [] |};
          get_pets_endpoint ].
Proof. split; [|split]; reflexivity. Qed.

Lemma is_method_not_parameters (name : string) :
  is_method name = true -> String.eqb name "parameters" = false.
Proof.
  destruct (String.eqb_spec name "parameters") as [->|_];
    [discriminate | reflexivity].
Qed.

Lemma members_plain (item : PathItemObject) :
  forallb plain_member item = true -> members item = declared item.
Proof.
  unfold members, declared.
  induction item as [|[m v] item IH]; simpl; [reflexivity|].
  intros H. apply andb_prop in H as [Hkv Hitem].
  rewrite (IH Hitem). clear IH Hitem.
  unfold plain_member in Hkv. simpl in Hkv.
  destruct (is_method m) eqn:Hm.
  - rewrite (is_method_not_parameters m Hm) in *. simpl in *.
    destruct v; simpl in *; try discriminate; reflexivity.
  - simpl in *. rewrite orb_false_r in Hkv. rewrite Hkv. reflexivity.
Qed.

Lemma operations_plain (spec : Document) :
  plain_path_items spec = true -> operations spec = declared_operations spec.
Proof.
  unfold plain_path_items, operations, declared_operations.
  induction (default (doc_paths spec) []) as [|[p item] l IH]; simpl;
    [reflexivity|].
  intros H. apply andb_prop in H as [Hitem Hl].
  rewrite (IH Hl). destruct item as [item|]; [|reflexivity].
  now rewrite (members_plain item Hitem).
Qed.

(** X25.  In a document whose path items hold nothing but operations
    under their HTTP methods and [parameters] members, and where no
    parameter and no response of a declared operation is a reference,
    the parse succeeds and the IR lists exactly one descriptor per
    declared operation, at the position of that operation in the
    document: the i-th descriptor has the path of the i-th operation,
    its method (in upper case), its operationId when it declares a
    non-empty one, and its summary and description. *)
Theorem one_descriptor_per_declared_operation (spec : Document) :
  plain_path_items spec = true ->
  existsb (fun o => op_mentions_ref (o_object o)) (declared_operations spec)
  = false ->
  exists eps,
    parseEndpoints spec = Ok eps
    /\ parse_document spec =
       Ok {| endpoints := eps; schemas := parseSchemas spec;
             info := doc_info spec |}
    /\ List.length eps = List.length (declared_operations spec)
    /\ Forall2 (fun o e =>
                  path e = o_path o
                  /\ method e = toUpperCase (o_method o)
                  /\ operationId e =
                     or_else (op_operationId (o_object o))
                             (generateOperationId (o_method o) (o_path o))
                  /\ summary e = op_summary (o_object o)
                  /\ description e = op_description (o_object o))
               (declared_operations spec) eps.
Proof.
  intros Hplain Href. rewrite <- (operations_plain spec Hplain) in *.
  pose proof (parseEndpoints_is_ok spec) as Hok.
  unfold doc_mentions_ref in Hok. rewrite Href in Hok.
  apply is_ok_true in Hok as [eps Heps].
  exists eps. split; [exact Heps|]. split.
  { unfold parse_document. now rewrite Heps. }
  apply parseEndpoints_Forall2 in Heps.
  split; [symmetry; eapply Forall2_length; exact Heps|].
  eapply Forall2_impl; [|exact Heps].
  intros o e Ho. unfold normalize_operation in Ho.
  unfold endpoint_literal in Ho.
  destruct (parseParameters _); [|discriminate].
  destruct (parseResponses _); [|discriminate].
  simpl in Ho. injection Ho as <-. simpl. repeat split.
Qed.

Lemma one_descriptor_per_declared_operation_witness :
  exists eps,
    parseEndpoints three_operations = Ok eps
    /\ map (fun e => (method e, path e)) eps =
       [ ("POST", "/pets"); ("GET", "/pets"); ("GET", "/owners") ].
Proof.
  destruct (one_descriptor_per_declared_operation three_operations)
    as (eps & Heps & _ & _ & Hall); [reflexivity | reflexivity |].
  exists eps. split; [exact Heps|].
  simpl in Hall.
  inversion Hall as [|? e1 ? l1 (Hp1 & Hm1 & _) Hall1]; subst.
  inversion Hall1 as [|? e2 ? l2 (Hp2 & Hm2 & _) Hall2]; subst.
  inversion Hall2 as [|? e3 ? l3 (Hp3 & Hm3 & _) Hall3]; subst.
  inversion Hall3; subst. simpl.
  now rewrite Hp1, Hm1, Hp2, Hm2, Hp3, Hm3.
Defined.

Example three_operations_order :
  option_map (map (fun e => (method e, path e)))
             (match parseEndpoints three_operations with
              | Ok eps => Some eps
              | Throw _ => None
              end) =
  Some [ ("POST", "/pets"); ("GET", "/pets"); ("GET", "/owners") ].
Proof. reflexivity. Qed.

(* ================================================================== *)
(** * Properties of the tag partitioner *)
(* ================================================================== *)

Section GroupFacts.

Implicit Types (g : Groups) (k tag : string) (v es : list ParsedEndpoint).

Lemma get_set g k v tag :
  get (set g k v) tag = if String.eqb k tag then Some v else get g tag.
Proof.
  induction g as [|[k' v'] g IH]; simpl.
  - reflexivity.
  - destruct (String.eqb_spec k' k) as [->|Hk]; simpl.
    + destruct (String.eqb k tag); reflexivity.
    + rewrite IH. destruct (String.eqb_spec k' tag) as [->|_]; [|reflexivity].
      destruct (String.eqb_spec k tag) as [->|_]; [now elim Hk | reflexivity].
Qed.

Lemma set_set g k v v' : set (set g k v) k v' = set g k v'.
Proof.
  induction g as [|[k' w] g IH]; simpl.
  - now rewrite String.eqb_refl.
  - destruct (String.eqb k' k) eqn:E; simpl; rewrite E; [reflexivity|].
    now rewrite IH.
Qed.

Lemma get_none_keys g k : get g k = None -> ~ In k (map fst g).
Proof.
  induction g as [|[k' w] g IH]; simpl; [tauto|].
  destruct (String.eqb_spec k' k) as [->|Hk]; [discriminate|].
  intros H [Heq|Hin]; [now elim Hk | now apply IH].
Qed.

Lemma keys_set g k v :
  map fst (set g k v) =
  match get g k with
  | Some _ => map fst g
  | None => map fst g ++ [k]
  end.
Proof.
  induction g as [|[k' w] g IH]; simpl; [reflexivity|].
  destruct (String.eqb k' k); simpl; [reflexivity|].
  rewrite IH. destruct (get g k); reflexivity.
Qed.

Lemma total_set g k v :
  total (set g k v) + List.length (default (get g k) [])
  = total g + List.length v.
Proof.
  unfold total. induction g as [|[k' w] g IH]; simpl.
  - rewrite app_nil_r. lia.
  - destruct (String.eqb k' k); simpl; rewrite !length_app; [lia|].
    lia.
Qed.

Lemma In_get g k v : NoDup (map fst g) -> In (k, v) g -> get g k = Some v.
Proof.
  induction g as [|[k' w] g IH]; simpl; [tauto|].
  intros Hnd [Heq|Hin].
  - injection Heq as -> ->. now rewrite String.eqb_refl.
  - inversion Hnd as [|? ? Hk' Hnd']; subst.
    destruct (String.eqb_spec k' k) as [->|_]; [|now apply IH].
    elim Hk'. change k with (fst (k, v)). now apply in_map.
Qed.

Lemma get_In g k v : get g k = Some v -> In (k, v) g.
Proof.
  induction g as [|[k' w] g IH]; simpl; [discriminate|].
  destruct (String.eqb_spec k' k) as [->|_].
  - intros H; injection H as ->. now left.
  - intros H. right. now apply IH.
Qed.

Lemma get_key g k v : get g k = Some v -> In k (map fst g).
Proof.
  intros H. apply get_In in H. change k with (fst (k, v)). now apply in_map.
Qed.

(** Under a tag that is not inherited, the two statements of the
    callback amount to one assignment. *)
Lemma group_step_own g (e : ParsedEndpoint) :
  inherited (first_tag e) = false ->
  group_step g e =
  Ok (set g (first_tag e) (default (get g (first_tag e)) [] ++ [e])).
Proof.
  intros Hin. unfold group_step, lookup.
  destruct (get g (first_tag e)) eqn:E.
  - now rewrite E.
  - rewrite Hin, get_set, String.eqb_refl, set_set. reflexivity.
Qed.

(** Under an inherited tag the guard finds a truthy member and the push
    fails. *)
Lemma group_step_inherited g (e : ParsedEndpoint) :
  get g (first_tag e) = None -> inherited (first_tag e) = true ->
  group_step g e = Throw not_a_function.
Proof.
  intros Hget Hin. unfold group_step, lookup. rewrite Hget, Hin.
  cbv zeta. now rewrite Hget.
Qed.

Lemma group_step_inv g (e : ParsedEndpoint) g' :
  group_step g e = Ok g' ->
  g' = set g (first_tag e) (default (get g (first_tag e)) [] ++ [e]).
Proof.
  destruct (inherited (first_tag e)) eqn:Hin.
  - destruct (get g (first_tag e)) eqn:E.
    + unfold group_step, lookup. rewrite E, E. simpl. congruence.
    + now rewrite (group_step_inherited g e E Hin).
  - rewrite (group_step_own g e Hin). congruence.
Qed.

Lemma group_of_snoc tag (eps : list ParsedEndpoint) (e : ParsedEndpoint) :
  group_of tag (eps ++ [e]) =
  group_of tag eps ++ (if String.eqb (first_tag e) tag then [e] else []).
Proof. unfold group_of. rewrite filter_app. reflexivity. Qed.

Lemma default_nonempty {A} (l : list A) : default (nonempty l) [] = l.
Proof. destruct l; reflexivity. Qed.

Lemma nonempty_snoc {A} (l : list A) (x : A) :
  nonempty (l ++ [x]) = Some (l ++ [x]).
Proof. destruct l; reflexivity. Qed.

Lemma partitions_nil : partitions [] [].
Proof. repeat split. constructor. Qed.

Lemma partitions_step g g' (eps : list ParsedEndpoint) (e : ParsedEndpoint) :
  partitions g eps -> group_step g e = Ok g' -> partitions g' (eps ++ [e]).
Proof.
  intros (Hnd & Hget & Htot) Hstep. apply group_step_inv in Hstep as ->.
  set (t := first_tag e). split; [|split].
  - rewrite keys_set. destruct (get g t) eqn:E; [exact Hnd|].
    apply NoDup_app; [exact Hnd | repeat constructor; simpl; tauto |].
    intros x Hx [Heq|[]]. rewrite <- Heq in Hx. now apply (get_none_keys g t).
  - intros tag. rewrite get_set, group_of_snoc. fold t.
    destruct (String.eqb_spec t tag) as [<-|_].
    + now rewrite Hget, default_nonempty, nonempty_snoc.
    + now rewrite app_nil_r.
  - pose proof (total_set g t (default (get g t) [] ++ [e])) as H.
    rewrite !length_app in *. simpl in *. lia.
Qed.

Lemma partitions_fold (eps : list ParsedEndpoint) g g'
      (seen : list ParsedEndpoint) :
  partitions g seen ->
  forEach group_step eps g = Ok g' ->
  partitions g' (seen ++ eps).
Proof.
  revert g seen; induction eps as [|e eps IH]; intros g seen H; simpl.
  - intros Heq; injection Heq as <-. now rewrite app_nil_r.
  - destruct (group_step g e) as [g1|] eqn:E; simpl; [|discriminate].
    intros Hrest.
    replace (seen ++ e :: eps) with ((seen ++ [e]) ++ eps)
      by now rewrite <- app_assoc.
    apply (IH g1); [|exact Hrest]. now apply (partitions_step g).
Qed.

Lemma grouping_partitions (eps : list ParsedEndpoint) g :
  getEndpointsByTag eps = Ok g -> partitions g eps.
Proof. intros H. exact (partitions_fold eps [] g [] partitions_nil H). Qed.

(** The reduce returns exactly when no first tag is inherited. *)
Lemma forEach_group_step_is_ok (eps : list ParsedEndpoint) g :
  Forall (fun k => inherited k = false) (map fst g) ->
  is_ok (forEach group_step eps g) = own_tags eps.
Proof.
  revert g; induction eps as [|e eps IH]; intros g Hkeys; simpl;
    [reflexivity|].
  destruct (inherited (first_tag e)) eqn:Hin; simpl.
  - rewrite group_step_inherited; [reflexivity | | exact Hin].
    destruct (get g (first_tag e)) eqn:E; [|reflexivity].
    apply get_key in E. rewrite Forall_forall in Hkeys.
    apply Hkeys in E. congruence.
  - rewrite (group_step_own g e Hin). simpl. apply IH.
    rewrite keys_set. destruct (get g (first_tag e)); [exact Hkeys|].
    apply Forall_app. split; [exact Hkeys|]. now constructor.
Qed.

Lemma grouping_is_ok (eps : list ParsedEndpoint) :
  is_ok (getEndpointsByTag eps) = own_tags eps.
Proof. apply forEach_group_step_is_ok. constructor. Qed.

Lemma grouping_returns (eps : list ParsedEndpoint) :
  own_tags eps = true -> exists g, getEndpointsByTag eps = Ok g.
Proof.
  intros H. rewrite <- grouping_is_ok in H.
  destruct (getEndpointsByTag eps) as [g|]; [now exists g | discriminate].
Qed.

End GroupFacts.

(** C7.  An endpoint whose first tag names a member that every object
    inherits (constructor, toString, __proto__, ...) is assigned to no
    group: at that endpoint the reduce throws a TypeError, whether it is
    the only endpoint of the list or comes after endpoints that have
    been grouped, and no groups are returned. *)
Theorem getEndpointsByTag_inherited_tag :
  first_tag (tagged "a" ["constructor"]) = "constructor"
  /\ getEndpointsByTag [tagged "a" ["constructor"]] = Throw not_a_function
  /\ getEndpointsByTag [tagged "a" ["__proto__"]] = Throw not_a_function
  /\ getEndpointsByTag
       [tagged "a" ["pets"]; tagged "b" ["toString"]; tagged "c" ["pets"]]
     = Throw not_a_function
  /\ not_a_function = TypeError "acc[tag].push is not a function".
Proof. repeat split. Qed.

(** X26.  The reduce returns exactly when no first tag names an
    inherited member.  When it returns, the groups have distinct keys;
    the group under a key is not empty and holds exactly the endpoints
    whose first tag (tags[0], or default when there is none or it is
    empty) is that key, in the order of the input list; every endpoint
    of the input is in the group of its first tag, hence in no other;
    and the groups hold as many endpoints as the input, so none is
    dropped or repeated. *)
Theorem grouping_is_stable (eps : list ParsedEndpoint) :
  is_ok (getEndpointsByTag eps) = own_tags eps
  /\ (own_tags eps = true ->
      exists g,
        getEndpointsByTag eps = Ok g
        /\ NoDup (map fst g)
        /\ (forall tag es,
               In (tag, es) g ->
               es <> []
               /\ es = filter (fun e => String.eqb (first_tag e) tag) eps)
        /\ (forall e,
               In e eps -> exists es, In (first_tag e, es) g /\ In e es)
        /\ List.length (concat (map snd g)) = List.length eps).
Proof.
  split; [apply grouping_is_ok|].
  intros Hown. destruct (grouping_returns eps Hown) as [g Hg].
  exists g. split; [exact Hg|].
  destruct (grouping_partitions eps g Hg) as (Hnd & Hget & Htot).
  split; [exact Hnd|]. split; [|split].
  - intros tag es Hin. apply (In_get _ _ _ Hnd) in Hin.
    rewrite Hget in Hin. unfold group_of in Hin.
    destruct (filter _ eps) as [|x l] eqn:E; simpl in Hin; [discriminate|].
    injection Hin as <-. split; [discriminate | reflexivity].
  - intros e He.
    assert (Hin : In e (group_of (first_tag e) eps)).
    { unfold group_of. apply filter_In. split; [exact He|].
      apply String.eqb_refl. }
    exists (group_of (first_tag e) eps). split; [|exact Hin].
    apply get_In. rewrite Hget.
    destruct (group_of (first_tag e) eps); [destruct Hin | reflexivity].
  - exact Htot.
Qed.

Example five_endpoints_groups :
  getEndpointsByTag five_endpoints =
  Ok [ ("pets", [tagged "a" ["pets"; "admin"]; tagged "d" ["pets"]]);
       ("owners", [tagged "b" ["owners"]]);
       ("default", [tagged "c" []; tagged "e" [""]]) ].
Proof. reflexivity. Qed.

(* ================================================================== *)
(** * Properties of the action *)
(* ================================================================== *)

Section MonadFacts.

Context {A B : Type}.

Lemma appends_ret (a : A) : appends (mret a).
Proof. intros w. exists []. simpl. now rewrite app_nil_r. Qed.

Lemma appends_throw (e : error) : appends (@throw A e).
Proof. intros w. exists []. simpl. now rewrite app_nil_r. Qed.

Lemma appends_lift (r : result A) : appends (lift r).
Proof. intros w. exists []. simpl. now rewrite app_nil_r. Qed.

Lemma appends_bind (m : M A) (k : A -> M B) :
  appends m -> (forall a, appends (k a)) -> appends (mbind m k).
Proof.
  intros Hm Hk w. unfold mbind.
  destruct (Hm w) as [es1 H1]. destruct (m w) as [[a|e] w1]; simpl in *.
  - destruct (Hk a w1) as [es2 H2]. exists (es1 ++ es2).
    now rewrite H2, H1, app_assoc.
  - now exists es1.
Qed.


End MonadFacts.

Lemma appends_forM {A} (f : A -> M unit) (l : list A) :
  Forall (fun x => appends (f x)) l -> appends (forM_ f l).
Proof.
  induction 1 as [|x l Hx _ IH]; simpl.
  - apply appends_ret.
  - apply appends_bind; [exact Hx | intros _; exact IH].
Qed.


Lemma appends_ensureDirSync p : appends (ensureDirSync p).
Proof. intros w. now exists [EnsureDir p]. Qed.

Lemma appends_writeFileSync p c : appends (writeFileSync p c).
Proof. intros w. now exists [WriteFile p c]. Qed.

Lemma appends_copySync s d c : appends (copySync s d c).
Proof. intros w. now exists [CopyFile s d]. Qed.

Lemma returns_ensureDirSync p : returns (ensureDirSync p) tt [EnsureDir p].
Proof. intros w. eexists. split; reflexivity. Qed.

Lemma returns_writeFileSync p c :
  returns (writeFileSync p c) tt [WriteFile p c].
Proof. intros w. eexists. split; reflexivity. Qed.

Lemma returns_copySync s d c : returns (copySync s d c) tt [CopyFile s d].
Proof. intros w. eexists. split; reflexivity. Qed.


Lemma returns_appends {A} (m : M A) a es : returns m a es -> appends m.
Proof. intros H w. destruct (H w) as (w' & -> & Ht). now exists es. Qed.

Create HintDb io.
#[local] Hint Resolve appends_ret appends_throw appends_lift
  appends_ensureDirSync appends_writeFileSync appends_copySync : io.

Lemma appends_walk_entry (h : Host) (data : TemplateData) (e : entry) :
  forall src dest, appends (walk_entry h src dest data e).
Proof.
  induction e as [name tpl | name children IH] using entry_induction;
    intros src dest; simpl.
  - destruct (endsWith ".hbs" name); [|auto with io].
    apply appends_bind; auto with io.
  - apply appends_bind; [auto with io | intros _].
    apply appends_forM.
    eapply Forall_impl; [|exact IH]. intros c Hc. apply Hc.
Qed.

Lemma appends_walk h src dest data listing :
  appends (walk h src dest data listing).
Proof.
  apply appends_forM. apply Forall_forall. intros e _.
  apply appends_walk_entry.
Qed.

Lemma appends_generateRoutes h t eps : appends (generateRoutes h t eps).
Proof.
  apply appends_bind; [auto with io | intros groups].
  apply appends_forM. apply Forall_forall. intros [tag es] _.
  apply appends_bind; [auto with io | intros _].
  apply appends_bind; auto with io.
Qed.

Lemma appends_generateHandlers h t eps : appends (generateHandlers h t eps).
Proof.
  apply appends_bind; [auto with io | intros groups].
  apply appends_forM. apply Forall_forall. intros [tag es] _.
  apply appends_bind; [auto with io | intros _].
  apply appends_bind; auto with io.
Qed.

Lemma appends_generateSchema h t ss db : appends (generateSchema h t ss db).
Proof.
  destruct ss; simpl; [auto with io|].
  apply appends_bind; auto with io.
Qed.

Lemma appends_emit h appName opts target ir :
  appends (emit h appName opts target ir).
Proof.
  unfold emit.
  apply appends_bind; [auto with io | intros _].
  apply appends_bind; [simpl; apply appends_walk | intros _].
  apply appends_bind; [apply appends_generateRoutes | intros _].
  apply appends_bind; [apply appends_generateHandlers | intros _].
  apply appends_generateSchema.
Qed.

(** The parse reads the spec file and does nothing else. *)
Lemma parseOpenAPISpec_trace h specPath w r w1 :
  parseOpenAPISpec h specPath w = (r, w1) ->
  trace w1 = trace w ++ [ReadFile specPath].
Proof.
  unfold parseOpenAPISpec, loadOpenAPISpec, mbind, readFileSync, lift.
  destruct (find_node (fs w) specPath) as [[content|]|].
  - destruct (endsWith ".yaml" specPath || endsWith ".yml" specPath).
    + destruct (yaml_load h content); intros H; injection H as _ <-;
        reflexivity.
    + destruct (JSON_parse h content); intros H; injection H as _ <-;
        reflexivity.
  - intros H; injection H as _ <-. reflexivity.
  - intros H; injection H as _ <-. reflexivity.
Qed.

Lemma parseOpenAPISpec_missing h specPath w :
  find_node (fs w) specPath = None ->
  exists e w1, parseOpenAPISpec h specPath w = (Throw e, w1).
Proof.
  intros H.
  unfold parseOpenAPISpec, loadOpenAPISpec, mbind, readFileSync.
  rewrite H. eauto.
Qed.

Ltac run := cbv beta delta [mbind lift existsSync throw mret] iota; simpl.
Ltac run_to H := run; rewrite H; simpl.

Lemma action_course h appName opts files : course h appName opts files.
Proof.
  destruct (validateAppName appName) as [[]|e] eqn:Hname.
  2:{ eapply Refused. unfold action_try. run_to Hname. reflexivity. }
  destruct (find_node files (join (cwd h) appName)) as [n|] eqn:Hfree.
  { eapply Refused. unfold action_try.
    run_to Hname. run_to Hfree. reflexivity. }
  destruct (spec opts) as [specPath|] eqn:Hspec.
  2:{ apply Idle; [now rewrite Hspec|]. unfold action_try.
      run_to Hname. run_to Hfree. run_to Hspec. reflexivity. }
  destruct (truthy specPath) eqn:Htruthy.
  2:{ apply Idle; [now rewrite Hspec|]. unfold action_try.
      run_to Hname. run_to Hfree. run_to Hspec. run_to Htruthy.
      reflexivity. }
  destruct (find_node files specPath) as [n|] eqn:Hfound.
  - apply (Parsing h appName opts files specPath); auto.
    unfold action_try.
    run_to Hname. run_to Hfree. run_to Hspec. run_to Htruthy.
    run_to Hfound.
    destruct (parseOpenAPISpec h specPath (boot files)) as [[ir|e] w1];
      reflexivity.
  - eapply Refused. unfold action_try.
    run_to Hname. run_to Hfree. run_to Hspec. run_to Htruthy.
    run_to Hfound. reflexivity.
Qed.

(** When the parse throws, the run exits with status 1 and its trace
    holds no output. *)
Lemma failed_parse_aborts h appName opts files specPath e w1 :
  spec opts = Some specPath -> truthy specPath = true ->
  parseOpenAPISpec h specPath (boot files) = (Throw e, w1) ->
  (exists msg, fst (action h appName opts (boot files)) = Exit 1 msg)
  /\ no_output (trace (snd (action h appName opts (boot files)))) = true.
Proof.
  intros Hspec Htruthy Hparse. unfold action.
  destruct (action_course h appName opts files)
    as [e' Hrun | Hidle Hrun | sp Hs _ _ _ Hrun].
  - rewrite Hrun. simpl. eauto.
  - rewrite Hspec, Htruthy in Hidle. discriminate.
  - rewrite Hspec in Hs. injection Hs as <-.
    rewrite Hrun, Hparse. simpl. split; [eauto|].
    apply parseOpenAPISpec_trace in Hparse. now rewrite Hparse.
Qed.

(** C5.  In a run started on a fresh process:
    (1) whatever output event (a directory ensured, a file written or
        copied) occurs in the trace, the spec was parsed successfully
        before it: the events of the successful parse are a prefix of
        what precedes the output;
    (2) if the parse throws, the run exits with status 1 and no output
        event occurs at all;
    (3) this is so in particular when the loaded document has a
        parameter or a response that is a reference;
    (4) if the target directory exists already, the run exits with
        status 1 and its trace is empty: the spec file was not even
        read. *)
Theorem no_output_before_normalization
        (h : Host) (appName : string) (opts : Options)
        (files : list (string * node)) :
  (forall pre e post,
      trace (snd (action h appName opts (boot files))) = pre ++ e :: post ->
      is_output e = true ->
      exists specPath ir w1 rest,
        spec opts = Some specPath
        /\ parseOpenAPISpec h specPath (boot files) = (Ok ir, w1)
        /\ pre = trace w1 ++ rest)
  /\ (forall specPath e w1,
         spec opts = Some specPath -> truthy specPath = true ->
         parseOpenAPISpec h specPath (boot files) = (Throw e, w1) ->
         (exists msg, fst (action h appName opts (boot files)) = Exit 1 msg)
         /\ no_output (trace (snd (action h appName opts (boot files))))
            = true)
  /\ (forall specPath doc w1,
         spec opts = Some specPath -> truthy specPath = true ->
         loadOpenAPISpec h specPath (boot files) = (Ok doc, w1) ->
         doc_mentions_ref doc = true ->
         (exists msg, fst (action h appName opts (boot files)) = Exit 1 msg)
         /\ no_output (trace (snd (action h appName opts (boot files))))
            = true)
  /\ (find_node files (join (cwd h) appName) <> None ->
      (exists msg, fst (action h appName opts (boot files)) = Exit 1 msg)
      /\ trace (snd (action h appName opts (boot files))) = []).
Proof.
  split; [|split; [|split]].
  - intros pre e post Htrace Hout. unfold action in Htrace.
    destruct (action_course h appName opts files)
      as [e' Hrun | Hidle Hrun | sp Hs _ _ _ Hrun].
    + rewrite Hrun in Htrace. simpl in Htrace.
      now destruct pre.
    + rewrite Hrun in Htrace. simpl in Htrace. now destruct pre.
    + rewrite Hrun in Htrace.
      destruct (parseOpenAPISpec h sp (boot files)) as [[ir|e'] w1] eqn:Hp.
      * pose proof (parseOpenAPISpec_trace _ _ _ _ _ Hp) as Hw1.
        simpl in Hw1.
        destruct (appends_emit h appName opts (join (cwd h) appName) ir w1)
          as [es Hes].
        assert (Hall : pre ++ e :: post = ReadFile sp :: es).
        { rewrite <- Htrace.
          destruct (emit h appName opts (join (cwd h) appName) ir w1)
            as [[[]|e''] w2]; simpl in *; now rewrite Hes, Hw1. }
        destruct pre as [|e0 pre'].
        { simpl in Hall. injection Hall as -> _. discriminate Hout. }
        injection Hall as -> _.
        exists sp, ir, w1, pre'. now rewrite Hw1.
      * simpl in Htrace. apply parseOpenAPISpec_trace in Hp.
        simpl in Hp. rewrite Hp in Htrace.
        destruct pre as [|e0 [|e1 pre']]; simpl in Htrace.
        -- injection Htrace as <-. discriminate Hout.
        -- discriminate Htrace.
        -- discriminate Htrace.
  - intros specPath e w1. apply failed_parse_aborts.
  - intros specPath doc w1 Hspec Htruthy Hload Href.
    pose proof (parseEndpoints_is_ok doc) as Hok. rewrite Href in Hok.
    apply is_ok_false in Hok as [e He].
    apply (failed_parse_aborts h appName opts files specPath e w1);
      auto.
    unfold parseOpenAPISpec, mbind. rewrite Hload.
    unfold lift, parse_document. now rewrite He.
  - intros Htaken. unfold action.
    destruct (action_course h appName opts files)
      as [e' Hrun | Hidle Hrun | sp _ _ _ Hfree Hrun].
    + rewrite Hrun. simpl. eauto.
    + exfalso. revert Hrun. unfold action_try.
      destruct (validateAppName appName) as [[]|e] eqn:Hname.
      * run.
        destruct (find_node files (join (cwd h) appName)) eqn:Hfree;
          [discriminate | now elim Htaken].
      * run. discriminate.
    + now elim Htaken.
Qed.

Lemma no_output_before_normalization_witness :
  ((exists msg,
       fst (action demo_host "shop" (with_spec "refs.json") (boot demo_files))
       = Exit 1 msg)
   /\ no_output
        (trace (snd (action demo_host "shop" (with_spec "refs.json")
                            (boot demo_files)))) = true)
  /\ ((exists msg,
          fst (action demo_host "taken" (with_spec "pets.json")
                      (boot demo_files)) = Exit 1 msg)
      /\ trace (snd (action demo_host "taken" (with_spec "pets.json")
                            (boot demo_files))) = []).
Proof.
  split.
  - destruct (no_output_before_normalization
                demo_host "shop" (with_spec "refs.json") demo_files)
      as (_ & _ & H & _).
    apply (H "refs.json" ref_parameter_doc
             (log (ReadFile "refs.json") (boot demo_files)));
      reflexivity.
  - destruct (no_output_before_normalization
                demo_host "taken" (with_spec "pets.json") demo_files)
      as (_ & _ & _ & H).
    apply H. discriminate.
Defined.

Example refs_run :
  action demo_host "shop" (with_spec "refs.json") (boot demo_files) =
  (Exit 1 "Parameter references not yet supported",
   {| fs := demo_files; trace := [ReadFile "refs.json"] |}).
Proof. reflexivity. Qed.

(* ------------------------------------------------------------------ *)
(** ** A spec without endpoints *)

(** The guard on templateData.endpoints never takes its else branch:
    the member is an array whenever the parse has returned. *)
Lemma endpoints_guard_is_vacuous h appName opts target ir :
  emit h appName opts target ir =
  (ensureDirSync target ;;;
   walk h (tplRoot h) target (templateData appName opts ir) (scaffold h) ;;;
   generateRoutes h target (endpoints ir) ;;;
   generateHandlers h target (endpoints ir) ;;;
   generateSchema h target (schemas ir) (database opts))%io.
Proof. reflexivity. Qed.

(** C1.  On the document whose paths object is empty the IR has no
    endpoint, and yet the run completes: the target directory is created
    and the scaffold is written into it. *)
Theorem run_without_endpoints_completes :
  parse_document no_paths =
  Ok {| endpoints := []; schemas := []; info := petstore_info |}
  /\ fst (action demo_host "shop" (with_spec "empty.json") (boot demo_files))
     = Completed
  /\ trace (snd (action demo_host "shop" (with_spec "empty.json")
                        (boot demo_files))) =
     [ ReadFile "empty.json";
       EnsureDir "/home/dev/shop";
       WriteFile "/home/dev/shop/package.json" "{ name: {{name}} }";
       EnsureDir "/home/dev/shop/src";
       CopyFile "/opt/cli/templates/app/src/app.ts" "/home/dev/shop/src/app.ts";
       EnsureDir "/home/dev/shop/src/db";
       CopyFile "/opt/cli/templates/app/src/db/index.ts"
                "/home/dev/shop/src/db/index.ts" ].
Proof. repeat split. Qed.

(* ------------------------------------------------------------------ *)
(** ** A spec without object schemas *)

Lemma render_ok h t c : renders h -> render h t c = Ok (rendered h t c).
Proof.
  intros H. specialize (H t c). unfold rendered.
  destruct (render h t c); [reflexivity | discriminate].
Qed.








Lemma In_insert_index {V} (n : N) (kv : string * V) sorted x :
  In x (insert_index n kv sorted) <-> x = (n, kv) \/ In x sorted.
Proof.
  induction sorted as [|[m kv'] r IH]; simpl.
  - intuition congruence.
  - destruct (n <? m)%N; simpl; [intuition congruence|].
    rewrite IH. intuition congruence.
Qed.

Lemma In_index_entries {V} (own : list (string * V)) n kv :
  In (n, kv) (index_entries own) <->
  In kv own /\ array_index (fst kv) = Some n.
Proof.
  unfold index_entries. induction own as [|kv' own IH]; simpl.
  - tauto.
  - destruct (array_index (fst kv')) as [m|] eqn:E.
    + rewrite In_insert_index, IH. split.
      * intros [Heq|[Hin Hidx]]; [|tauto].
        injection Heq as -> ->. tauto.
      * intros [[->|Hin] Hidx]; [|tauto].
        left. congruence.
    + rewrite IH. split; [tauto|].
      intros [[->|Hin] Hidx]; [congruence | tauto].
Qed.

(** Object.entries enumerates the own entries, and nothing else. *)
Lemma In_entries {V} (own : list (string * V)) kv :
  In kv (entries own) <-> In kv own.
Proof.
  unfold entries. rewrite in_app_iff, in_map_iff, filter_In. split.
  - intros [([n kv'] & Heq & Hin)|[Hin _]]; [|exact Hin].
    simpl in Heq. subst kv'. now apply In_index_entries in Hin.
  - intros Hin. destruct (array_index (fst kv)) as [n|] eqn:E.
    + left. exists (n, kv). split; [reflexivity|].
      now apply In_index_entries.
    + right. now split.
Qed.

Lemma index_entries_plain {V} (own : list (string * V)) :
  no_index_key own = true -> index_entries own = [].
Proof.
  unfold index_entries, no_index_key.
  induction own as [|kv own IH]; simpl; [reflexivity|].
  destruct (array_index (fst kv)); simpl; [discriminate | exact IH].
Qed.

Lemma entries_plain {V} (own : list (string * V)) :
  no_index_key own = true -> entries own = own.
Proof.
  intros H. unfold entries. rewrite (index_entries_plain own H). simpl.
  unfold no_index_key in H.
  induction own as [|kv own IH]; simpl in *; [reflexivity|].
  destruct (array_index (fst kv)); simpl in *; [discriminate|].
  now rewrite IH.
Qed.





Lemma under_target (t a b : string) :
  a <> b -> (t ++ a)%string <> (t ++ b)%string.
Proof. intros Hab H. apply Hab. eapply append_inv_head, H. Qed.

Lemma routesDir_not_schemaPath t : routesDir t <> schemaPath t.
Proof.
  unfold routesDir, schemaPath, join. rewrite !append_assoc.
  apply under_target. discriminate.
Qed.

Lemma routesFile_not_schemaPath t tag : routesFile t tag <> schemaPath t.
Proof.
  unfold routesFile, routesDir, schemaPath, join. rewrite !append_assoc.
  apply under_target. discriminate.
Qed.

Lemma handlersFile_not_schemaPath t tag : handlersFile t tag <> schemaPath t.
Proof.
  unfold handlersFile, routesDir, schemaPath, join. rewrite !append_assoc.
  apply under_target. discriminate.
Qed.

Lemma routes_events_destination h t eps e :
  In e (routes_events h t eps) -> destination e <> Some (schemaPath t).
Proof.
  unfold routes_events. intros H. apply in_flat_map in H as ([tag es] & _ & H).
  destruct H as [<-|[<-|[]]]; simpl; intros Heq; injection Heq.
  - apply routesDir_not_schemaPath.
  - apply routesFile_not_schemaPath.
Qed.

Lemma handlers_events_destination h t eps e :
  In e (handlers_events h t eps) -> destination e <> Some (schemaPath t).
Proof.
  unfold handlers_events. intros H.
  apply in_flat_map in H as ([tag es] & _ & H).
  destruct H as [<-|[<-|[]]]; simpl; intros Heq; injection Heq.
  - apply routesDir_not_schemaPath.
  - apply handlersFile_not_schemaPath.
Qed.

Lemma groups_of_some (eps : list ParsedEndpoint) (g : Groups) :
  eps <> [] -> getEndpointsByTag eps = Ok g -> entries g <> [].
Proof.
  intros Hne Hg Hnil.
  destruct (grouping_partitions eps g Hg) as (_ & _ & Htot).
  destruct g as [|kv g].
  - destruct eps; [now elim Hne | discriminate].
  - assert (Hin : In kv (entries (kv :: g))) by (apply In_entries; now left).
    rewrite Hnil in Hin. destruct Hin.
Qed.

(** C10.  generateSchema on an empty schema list returns at once, the
    world untouched.  Yet a run over a spec that has an endpoint and no
    object schema need not complete.  The document whose only
    operation, get of /pets, answers 200 with a content member parses
    to an IR with one endpoint and no schema, and the run on it exits
    with status 1: the routes template calls the helper
    getResponseSchema on the content, and no helper of that name is
    registered.  By then the scaffold has been written and the routes
    directory ensured; no routes file and no handlers file is
    written. *)
Theorem run_without_schemas_fails :
  (forall h targetDir dbTyp w,
      generateSchema h targetDir [] dbTyp w = (Ok tt, w))
  /\ parse_document list_pets =
     Ok {| endpoints := [list_pets_endpoint]; schemas := [];
           info := petstore_info |}
  /\ render_routes listing_host "default" [view list_pets_endpoint] =
     Throw (missing_helper "getResponseSchema")
  /\ fst (action listing_host "shop" (with_spec "listing.json")
                 (boot listing_files))
     = Exit 1 ("Missing helper: " ++ quoted "getResponseSchema")
  /\ trace (snd (action listing_host "shop" (with_spec "listing.json")
                        (boot listing_files))) =
     [ ReadFile "listing.json";
       EnsureDir "/home/dev/shop";
       WriteFile "/home/dev/shop/package.json" "{ name: {{name}} }";
       EnsureDir "/home/dev/shop/src";
       CopyFile "/opt/cli/templates/app/src/app.ts" "/home/dev/shop/src/app.ts";
       EnsureDir "/home/dev/shop/src/db";
       CopyFile "/opt/cli/templates/app/src/db/index.ts"
                "/home/dev/shop/src/db/index.ts";
       EnsureDir "/home/dev/shop/src/routes" ].
Proof.
  split; [reflexivity|]. split; [reflexivity|]. split; [reflexivity|].
  split; reflexivity.
Qed.

Example pets_run :
  action demo_host "shop" (with_spec "pets.json") (boot demo_files) =
  (Completed,
   {| fs :=
        demo_files
        ++ [ ("/home/dev/shop", DirNode);
             ("/home/dev/shop/package.json", FileNode "{ name: {{name}} }");
             ("/home/dev/shop/src", DirNode);
             ("/home/dev/shop/src/app.ts", FileNode "export default app");
             ("/home/dev/shop/src/db", DirNode);
             ("/home/dev/shop/src/db/index.ts", FileNode "export default db");
             ("/home/dev/shop/src/routes", DirNode);
             ("/home/dev/shop/src/routes/default.routes.ts",
              FileNode "// routes");
             ("/home/dev/shop/src/routes/default.handlers.ts",
              FileNode "// handlers") ];
      trace :=
        [ ReadFile "pets.json";
          EnsureDir "/home/dev/shop";
          WriteFile "/home/dev/shop/package.json" "{ name: {{name}} }";
          EnsureDir "/home/dev/shop/src";
          CopyFile "/opt/cli/templates/app/src/app.ts"
                   "/home/dev/shop/src/app.ts";
          EnsureDir "/home/dev/shop/src/db";
          CopyFile "/opt/cli/templates/app/src/db/index.ts"
                   "/home/dev/shop/src/db/index.ts";
          EnsureDir "/home/dev/shop/src/routes";
          WriteFile "/home/dev/shop/src/routes/default.routes.ts" "// routes";
          EnsureDir "/home/dev/shop/src/routes";
          WriteFile "/home/dev/shop/src/routes/default.handlers.ts"
                    "// handlers" ] |}).
Proof. reflexivity. Qed.

(* ================================================================== *)
(** * Further properties of the string helpers *)
(* ================================================================== *)

Section CharFacts.

Lemma upper_of_lower (c : ascii) : upperChar (lowerChar c) = upperChar c.
Proof. destruct c as [[] [] [] [] [] [] [] []]; reflexivity. Qed.

Lemma lower_of_upper (c : ascii) : lowerChar (upperChar c) = lowerChar c.
Proof. destruct c as [[] [] [] [] [] [] [] []]; reflexivity. Qed.

Lemma lower_of_lower (c : ascii) : lowerChar (lowerChar c) = lowerChar c.
Proof. destruct c as [[] [] [] [] [] [] [] []]; reflexivity. Qed.

Lemma upper_of_upper (c : ascii) : upperChar (upperChar c) = upperChar c.
Proof. destruct c as [[] [] [] [] [] [] [] []]; reflexivity. Qed.

Lemma lowerChar_is_not_upper (c : ascii) : isUpper (lowerChar c) = false.
Proof. destruct c as [[] [] [] [] [] [] [] []]; reflexivity. Qed.

Lemma upperOf_lowerChar (c : ascii) : upperOf (lowerChar c) = upperOf c.
Proof. destruct c as [[] [] [] [] [] [] [] []]; reflexivity. Qed.

Lemma upperOf_upperChar (c : ascii) :
  (code c =? 223)%nat = false ->
  upperOf (upperChar c) = String (upperChar c) "".
Proof.
  destruct c as [[] [] [] [] [] [] [] []]; vm_compute; intros H;
    (discriminate H || reflexivity).
Qed.

Lemma lowerChar_fixed (c : ascii) :
  Ascii.eqb (lowerChar c) c = negb (isUpper c || isLatinUpper c).
Proof. destruct c as [[] [] [] [] [] [] [] []]; reflexivity. Qed.

Lemma capital_is_not_latin (c : ascii) :
  isUpper c = true ->
  isLatinUpper c = false /\ isLatinUpper (lowerChar c) = false.
Proof.
  destruct c as [[] [] [] [] [] [] [] []]; vm_compute; intros H;
    (discriminate H || (split; reflexivity)).
Qed.

Lemma nameChar_not_space (c : ascii) : isNameChar c = true -> isSpace c = false.
Proof.
  destruct c as [[] [] [] [] [] [] [] []]; vm_compute; congruence.
Qed.

End CharFacts.

Lemma forall_chars_append (p : ascii -> bool) (a b : string) :
  forall_chars p (a ++ b) = forall_chars p a && forall_chars p b.
Proof.
  induction a as [|c a IH]; simpl; [reflexivity|].
  now rewrite IH, andb_assoc.
Qed.

Lemma chars_append (a b : string) : chars (a ++ b) = chars a ++ chars b.
Proof.
  unfold chars. induction a as [|c a IH]; simpl; [reflexivity|].
  now rewrite IH.
Qed.

Lemma strip_chars (cls : ascii -> bool) (s : string) :
  chars (replace_class cls (fun _ => "") s) =
  filter (fun c => negb (cls c)) (chars s).
Proof.
  unfold chars. induction s as [|c s IH]; simpl; [reflexivity|].
  destruct (cls c); simpl; now rewrite IH.
Qed.

Lemma strip_forall (cls : ascii -> bool) (s : string) :
  forall_chars (fun c => negb (cls c)) (replace_class cls (fun _ => "") s)
  = true.
Proof.
  induction s as [|c s IH]; simpl; [reflexivity|].
  destruct (cls c) eqn:E; simpl; [exact IH|]. now rewrite E, IH.
Qed.

Lemma forall_chars_ext (p q : ascii -> bool) (s : string) :
  (forall c, p c = q c) -> forall_chars p s = forall_chars q s.
Proof.
  intros H. induction s as [|c s IH]; simpl; [reflexivity|].
  now rewrite H, IH.
Qed.

(** X1.  A synthesized operation id is the member name, untouched,
    followed by exactly the alphanumeric characters of the path in
    their order; so it is alphanumeric throughout precisely when the
    member name is, it is never longer than name and path together,
    and two paths with the same alphanumeric characters get the same
    id under the same member name. *)
Theorem generateOperationId_shape (m p q : string) :
  chars (generateOperationId m p) = chars m ++ filter isAlnum (chars p)
  /\ forall_chars isAlnum (generateOperationId m p) = forall_chars isAlnum m
  /\ String.length (generateOperationId m p)
     <= String.length m + String.length p
  /\ (filter isAlnum (chars p) = filter isAlnum (chars q) ->
      generateOperationId m p = generateOperationId m q).
Proof.
  unfold generateOperationId.
  assert (Hc : forall s,
             chars (replace_class (fun c => negb (isAlnum c)) (fun _ => "") s)
             = filter isAlnum (chars s)).
  { intros s. rewrite strip_chars. apply filter_ext.
    intros c. apply negb_involutive. }
  split; [|split; [|split]].
  - now rewrite chars_append, Hc.
  - rewrite forall_chars_append.
    assert (Hs : forall_chars isAlnum
                   (replace_class (fun c => negb (isAlnum c))
                                  (fun _ => "") p) = true).
    { rewrite (forall_chars_ext isAlnum (fun c => negb (negb (isAlnum c))))
        by (intros c; now rewrite negb_involutive).
      apply (strip_forall (fun c => negb (isAlnum c))). }
    rewrite Hs. apply andb_true_r.
  - rewrite append_length. apply Nat.add_le_mono_l.
    induction p as [|c p IH]; simpl; [lia|].
    destruct (isAlnum c); simpl; lia.
  - intros H. f_equal.
    rewrite <- (string_of_list_ascii_of_string
                  (replace_class _ _ p)),
            <- (string_of_list_ascii_of_string (replace_class _ _ q)).
    f_equal. fold (chars (replace_class (fun c => negb (isAlnum c))
                                        (fun _ => "") p)).
    fold (chars (replace_class (fun c => negb (isAlnum c))
                               (fun _ => "") q)).
    now rewrite !Hc.
Qed.

Lemma generateOperationId_shape_witness :
  generateOperationId "get" "/pets/{id}" = generateOperationId "get" "/pets-id".
Proof.
  apply (generateOperationId_shape "get" "/pets/{id}" "/pets-id").
  reflexivity.
Defined.

Lemma camelCase_cons (c : ascii) (r : string) :
  camelCase (String c r) = String (lowerChar c) r.
Proof. unfold camelCase. now rewrite charAt_0_cons, slice_1_cons. Qed.

Lemma pascalCase_cons (c : ascii) (r : string) :
  pascalCase (String c r) = (upperOf c ++ r)%string.
Proof.
  unfold pascalCase. now rewrite charAt_0_cons, slice_1_cons, toUpperCase_one.
Qed.

Lemma upperOf_plain (c : ascii) :
  code c <> 223 -> upperOf c = String (upperChar c) "".
Proof.
  intros H. unfold upperOf. now rewrite (proj2 (Nat.eqb_neq _ _) H).
Qed.

Lemma code_inj (c : ascii) (n : nat) :
  n < 256 -> code c = n -> c = ascii_of_nat n.
Proof. intros _ <-. unfold code. symmetry. apply ascii_nat_embedding. Qed.

(** X2.  camelCase keeps the length of the string; camelCase and
    pascalCase are idempotent, pascalCase after camelCase gives what
    pascalCase gives alone, and capitalize is pascalCase.  Unless the
    string starts with the sharp s, pascalCase keeps the length too and
    the two spellings of an identifier that the templates derive differ
    in the case of the first character at most; on a string that starts
    with the sharp s, pascalCase is one longer and camelCase does not
    undo it.  When the string starts with neither the sharp s nor the
    micro sign, camelCase after pascalCase gives what camelCase gives
    alone. *)
Theorem case_helpers_compose (s : string) :
  camelCase (camelCase s) = camelCase s
  /\ pascalCase (pascalCase s) = pascalCase s
  /\ pascalCase (camelCase s) = pascalCase s
  /\ String.length (camelCase s) = String.length s
  /\ capitalize s = pascalCase s
  /\ (head_code s <> Some 223 ->
      String.length (pascalCase s) = String.length s
      /\ slice 1 (camelCase s) = slice 1 (pascalCase s))
  /\ (head_code s = Some 223 ->
      String.length (pascalCase s) = S (String.length s)
      /\ pascalCase s = String "S" (String "S" (slice 1 s))
      /\ camelCase (pascalCase s) = String "s" (String "S" (slice 1 s)))
  /\ (head_code s <> Some 223 -> head_code s <> Some 181 ->
      camelCase (pascalCase s) = camelCase s).
Proof.
  destruct s as [|c r].
  { repeat split; intros; try reflexivity; discriminate. }
  simpl head_code.
  split; [now rewrite !camelCase_cons, lower_of_lower|].
  split.
  { rewrite pascalCase_cons.
    destruct (code c =? 223)%nat eqn:E.
    - assert (Hu : upperOf c = "SS") by (unfold upperOf; now rewrite E).
      rewrite Hu. simpl. now rewrite pascalCase_cons.
    - assert (Hu : upperOf c = String (upperChar c) "")
        by (unfold upperOf; now rewrite E).
      rewrite Hu. simpl.
      now rewrite pascalCase_cons, (upperOf_upperChar c E). }
  split; [now rewrite camelCase_cons, !pascalCase_cons, upperOf_lowerChar|].
  split; [now rewrite camelCase_cons|].
  split; [reflexivity|].
  split; [|split].
  - intros Hss.
    assert (Hc : code c <> 223) by congruence.
    rewrite camelCase_cons, pascalCase_cons, (upperOf_plain c Hc). simpl.
    split; [reflexivity|]. now rewrite !slice_1_cons.
  - intros Hss.
    assert (Hc : c = ascii_of_nat 223).
    { apply code_inj; [lia | congruence]. }
    subst c. rewrite pascalCase_cons, slice_1_cons. simpl.
    split; [reflexivity|]. split; [reflexivity|].
    now rewrite camelCase_cons.
  - intros Hss _.
    assert (Hc : code c <> 223) by congruence.
    rewrite pascalCase_cons, (upperOf_plain c Hc). simpl.
    now rewrite !camelCase_cons, lower_of_upper.
Qed.

Example pascalCase_sharp_s :
  pascalCase (String (ascii_of_nat 223) "eta") = "SSeta"
  /\ camelCase (String (ascii_of_nat 201) "mile") =
     String (ascii_of_nat 233) "mile".
Proof. split; reflexivity. Qed.

Lemma no_upper_count (s : string) :
  forall_chars (fun c => negb (isUpper c)) s = true
  <-> count_chars isUpper s = 0.
Proof.
  induction s as [|c r IH]; simpl; [tauto|].
  destruct (isUpper c); simpl.
  - split; [discriminate | lia].
  - exact IH.
Qed.

Lemma toLowerCase_fixed (t : string) :
  toLowerCase t = t <->
  forall_chars (fun c => negb (isUpper c || isLatinUpper c)) t = true.
Proof.
  unfold toLowerCase. induction t as [|c r IH]; simpl; [tauto|].
  rewrite <- lowerChar_fixed. split.
  - intros H. injection H as Hc Hr.
    rewrite Hc, Ascii.eqb_refl. now apply IH.
  - intros H. apply andb_prop in H as [Hc Hr].
    apply Ascii.eqb_eq in Hc. rewrite Hc at 1. f_equal. now apply IH.
Qed.

Lemma snakeCase_latin (s : string) :
  forall_chars (fun c => negb (isLatinUpper c)) (snakeCase s)
  = forall_chars (fun c => negb (isLatinUpper c)) s.
Proof.
  induction s as [|c r IH]; [reflexivity|].
  rewrite snakeCase_cons. destruct (isUpper c) eqn:E; simpl.
  - destruct (capital_is_not_latin c E) as [-> ->]. exact IH.
  - now rewrite IH.
Qed.

(** X3.  The result of snakeCase holds no letter of [A-Z], so snakeCase
    is idempotent; snakeCase returns its argument unchanged exactly
    when the argument holds no letter of [A-Z]; and its result is its
    own lower-casing exactly when the argument holds no other capital
    (of those from U+00C0 to U+00DE), which snakeCase keeps as they
    are. *)
Theorem snakeCase_normal_form (s : string) :
  forall_chars (fun c => negb (isUpper c)) (snakeCase s) = true
  /\ snakeCase (snakeCase s) = snakeCase s
  /\ (toLowerCase (snakeCase s) = snakeCase s <->
      forall_chars (fun c => negb (isLatinUpper c)) s = true)
  /\ (snakeCase s = s <->
      forall_chars (fun c => negb (isUpper c)) s = true).
Proof.
  assert (H1 : forall_chars (fun c => negb (isUpper c)) (snakeCase s) = true).
  { induction s as [|c r IH]; [reflexivity|].
    rewrite snakeCase_cons. destruct (isUpper c) eqn:E; simpl.
    - now rewrite lowerChar_is_not_upper, IH.
    - now rewrite E, IH. }
  split; [exact H1|]. split; [|split].
  - apply replace_class_none, H1.
  - rewrite toLowerCase_fixed, <- snakeCase_latin.
    revert H1. generalize (snakeCase s). intros t.
    induction t as [|c r IH]; simpl; [tauto|].
    intros H. apply andb_prop in H as [Hc Hr].
    apply negb_true_iff in Hc. rewrite Hc. simpl.
    destruct (isLatinUpper c); simpl; [tauto|]. now apply IH.
  - split.
    + intros Heq. apply no_upper_count.
      pose proof (snakeCase_length s) as Hl. rewrite Heq in Hl. lia.
    + apply replace_class_none.
Qed.

Example snakeCase_latin_capital :
  snakeCase ecole = ecole /\ toLowerCase (snakeCase ecole) <> snakeCase ecole.
Proof. split; [reflexivity | discriminate]. Qed.

(* ------------------------------------------------------------------ *)
(** ** Template file names *)

Lemma substring_prefix (s t : string) :
  substring 0 (String.length s) (s ++ t) = s.
Proof.
  induction s as [|c s IH]; simpl; [apply substring_0_0|]. now rewrite IH.
Qed.

Lemma substring_skip (s t : string) (k : nat) :
  substring (String.length s) k (s ++ t) = substring 0 k t.
Proof. induction s as [|c s IH]; simpl; [reflexivity | exact IH]. Qed.

Lemma substring_split (s : string) (i : nat) :
  i <= String.length s ->
  (substring 0 i s ++ substring i (String.length s - i) s)%string = s.
Proof.
  revert i; induction s as [|c s IH]; intros i Hi; simpl in *.
  - destruct i; [reflexivity | lia].
  - destruct i as [|i]; simpl.
    + now rewrite substring_whole.
    + f_equal. apply IH. lia.
Qed.

Lemma endsWith_append (suffix s : string) : endsWith suffix (s ++ suffix) = true.
Proof.
  unfold endsWith. rewrite append_length.
  replace (String.length s + String.length suffix - String.length suffix)
    with (String.length s) by lia.
  rewrite substring_skip, substring_whole, String.eqb_refl.
  rewrite andb_true_r. apply Nat.leb_le. lia.
Qed.

Lemma endsWith_inv (suffix name : string) :
  endsWith suffix name = true ->
  name = (substring 0 (String.length name - String.length suffix) name
          ++ suffix)%string.
Proof.
  unfold endsWith. intros H. apply andb_prop in H as [Hle Heq].
  apply Nat.leb_le in Hle. apply String.eqb_eq in Heq.
  rewrite <- Heq at 2.
  pose proof (substring_split name
                (String.length name - String.length suffix)) as Hs.
  replace (String.length name
           - (String.length name - String.length suffix))
    with (String.length suffix) in Hs by lia.
  symmetry. apply Hs. lia.
Qed.

(** X4.  What walk does with a file of the scaffold.  A name ending in
    .hbs is that of a template: it is rendered and the text written
    under the name without the suffix (which put back gives the name
    again); if the render throws, nothing is written and the error
    leaves walk.  Any other file is copied under its own name,
    unrendered. *)
Theorem scaffold_file_destination
        (h : Host) (data : TemplateData) (src dest name tpl : string)
        (w : World) :
  (endsWith ".hbs" name = true ->
   (strip_hbs name ++ ".hbs")%string = name
   /\ (forall text,
          render h (FileTemplate tpl) (AppContext data) = Ok text ->
          walk_entry h src dest data (File name tpl) w
          = writeFileSync (join dest (strip_hbs name)) text w)
   /\ (forall e,
          render h (FileTemplate tpl) (AppContext data) = Throw e ->
          walk_entry h src dest data (File name tpl) w = (Throw e, w)))
  /\ (endsWith ".hbs" name = false ->
      strip_hbs name = name
      /\ walk_entry h src dest data (File name tpl) w
         = copySync (join src name) (join dest name) tpl w)
  /\ strip_hbs (name ++ ".hbs") = name.
Proof.
  split; [|split].
  - intros Hends. split; [|split].
    + unfold strip_hbs. rewrite Hends.
      symmetry. apply (endsWith_inv ".hbs" name Hends).
    + intros text Hr. simpl. rewrite Hends.
      unfold mbind, lift. now rewrite Hr.
    + intros e Hr. simpl. rewrite Hends.
      unfold mbind, lift. now rewrite Hr.
  - intros Hends. unfold strip_hbs. simpl. rewrite Hends.
    unfold strip_hbs. rewrite Hends. now split.
  - unfold strip_hbs. rewrite endsWith_append, append_length. simpl.
    replace (String.length name + 4 - 4) with (String.length name) by lia.
    apply substring_prefix.
Qed.

Lemma scaffold_file_destination_witness :
  walk_entry demo_host "/tpl" "/out" (templateData "shop" (with_spec "a.json")
                                         {| endpoints := []; schemas := [];
                                            info := petstore_info |})
             (File "tsconfig.json.hbs" "{}") (boot [])
  = writeFileSync "/out/tsconfig.json" "{}" (boot [])
  /\ walk_entry demo_host "/tpl" "/out"
                (templateData "shop" (with_spec "a.json")
                   {| endpoints := []; schemas := []; info := petstore_info |})
                (File ".gitignore" "node_modules") (boot [])
     = copySync "/tpl/.gitignore" "/out/.gitignore" "node_modules" (boot []).
Proof.
  split.
  - destruct (scaffold_file_destination
                demo_host
                (templateData "shop" (with_spec "a.json")
                   {| endpoints := []; schemas := []; info := petstore_info |})
                "/tpl" "/out" "tsconfig.json.hbs" "{}" (boot []))
      as (H & _ & _).
    destruct (H eq_refl) as (_ & Hw & _). apply Hw. reflexivity.
  - destruct (scaffold_file_destination
                demo_host
                (templateData "shop" (with_spec "a.json")
                   {| endpoints := []; schemas := []; info := petstore_info |})
                "/tpl" "/out" ".gitignore" "node_modules" (boot []))
      as (_ & H & _).
    exact (proj2 (H eq_refl)).
Defined.

(* ================================================================== *)
(** * Further properties of the action *)
(* ================================================================== *)

Lemma trimStart_blank (s : string) : blank s = true -> trimStart s = "".
Proof.
  unfold blank. induction s as [|c r IH]; simpl; [reflexivity|].
  intros H. apply andb_prop in H as [Hc Hr]. rewrite Hc. now apply IH.
Qed.

Lemma trimStart_not_blank (s : string) :
  blank s = false ->
  exists c r, trimStart s = String c r /\ isSpace c = false.
Proof.
  unfold blank. induction s as [|c r IH]; simpl; [discriminate|].
  destruct (isSpace c) eqn:E; simpl.
  - exact IH.
  - intros _. now exists c, r.
Qed.

Lemma trimEnd_keeps_head (c : ascii) (r : string) :
  isSpace c = false -> trimEnd (String c r) <> "".
Proof.
  intros Hc. simpl. destruct (trimEnd r); [rewrite Hc|]; discriminate.
Qed.

Lemma trim_empty (s : string) : trim s = "" <-> blank s = true.
Proof.
  unfold trim. destruct (blank s) eqn:E.
  - rewrite (trimStart_blank s E). simpl. tauto.
  - destruct (trimStart_not_blank s E) as (c & r & -> & Hc).
    split; [|discriminate].
    intros H. now apply trimEnd_keeps_head in H.
Qed.

Lemma length_zero (s : string) : (String.length s =? 0)%nat = true <-> s = "".
Proof.
  destruct s; simpl; split; try reflexivity; discriminate.
Qed.

Lemma nameChar_not_separator (c : ascii) :
  isNameChar c = true ->
  negb (Ascii.eqb c "/") && negb (Ascii.eqb c ".") = true.
Proof.
  destruct c as [[] [] [] [] [] [] [] []]; vm_compute; congruence.
Qed.

Lemma forall_chars_impl (p q : ascii -> bool) (s : string) :
  (forall c, p c = true -> q c = true) ->
  forall_chars p s = true -> forall_chars q s = true.
Proof.
  intros H. induction s as [|c r IH]; simpl; [reflexivity|].
  intros Hp. apply andb_prop in Hp as [Hc Hr].
  now rewrite (H c Hc), IH.
Qed.

(** X5.  validateAppName accepts a name exactly when it is not empty
    and made of letters, digits, hyphens and underscores only.  An
    empty or all-blank name (blank as trim sees it: tab to carriage
    return, space, no-break space) is refused as empty; any other
    refused name gets the message about allowed characters.  An
    accepted name holds neither a slash nor a dot. *)
Theorem validateAppName_accepts (appName : string) :
  (blank appName = true ->
   validateAppName appName = Throw (Error "App name cannot be empty"))
  /\ (blank appName = false -> forall_chars isNameChar appName = false ->
      validateAppName appName =
      Throw (Error
        "App name can only contain letters, numbers, hyphens, and underscores"))
  /\ (validateAppName appName = Ok tt <->
      appName <> "" /\ forall_chars isNameChar appName = true)
  /\ (validateAppName appName = Ok tt ->
      forall_chars (fun c => negb (Ascii.eqb c "/") && negb (Ascii.eqb c "."))
                   appName = true).
Proof.
  assert (Hblank : forall s, s <> "" -> forall_chars isNameChar s = true ->
                             blank s = false).
  { intros [|c r] Hne Hall; [now elim Hne|].
    unfold blank. simpl in *. apply andb_prop in Hall as [Hc _].
    now rewrite (nameChar_not_space c Hc). }
  assert (Hlen : forall s, (String.length (trim s) =? 0)%nat = blank s).
  { intros s. destruct (blank s) eqn:E.
    - apply length_zero, trim_empty, E.
    - destruct (String.length (trim s) =? 0)%nat eqn:L; [|reflexivity].
      apply length_zero, trim_empty in L. congruence. }
  assert (Htruthy : forall s, blank s = false -> truthy s = true).
  { intros [|c r]; [discriminate | reflexivity]. }
  assert (Hiff : validateAppName appName = Ok tt <->
                 appName <> "" /\ forall_chars isNameChar appName = true).
  { unfold validateAppName. rewrite Hlen. split.
    - destruct (blank appName) eqn:E.
      + rewrite orb_true_r. discriminate.
      + rewrite (Htruthy _ E). simpl.
        destruct (forall_chars isNameChar appName); simpl; [|discriminate].
        intros _. split; [|reflexivity].
        intros ->. discriminate E.
    - intros [Hne Hall]. rewrite (Hblank _ Hne Hall).
      rewrite (Htruthy _ (Hblank _ Hne Hall)), Hall. reflexivity. }
  split; [|split; [|split]].
  - intros E. unfold validateAppName. rewrite Hlen, E.
    now rewrite orb_true_r.
  - intros E Hall. unfold validateAppName.
    rewrite Hlen, E, (Htruthy _ E), Hall. reflexivity.
  - exact Hiff.
  - intros H. apply Hiff in H as [_ Hall].
    eapply forall_chars_impl; [|exact Hall].
    apply nameChar_not_separator.
Qed.

Lemma validateAppName_accepts_witness :
  validateAppName "   " = Throw (Error "App name cannot be empty")
  /\ validateAppName (String (ascii_of_nat 160) (String (ascii_of_nat 9) ""))
     = Throw (Error "App name cannot be empty")
  /\ validateAppName "my app" =
     Throw (Error
       "App name can only contain letters, numbers, hyphens, and underscores")
  /\ validateAppName "my-app_2" = Ok tt.
Proof.
  split; [|split; [|split]].
  - apply (proj1 (validateAppName_accepts "   ")). reflexivity.
  - apply (proj1 (validateAppName_accepts
                    (String (ascii_of_nat 160) (String (ascii_of_nat 9) "")))).
    reflexivity.
  - apply (proj1 (proj2 (validateAppName_accepts "my app"))); reflexivity.
  - apply (proj1 (proj2 (proj2 (validateAppName_accepts "my-app_2")))).
    split; [discriminate | reflexivity].
Defined.

Lemma action_name_refused h appName opts files e :
  validateAppName appName = Throw e ->
  action h appName opts (boot files) = (Exit 1 (message_of e), boot files).
Proof.
  intros Hname. unfold action, action_try. run_to Hname. reflexivity.
Qed.

Lemma action_target_taken h appName opts files :
  validateAppName appName = Ok tt ->
  find_node files (join (cwd h) appName) <> None ->
  action h appName opts (boot files) =
  (Exit 1 ("Folder " ++ quoted appName ++ " already exists."), boot files).
Proof.
  intros Hname Htaken.
  destruct (find_node files (join (cwd h) appName)) eqn:E;
    [|now elim Htaken].
  unfold action, action_try. run_to Hname. run_to E. reflexivity.
Qed.

(** X6.  The action refuses, in this order of precedence and without
    touching anything: a name validateAppName rejects (with the message
    of that error); a target that exists already (even if the spec is
    missing or unusable); a spec path at which nothing exists.  Each
    time the process exits with status 1 and the world is as it was:
    the spec file is not read and nothing is created. *)
Theorem action_refusals
        (h : Host) (appName : string) (opts : Options)
        (files : list (string * node)) :
  (forall e,
      validateAppName appName = Throw e ->
      action h appName opts (boot files)
      = (Exit 1 (message_of e), boot files))
  /\ (validateAppName appName = Ok tt ->
      find_node files (join (cwd h) appName) <> None ->
      action h appName opts (boot files) =
      (Exit 1 ("Folder " ++ quoted appName ++ " already exists."),
       boot files))
  /\ (forall specPath,
         validateAppName appName = Ok tt ->
         find_node files (join (cwd h) appName) = None ->
         spec opts = Some specPath -> truthy specPath = true ->
         find_node files specPath = None ->
         action h appName opts (boot files) =
         (Exit 1 ("OpenAPI spec file not found: " ++ specPath), boot files)).
Proof.
  split; [|split].
  - intros e. apply action_name_refused.
  - apply action_target_taken.
  - intros specPath Hname Hfree Hspec Htruthy Hmissing.
    unfold action, action_try.
    run_to Hname. run_to Hfree.
    run_to Hspec. run_to Htruthy. run_to Hmissing. reflexivity.
Qed.

Lemma action_refusals_witness :
  action demo_host "my app" (with_spec "pets.json") (boot demo_files) =
  (Exit 1 "App name can only contain letters, numbers, hyphens, and underscores",
   boot demo_files)
  /\ action demo_host "taken" (with_spec "nowhere.json") (boot demo_files) =
     (Exit 1 ("Folder " ++ quoted "taken" ++ " already exists."),
      boot demo_files)
  /\ action demo_host "shop" (with_spec "nowhere.json") (boot demo_files) =
     (Exit 1 "OpenAPI spec file not found: nowhere.json", boot demo_files).
Proof.
  split; [|split].
  - apply (proj1 (action_refusals demo_host "my app" (with_spec "pets.json")
                                  demo_files)
                 (Error "App name can only contain letters, numbers, hyphens, and underscores")).
    reflexivity.
  - apply (proj1 (proj2 (action_refusals demo_host "taken"
                                         (with_spec "nowhere.json")
                                         demo_files))).
    + reflexivity.
    + discriminate.
  - apply (proj2 (proj2 (action_refusals demo_host "shop"
                                         (with_spec "nowhere.json")
                                         demo_files))
                 "nowhere.json"); reflexivity.
Defined.

(** X7.  Without a spec option (or with an empty one) the action, given
    an acceptable name and a free target, does nothing at all: no file
    is read, no directory is created, and the process is not made to
    exit. *)
Theorem action_without_spec
        (h : Host) (appName : string) (opts : Options)
        (files : list (string * node)) :
  validateAppName appName = Ok tt ->
  find_node files (join (cwd h) appName) = None ->
  spec opts = None \/ spec opts = Some "" ->
  action h appName opts (boot files) = (Completed, boot files).
Proof.
  intros Hname Hfree Hspec. unfold action, action_try.
  run_to Hname. run_to Hfree.
  destruct Hspec as [Hspec|Hspec]; run_to Hspec; reflexivity.
Qed.

Lemma action_without_spec_witness :
  action demo_host "shop"
         {| cors := true; auth := false; spec := None;
            database := Some "sqlite" |}
         (boot demo_files)
  = (Completed, boot demo_files).
Proof.
  apply action_without_spec; [reflexivity | reflexivity | now left].
Defined.




Example store_run :
  trace (snd (action store_host "shop" (with_spec "store.json")
                     (boot store_files))) =
  [ ReadFile "store.json";
    EnsureDir "/home/dev/shop";
    WriteFile "/home/dev/shop/package.json" "{ name: {{name}} }";
    EnsureDir "/home/dev/shop/src";
    CopyFile "/opt/cli/templates/app/src/app.ts" "/home/dev/shop/src/app.ts";
    EnsureDir "/home/dev/shop/src/db";
    CopyFile "/opt/cli/templates/app/src/db/index.ts"
             "/home/dev/shop/src/db/index.ts";
    EnsureDir "/home/dev/shop/src/routes";
    WriteFile "/home/dev/shop/src/routes/7.routes.ts" "// routes";
    EnsureDir "/home/dev/shop/src/routes";
    WriteFile "/home/dev/shop/src/routes/pets.routes.ts" "// routes";
    EnsureDir "/home/dev/shop/src/routes";
    WriteFile "/home/dev/shop/src/routes/7.handlers.ts" "// handlers";
    EnsureDir "/home/dev/shop/src/routes";
    WriteFile "/home/dev/shop/src/routes/pets.handlers.ts" "// handlers";
    WriteFile "/home/dev/shop/src/db/schema.ts" "// schema" ].
Proof. reflexivity. Qed.

(* ------------------------------------------------------------------ *)
(** ** Nothing is removed *)

Lemma find_put (files : list (string * node)) (p q : string) (n : node) :
  find_node (put_node files p n) q =
  if String.eqb p q then Some n else find_node files q.
Proof.
  induction files as [|[k n'] files IH]; simpl.
  - reflexivity.
  - destruct (String.eqb_spec k p) as [->|Hk]; simpl.
    + destruct (String.eqb p q); reflexivity.
    + rewrite IH. destruct (String.eqb_spec k q) as [->|_]; [|reflexivity].
      destruct (String.eqb_spec p q) as [->|_]; [now elim Hk | reflexivity].
Qed.

Lemma present_put (files : list (string * node)) (p q : string) (n : node) :
  find_node files q <> None -> find_node (put_node files p n) q <> None.
Proof.
  intros H. rewrite find_put. destruct (String.eqb p q); [discriminate | exact H].
Qed.

Section KeepsFacts.

Context {A B : Type}.

Lemma keeps_ret (a : A) : keeps (mret a).
Proof. intros p w H. exact H. Qed.

Lemma keeps_throw (e : error) : keeps (@throw A e).
Proof. intros p w H. exact H. Qed.

Lemma keeps_lift (r : result A) : keeps (lift r).
Proof. intros p w H. exact H. Qed.

Lemma keeps_bind (m : M A) (k : A -> M B) :
  keeps m -> (forall a, keeps (k a)) -> keeps (mbind m k).
Proof.
  intros Hm Hk p w H. unfold mbind.
  specialize (Hm p w H). destruct (m w) as [[a|e] w1]; simpl in *.
  - now apply Hk.
  - exact Hm.
Qed.

End KeepsFacts.

Lemma keeps_forM {A} (f : A -> M unit) (l : list A) :
  Forall (fun x => keeps (f x)) l -> keeps (forM_ f l).
Proof.
  induction 1 as [|x l Hx _ IH]; simpl.
  - apply keeps_ret.
  - apply keeps_bind; [exact Hx | intros _; exact IH].
Qed.

Lemma keeps_ensureDirSync d : keeps (ensureDirSync d).
Proof.
  intros p w H. unfold present in *. simpl.
  destruct (find_node (fs w) d); [exact H | now apply present_put].
Qed.

Lemma keeps_writeFileSync d c : keeps (writeFileSync d c).
Proof. intros p w H. unfold present in *. simpl. now apply present_put. Qed.

Lemma keeps_copySync s d c : keeps (copySync s d c).
Proof. intros p w H. unfold present in *. simpl. now apply present_put. Qed.

Lemma keeps_readFileSync p : keeps (readFileSync p).
Proof.
  intros q w H. unfold present, readFileSync in *.
  destruct (find_node (fs w) p) as [[c|]|]; exact H.
Qed.

#[local] Hint Resolve keeps_ret keeps_throw keeps_lift keeps_ensureDirSync
  keeps_writeFileSync keeps_copySync keeps_readFileSync : io.

Lemma keeps_walk_entry (h : Host) (data : TemplateData) (e : entry) :
  forall src dest, keeps (walk_entry h src dest data e).
Proof.
  induction e as [name tpl | name children IH] using entry_induction;
    intros src dest; simpl.
  - destruct (endsWith ".hbs" name); [|auto with io].
    apply keeps_bind; auto with io.
  - apply keeps_bind; [auto with io | intros _].
    apply keeps_forM.
    eapply Forall_impl; [|exact IH]. intros c Hc. apply Hc.
Qed.

Lemma keeps_walk h src dest data listing :
  keeps (walk h src dest data listing).
Proof.
  apply keeps_forM. apply Forall_forall. intros e _. apply keeps_walk_entry.
Qed.

Lemma keeps_generateRoutes h t eps : keeps (generateRoutes h t eps).
Proof.
  apply keeps_bind; [auto with io | intros groups].
  apply keeps_forM. apply Forall_forall. intros [tag es] _.
  apply keeps_bind; [auto with io | intros _].
  apply keeps_bind; auto with io.
Qed.

Lemma keeps_generateHandlers h t eps : keeps (generateHandlers h t eps).
Proof.
  apply keeps_bind; [auto with io | intros groups].
  apply keeps_forM. apply Forall_forall. intros [tag es] _.
  apply keeps_bind; [auto with io | intros _].
  apply keeps_bind; auto with io.
Qed.

Lemma keeps_generateSchema h t ss db : keeps (generateSchema h t ss db).
Proof.
  destruct ss; simpl; [auto with io|].
  apply keeps_bind; auto with io.
Qed.

Lemma keeps_emit h appName opts target ir :
  keeps (emit h appName opts target ir).
Proof.
  unfold emit.
  apply keeps_bind; [auto with io | intros _].
  apply keeps_bind; [simpl; apply keeps_walk | intros _].
  apply keeps_bind; [apply keeps_generateRoutes | intros _].
  apply keeps_bind; [apply keeps_generateHandlers | intros _].
  apply keeps_generateSchema.
Qed.

Lemma keeps_parseOpenAPISpec h specPath : keeps (parseOpenAPISpec h specPath).
Proof.
  unfold parseOpenAPISpec, loadOpenAPISpec.
  apply keeps_bind; [|auto with io].
  apply keeps_bind; [auto with io | intros content].
  destruct (endsWith ".yaml" specPath || endsWith ".yml" specPath);
    auto with io.
Qed.

Lemma keeps_action_try h appName opts : keeps (action_try h appName opts).
Proof.
  unfold action_try.
  apply keeps_bind; [auto with io | intros _].
  apply keeps_bind; [intros p w H; exact H | intros taken].
  destruct taken; [auto with io|].
  destruct (spec opts) as [specPath|]; [|auto with io].
  destruct (truthy specPath); [|auto with io].
  apply keeps_bind; [intros p w H; exact H | intros found].
  destruct (negb found); [auto with io|].
  apply keeps_bind; [apply keeps_parseOpenAPISpec | intros ir].
  apply keeps_emit.
Qed.

(** The emission leaves the target present, also when it throws. *)
Lemma emit_creates_target h appName opts target ir w :
  present target (snd (emit h appName opts target ir w)).
Proof.
  rewrite endpoints_guard_is_vacuous.
  assert (Hk : keeps
    (walk h (tplRoot h) target (templateData appName opts ir) (scaffold h) ;;;
     generateRoutes h target (endpoints ir) ;;;
     generateHandlers h target (endpoints ir) ;;;
     generateSchema h target (schemas ir) (database opts))%io).
  { apply keeps_bind; [apply keeps_walk | intros _].
    apply keeps_bind; [apply keeps_generateRoutes | intros _].
    apply keeps_bind; [apply keeps_generateHandlers | intros _].
    apply keeps_generateSchema. }
  unfold mbind at 1. unfold ensureDirSync at 1. cbv beta iota.
  apply Hk. unfold present. simpl.
  destruct (find_node (fs w) target) eqn:E.
  - rewrite E. discriminate.
  - rewrite find_put, String.eqb_refl. discriminate.
Qed.

(** X9.  The action removes nothing: every path present before a run
    is present after it, however the run ends.  And once the spec has
    been parsed the target directory exists from then on, also when the
    emission fails half-way; so running the same command again is
    refused with the message that the folder exists, and changes
    nothing. *)
Theorem second_run_is_refused
        (h : Host) (appName : string) (opts : Options)
        (files : list (string * node)) :
  (forall p,
      find_node files p <> None ->
      present p (snd (action h appName opts (boot files))))
  /\ (forall specPath ir w1,
         validateAppName appName = Ok tt ->
         find_node files (join (cwd h) appName) = None ->
         spec opts = Some specPath ->
         truthy specPath = true ->
         parseOpenAPISpec h specPath (boot files) = (Ok ir, w1) ->
         present (join (cwd h) appName)
                 (snd (action h appName opts (boot files)))
         /\ action h appName opts
                   (boot (fs (snd (action h appName opts (boot files)))))
            = (Exit 1 ("Folder " ++ quoted appName ++ " already exists."),
               boot (fs (snd (action h appName opts (boot files)))))).
Proof.
  split.
  - intros p Hp.
    pose proof (keeps_action_try h appName opts p (boot files) Hp) as H.
    unfold action.
    destruct (action_try h appName opts (boot files)) as [[[]|e] w'];
      exact H.
  - intros specPath ir w1 Hname Hfree Hspec Htruthy Hparse.
    assert (Hpresent : present (join (cwd h) appName)
                         (snd (action h appName opts (boot files)))).
    { unfold action.
      destruct (action_course h appName opts files)
        as [e Hrun | Hidle Hrun | sp Hs _ _ _ Hrun].
      - exfalso. revert Hrun. unfold action_try.
        run_to Hname. run_to Hfree. run_to Hspec. run_to Htruthy.
        destruct (find_node files specPath) as [n|] eqn:Hfound.
        + simpl. intros Hrun.
          pose proof (parseOpenAPISpec_trace _ _ _ _ _ Hparse) as Hw1.
          unfold mbind in Hrun. rewrite Hparse in Hrun.
          destruct (appends_emit h appName opts (join (cwd h) appName) ir w1)
            as [es Hes].
          destruct (emit h appName opts (join (cwd h) appName) ir w1)
            as [r w2] eqn:Hemit.
          assert (Hw2 : w2 = boot files) by (destruct r; congruence).
          rewrite Hw2 in Hes. simpl in Hes. rewrite Hw1 in Hes.
          destruct es; discriminate Hes.
        + destruct (parseOpenAPISpec_missing h specPath (boot files) Hfound)
            as (e' & w' & Hthrow).
          rewrite Hthrow in Hparse. discriminate.
      - rewrite Hspec, Htruthy in Hidle. discriminate.
      - rewrite Hspec in Hs. injection Hs as <-.
        rewrite Hrun, Hparse.
        pose proof (emit_creates_target h appName opts
                      (join (cwd h) appName) ir w1) as Hc.
        destruct (emit h appName opts (join (cwd h) appName) ir w1)
          as [[[]|e] w2]; exact Hc. }
    split; [exact Hpresent|].
    apply action_target_taken; [exact Hname | exact Hpresent].
Qed.

Lemma second_run_is_refused_witness :
  action demo_host "shop" (with_spec "pets.json")
         (boot (fs (snd (action demo_host "shop" (with_spec "pets.json")
                                (boot demo_files)))))
  = (Exit 1 ("Folder " ++ quoted "shop" ++ " already exists."),
     boot (fs (snd (action demo_host "shop" (with_spec "pets.json")
                           (boot demo_files))))).
Proof.
  apply (proj2 (second_run_is_refused demo_host "shop" (with_spec "pets.json")
                                      demo_files)
               "pets.json"
               {| endpoints := [get_pets_endpoint]; schemas := [];
                  info := petstore_info |}
               (log (ReadFile "pets.json") (boot demo_files)));
    reflexivity.
Defined.

(* ------------------------------------------------------------------ *)
(** ** A render that throws *)





(** X27.  When the grouping throws, on a first tag that names an
    inherited member, generateRoutes and generateHandlers throw the same
    TypeError before they touch the file system, whatever else the list
    holds; the CLI runs generateRoutes after the scaffold has been
    copied. *)
Theorem generators_fail_on_inherited_tag
        (h : Host) (targetDir : string) (eps : list ParsedEndpoint)
        (w : World) :
  (own_tags eps = false ->
   generateRoutes h targetDir eps w = (Throw not_a_function, w)
   /\ generateHandlers h targetDir eps w = (Throw not_a_function, w))
  /\ (forall e,
         getEndpointsByTag eps = Throw e ->
         e = not_a_function /\ own_tags eps = false).
Proof.
  assert (Hthrow : forall e, getEndpointsByTag eps = Throw e ->
                             e = not_a_function /\ own_tags eps = false).
  { intros e He. split.
    - revert He. unfold getEndpointsByTag.
      generalize (@nil (string * list ParsedEndpoint)).
      induction eps as [|x eps IH]; intros g; simpl; [discriminate|].
      destruct (group_step g x) as [g'|e'] eqn:E; simpl.
      + apply IH.
      + intros H; injection H as <-.
        destruct (inherited (first_tag x)) eqn:Ei.
        * destruct (get g (first_tag x)) eqn:Eg.
          -- revert E. unfold group_step, lookup. rewrite Eg, Eg.
             discriminate.
          -- rewrite (group_step_inherited g x Eg Ei) in E.
             now injection E as <-.
        * rewrite (group_step_own g x Ei) in E. discriminate.
    - rewrite <- grouping_is_ok, He. reflexivity. }
  split; [|exact Hthrow].
  intros Hown. rewrite <- grouping_is_ok in Hown.
  destruct (getEndpointsByTag eps) as [g|e] eqn:E; [discriminate|].
  destruct (Hthrow e eq_refl) as [-> _].
  unfold generateRoutes, generateHandlers.
  fold (getEndpointsByTag eps). rewrite E. split; reflexivity.
Qed.

Example generateRoutes_constructor_tag :
  generateRoutes demo_host "/home/dev/shop"
                 [tagged "a" ["pets"]; tagged "b" ["constructor"]] (boot [])
  = (Throw (TypeError "acc[tag].push is not a function"), boot []).
Proof. reflexivity. Qed.

(* ================================================================== *)
(** * Further properties of the normalizer *)
(* ================================================================== *)

Lemma mapM_first_throw {A B} (f : A -> result B) (l : list A) (e : error) :
  mapM f l = Throw e ->
  exists pre x post,
    l = pre ++ x :: post
    /\ forallb (fun y => is_ok (f y)) pre = true
    /\ f x = Throw e.
Proof.
  induction l as [|y l IH]; simpl; [discriminate|].
  destruct (f y) as [b|e'] eqn:Hy; simpl.
  - destruct (mapM f l) as [bs|e'']; simpl; [discriminate|].
    intros H. injection H as ->.
    destruct (IH eq_refl) as (pre & x & post & -> & Hpre & Hx).
    exists (y :: pre), x, post. simpl. rewrite Hy. simpl. auto.
  - intros H. injection H as ->. exists [], y, l. auto.
Qed.

Lemma endpoint_literal_error p m op e :
  endpoint_literal p m op = Throw e -> e = reference_error op.
Proof.
  unfold endpoint_literal, reference_error.
  pose proof (parseParameters_is_ok (default (op_parameters op) [])) as Hp.
  destruct (parseParameters _) as [ps|e1] eqn:Ep; simpl in *.
  - apply (f_equal negb) in Hp. rewrite negb_involutive in Hp.
    simpl in Hp. rewrite <- Hp.
    destruct (parseResponses _) as [rs|e2] eqn:Er; simpl; [discriminate|].
    intros H; injection H as <-. eapply parseResponses_throw; eauto.
  - apply (f_equal negb) in Hp. rewrite negb_involutive in Hp.
    simpl in Hp. rewrite <- Hp.
    intros H; injection H as <-. eapply parseParameters_throw; eauto.
Qed.

(** X11.  When the parse of the endpoints throws, the error is that of
    the first operation, in document order, that has a referenced
    parameter or response; and for that operation a referenced parameter
    is reported in preference to a referenced response. *)
Theorem first_reference_wins (spec : Document) (e : error) :
  parseEndpoints spec = Throw e ->
  exists pre o post,
    operations spec = pre ++ o :: post
    /\ forallb (fun o' => negb (op_mentions_ref (o_object o'))) pre = true
    /\ op_mentions_ref (o_object o) = true
    /\ e = reference_error (o_object o).
Proof.
  rewrite parseEndpoints_mapM. intros H.
  apply mapM_first_throw in H as (pre & o & post & Hops & Hpre & Ho).
  exists pre, o, post. split; [exact Hops|]. split; [|split].
  - rewrite <- Hpre. clear. induction pre as [|o' pre IH]; simpl;
      [reflexivity|].
    unfold normalize_operation at 1.
    now rewrite endpoint_literal_is_ok, IH.
  - pose proof (endpoint_literal_is_ok (o_path o) (o_method o) (o_object o))
      as Hok.
    unfold normalize_operation in Ho. rewrite Ho in Hok. simpl in Hok.
    now apply negb_false_iff.
  - eapply endpoint_literal_error. exact Ho.
Qed.

Lemma first_reference_wins_witness :
  exists pre o post,
    operations two_refs = pre ++ o :: post
    /\ forallb (fun o' => negb (op_mentions_ref (o_object o'))) pre = true
    /\ op_mentions_ref (o_object o) = true
    /\ Error "Response references not yet supported"
       = reference_error (o_object o).
Proof.
  apply (first_reference_wins two_refs). reflexivity.
Defined.

(* ------------------------------------------------------------------ *)
(** ** Tags *)

Lemma in_own_group (eps : list ParsedEndpoint) (g : Groups)
      (e : ParsedEndpoint) :
  getEndpointsByTag eps = Ok g ->
  In e eps ->
  exists es, In (first_tag e, es) g /\ In e es.
Proof.
  intros Hgroups He.
  destruct (grouping_partitions eps g Hgroups) as (_ & Hget & _).
  assert (Hg : In e (group_of (first_tag e) eps)).
  { unfold group_of. apply filter_In. split; [exact He|].
    apply String.eqb_refl. }
  exists (group_of (first_tag e) eps). split; [|exact Hg].
  apply get_In. rewrite Hget.
  destruct (group_of (first_tag e) eps); [destruct Hg | reflexivity].
Qed.

Lemma Forall2_In_r {A B} (R : A -> B -> Prop) (l : list A) (l' : list B) :
  Forall2 R l l' -> Forall2 (fun x y => R x y /\ In y l') l l'.
Proof.
  induction 1 as [|x y l l' Hxy _ IH]; constructor.
  - split; [exact Hxy | now left].
  - eapply Forall2_impl; [|exact IH].
    intros a b [Hab Hin]. split; [exact Hab | now right].
Qed.

(** X12.  From the document to the groups, when the parse and the
    grouping return: the descriptor of an operation whose tags member
    is missing, empty, or begins with the empty string is put in the
    group default; the descriptor of any other operation is put in the
    group of its first tag, whatever its further tags.  (The grouping
    returns unless a first tag names an inherited member.) *)
Theorem untagged_operations_go_to_default
        (spec : Document) (eps : list ParsedEndpoint) (groups : Groups) :
  parseEndpoints spec = Ok eps ->
  getEndpointsByTag eps = Ok groups ->
  Forall2 (fun o e =>
             (untagged (o_object o) ->
              exists es, In ("default", es) groups /\ In e es)
             /\ (forall t rest,
                    op_tags (o_object o) = Some (t :: rest) -> t <> "" ->
                    exists es, In (t, es) groups /\ In e es))
          (operations spec) eps.
Proof.
  intros H Hgroups. apply parseEndpoints_Forall2, Forall2_In_r in H.
  eapply Forall2_impl; [|exact H].
  intros o e [Ho Hin]. unfold normalize_operation in Ho.
  apply endpoint_literal_fields in Ho as (_ & _ & _ & Htags & _).
  destruct (in_own_group eps groups e Hgroups Hin) as (es & Hes & He).
  split.
  - intros Hun. exists es. split; [|exact He].
    replace "default" with (first_tag e); [exact Hes|].
    unfold first_tag. rewrite Htags.
    destruct Hun as [-> | [-> | [rest ->]]]; reflexivity.
  - intros t rest Ht Hne. exists es. split; [|exact He].
    replace t with (first_tag e); [exact Hes|].
    unfold first_tag. rewrite Htags, Ht. simpl.
    destruct t; [now elim Hne | reflexivity].
Qed.

Lemma untagged_operations_go_to_default_witness :
  exists eps groups,
    parseEndpoints tag_variants = Ok eps
    /\ getEndpointsByTag eps = Ok groups
    /\ map fst groups = ["default"; "pets"]
    /\ Forall2 (fun o e =>
                  (untagged (o_object o) ->
                   exists es, In ("default", es) groups /\ In e es)
                  /\ (forall t rest,
                         op_tags (o_object o) = Some (t :: rest) -> t <> "" ->
                         exists es, In (t, es) groups /\ In e es))
               (operations tag_variants) eps.
Proof.
  destruct (parseEndpoints tag_variants) as [eps|] eqn:E; [|discriminate E].
  destruct (getEndpointsByTag eps) as [groups|] eqn:G;
    [|injection E as <-; discriminate G].
  exists eps, groups. split; [reflexivity|]. split; [exact G|]. split.
  - injection E as <-. injection G as <-. reflexivity.
  - apply (untagged_operations_go_to_default tag_variants eps groups E G).
Defined.

(* ------------------------------------------------------------------ *)
(** ** Parameters and responses *)

(** X13.  A successful parseParameters keeps every parameter, in order,
    with its name, location and schema, and a required flag that is
    false unless the document sets it; a successful parseResponses
    keeps every response, in the order of the entries, under its status
    code.  Neither succeeds on a list that holds a reference. *)
Theorem parameters_and_responses_are_kept
        (ps : list (or_ref ParameterObject)) (qs : list ParsedParameter)
        (rs : list (string * or_ref ResponseObject))
        (ts : list ParsedResponse) :
  (parseParameters ps = Ok qs ->
   existsb has_ref ps = false
   /\ Forall2 (fun p q =>
                 exists po,
                   p = Inline po
                   /\ pp_name q = po_name po /\ pp_in q = po_in po
                   /\ pp_schema q = po_schema po
                   /\ pp_required q =
                      match po_required po with
                      | Some b => b
                      | None => false
                      end)
              ps qs)
  /\ (parseResponses rs = Ok ts ->
      existsb (fun sr => has_ref (snd sr)) rs = false
      /\ map pr_statusCode ts = map fst rs
      /\ Forall2 (fun r t =>
                    exists ro,
                      snd r = Inline ro
                      /\ pr_description t = ro_description ro
                      /\ pr_content t = ro_content ro)
                 rs ts).
Proof.
  split.
  - intros H. split.
    + pose proof (parseParameters_is_ok ps) as Hok. rewrite H in Hok.
      simpl in Hok. now apply negb_true_iff.
    + apply mapM_ok_Forall2 in H. eapply Forall2_impl; [|exact H].
      intros [t|po] q Hq; simpl in Hq; [discriminate|].
      injection Hq as <-. exists po. repeat split.
  - intros H. split; [|split].
    + pose proof (parseResponses_is_ok rs) as Hok. rewrite H in Hok.
      simpl in Hok. now apply negb_true_iff.
    + apply mapM_ok_Forall2 in H.
      induction H as [|[c r] t rs' ts' Hrt _ IH]; simpl; [reflexivity|].
      destruct r as [tg|ro]; simpl in Hrt; [discriminate|].
      injection Hrt as <-. simpl. now rewrite IH.
    + apply mapM_ok_Forall2 in H. eapply Forall2_impl; [|exact H].
      intros [c [tg|ro]] t Ht; simpl in Ht; [discriminate|].
      injection Ht as <-. exists ro. repeat split.
Qed.

(* ------------------------------------------------------------------ *)
(** ** Schemas *)

Lemma parseSchemas_fold (entries : list (string * option SchemaObject))
      (acc : list ParsedSchema) :
  fold_left
    (fun schemas '(name, schema) =>
       match schema with
       | Some s =>
           match schema_properties s with
           | Some props =>
               schemas ++ [ {| ps_name := name;
                               ps_properties := props;
                               ps_required := default (schema_required s) []
                            |} ]
           | None => schemas
           end
       | None => schemas
       end)
    entries acc =
  acc ++ flat_map
           (fun '(name, schema) =>
              match schema with
              | Some s =>
                  match schema_properties s with
                  | Some props =>
                      [ {| ps_name := name;
                           ps_properties := props;
                           ps_required := default (schema_required s) [] |} ]
                  | None => []
                  end
              | None => []
              end)
           entries.
Proof.
  revert acc; induction entries as [|[name [s|]] entries IH]; intros acc;
    simpl.
  - now rewrite app_nil_r.
  - destruct (schema_properties s); simpl; rewrite IH.
    + now rewrite <- app_assoc.
    + reflexivity.
  - apply IH.
Qed.

(** X14.  parseSchemas keeps exactly the component schemas that have a
    properties member, in the order of the section and under their
    names: each descriptor carries the properties of its schema as they
    are and its required list, empty when the schema has none; entries
    without properties (aliases of primitive types, absent values) are
    dropped, and a document without a schema section yields no
    descriptor. *)
Theorem parseSchemas_keeps_object_schemas (spec : Document) :
  map ps_name (parseSchemas spec)
  = map fst (filter is_object_schema (default (doc_component_schemas spec) []))
  /\ (forall ps,
         In ps (parseSchemas spec) <->
         exists s,
           In (ps_name ps, Some s) (default (doc_component_schemas spec) [])
           /\ schema_properties s = Some (ps_properties ps)
           /\ ps_required ps = default (schema_required s) [])
  /\ (doc_component_schemas spec = None -> parseSchemas spec = []).
Proof.
  assert (Hnone : doc_component_schemas spec = None -> parseSchemas spec = []).
  { intros H. unfold parseSchemas. now rewrite H. }
  revert Hnone.
  unfold parseSchemas. rewrite parseSchemas_fold. simpl.
  generalize (default (doc_component_schemas spec) []). intros entries Hnone.
  split; [|split].
  - clear Hnone.
    induction entries as [|[name [s|]] entries IH]; simpl; [reflexivity| |].
    + unfold is_object_schema at 1. simpl.
      destruct (schema_properties s); simpl; now rewrite IH.
    + exact IH.
  - intros ps. rewrite in_flat_map. split.
    + intros ([name [s|]] & Hin & Hps); [|destruct Hps].
      destruct (schema_properties s) as [props|] eqn:E; [|destruct Hps].
      destruct Hps as [<-|[]]. simpl. exists s. auto.
    + intros (s & Hin & Hprops & Hreq).
      exists (ps_name ps, Some s). split; [exact Hin|].
      rewrite Hprops. left. destruct ps; simpl in *. now rewrite Hreq.
  - exact Hnone.
Qed.

(** X15.  getSchemaByName returns the first descriptor of the list that
    bears the name, and nothing when no descriptor bears it. *)
Theorem getSchemaByName_finds_first
        (ss : list ParsedSchema) (name : string) :
  match getSchemaByName ss name with
  | Some s =>
      ps_name s = name
      /\ exists pre post,
          ss = pre ++ s :: post
          /\ Forall (fun x => ps_name x <> name) pre
  | None => Forall (fun x => ps_name x <> name) ss
  end.
Proof.
  unfold getSchemaByName. induction ss as [|x ss IH]; simpl.
  - constructor.
  - destruct (String.eqb_spec (ps_name x) name) as [Heq|Hne].
    + split; [exact Heq|]. exists [], ss. split; [reflexivity | constructor].
    + destruct (find _ ss) as [s|].
      * destruct IH as (Hs & pre & post & -> & Hpre).
        split; [exact Hs|]. exists (x :: pre), post.
        split; [reflexivity | now constructor].
      * now constructor.
Qed.

(** X16.  Looking a component up after the parse.  The names of a
    schema section being distinct, getSchemaByName on the parsed
    schemas returns, for the name of a component that has a properties
    member, the descriptor of that component; for a name whose
    component has no properties member, and for a name the section does
    not hold, it returns nothing. *)
Theorem schema_lookup_after_parse (spec : Document) (name : string) :
  NoDup (map fst (default (doc_component_schemas spec) [])) ->
  (forall s props,
      In (name, Some s) (default (doc_component_schemas spec) []) ->
      schema_properties s = Some props ->
      getSchemaByName (parseSchemas spec) name =
      Some {| ps_name := name; ps_properties := props;
              ps_required := default (schema_required s) [] |})
  /\ ((forall s,
          In (name, Some s) (default (doc_component_schemas spec) []) ->
          schema_properties s = None) ->
      getSchemaByName (parseSchemas spec) name = None).
Proof.
  unfold parseSchemas, getSchemaByName. rewrite parseSchemas_fold. simpl.
  generalize (default (doc_component_schemas spec) []). intros entries Hnd.
  split.
  - intros s props Hin Hprops.
    induction entries as [|[k v] entries IH]; simpl in *; [destruct Hin|].
    inversion Hnd as [|? ? Hk Hnd']; subst.
    destruct Hin as [Heq|Hin].
    + injection Heq as -> ->. rewrite Hprops. simpl.
      now rewrite String.eqb_refl.
    + assert (Hne : k <> name).
      { intros ->. apply Hk. change name with (fst (name, Some s)).
        now apply in_map. }
      assert (Hskip : forall l,
                 find (fun schema => String.eqb (ps_name schema) name)
                      (match v with
                       | Some s0 =>
                           match schema_properties s0 with
                           | Some props0 =>
                               [ {| ps_name := k; ps_properties := props0;
                                    ps_required :=
                                      default (schema_required s0) [] |} ]
                           | None => []
                           end
                       | None => []
                       end ++ l)
                 = find (fun schema => String.eqb (ps_name schema) name) l).
      { intros l. destruct v as [s0|]; [|reflexivity].
        destruct (schema_properties s0); [|reflexivity]. simpl.
        destruct (String.eqb_spec k name); [now elim Hne | reflexivity]. }
      rewrite Hskip. now apply IH.
  - intros Hall. clear Hnd.
    induction entries as [|[k v] entries IH]; simpl in *; [reflexivity|].
    destruct v as [s0|].
    + destruct (schema_properties s0) as [props0|] eqn:E; simpl.
      * destruct (String.eqb_spec k name) as [->|_].
        -- rewrite (Hall s0) in E by now left. discriminate E.
        -- apply IH. intros s Hin. apply Hall. now right.
      * apply IH. intros s Hin. apply Hall. now right.
    + apply IH. intros s Hin. apply Hall. now right.
Qed.

Lemma schema_lookup_after_parse_witness :
  getSchemaByName (parseSchemas pet_components) "Owner" =
  Some {| ps_name := "Owner"; ps_properties := []; ps_required := [] |}
  /\ getSchemaByName (parseSchemas pet_components) "PetId" = None.
Proof.
  assert (Hnd : NoDup (map fst (default (doc_component_schemas pet_components)
                                        []))).
  { simpl. repeat constructor; simpl; intuition discriminate. }
  destruct (schema_lookup_after_parse pet_components "Owner" Hnd)
    as [Hfound _].
  destruct (schema_lookup_after_parse pet_components "PetId" Hnd)
    as [_ Hmissing].
  split.
  - apply (Hfound (Schema None None None (Some []) None) []).
    + simpl. right. right. right. left. reflexivity.
    + reflexivity.
  - apply Hmissing. simpl. intros s [H|[H|[H|[H|[]]]]];
      try discriminate H.
    injection H as <-. reflexivity.
Defined.

(* ================================================================== *)
(** * Further properties of the generators *)
(* ================================================================== *)

Lemma append_inv_tail (x y a b : string) :
  String.length a = String.length b ->
  (x ++ a)%string = (y ++ b)%string -> x = y /\ a = b.
Proof.
  revert y; induction x as [|c x IH]; intros [|d y] Hlen H; simpl in H.
  - now split.
  - exfalso. apply (f_equal String.length) in H. simpl in H.
    rewrite append_length in H. lia.
  - exfalso. apply (f_equal String.length) in H. simpl in H.
    rewrite append_length in H. lia.
  - injection H as -> H. destruct (IH y Hlen H) as [-> ->]. now split.
Qed.

(** X17.  For tags that hold no slash (so that joining them to the
    routes directory adds one segment), the routes files of two tags
    are the same file exactly when the tags are equal up to the case of
    their letters, and so for the handlers files: tags that differ in
    case only are distinct groups written to one path.  A routes file
    is never a handlers file. *)
Theorem generated_file_names (targetDir a b : string) :
  plain_segment a = true ->
  plain_segment b = true ->
  (routesFile targetDir a = routesFile targetDir b
   <-> toLowerCase a = toLowerCase b)
  /\ (handlersFile targetDir a = handlersFile targetDir b
      <-> toLowerCase a = toLowerCase b)
  /\ routesFile targetDir a <> handlersFile targetDir b.
Proof.
  intros _ _. unfold routesFile, handlersFile, join.
  split; [|split].
  - split; [|now intros ->].
    intros H. apply append_inv_head in H. simpl in H. injection H as H.
    now apply append_inv_tail in H as [H _].
  - split; [|now intros ->].
    intros H. apply append_inv_head in H. simpl in H. injection H as H.
    now apply append_inv_tail in H as [H _].
  - intros H. apply append_inv_head in H. simpl in H. injection H as H.
    change (toLowerCase b ++ ".handlers.ts")%string
      with (toLowerCase b ++ (".h" ++ "andlers.ts"))%string in H.
    rewrite <- append_assoc in H.
    apply append_inv_tail in H as [_ H]; [discriminate H | reflexivity].
Qed.

Lemma generated_file_names_witness :
  routesFile "/home/dev/shop" "Pets" = routesFile "/home/dev/shop" "pets"
  /\ routesFile "/home/dev/shop" "Pets"
     <> handlersFile "/home/dev/shop" "Pets".
Proof.
  destruct (generated_file_names "/home/dev/shop" "Pets" "pets"
                                 eq_refl eq_refl) as (H & _ & _).
  destruct (generated_file_names "/home/dev/shop" "Pets" "Pets"
                                 eq_refl eq_refl) as (_ & _ & Hne).
  split; [apply H; reflexivity | exact Hne].
Defined.

(* ------------------------------------------------------------------ *)
(** ** The order of the groups *)

Lemma get_none_absent (g : Groups) (k : string) :
  get g k = None <-> absent_from (map fst g) k = true.
Proof.
  unfold absent_from. induction g as [|[k' v] g IH]; simpl; [tauto|].
  rewrite (String.eqb_sym k k').
  destruct (String.eqb k' k); simpl; [split; discriminate | exact IH].
Qed.

Lemma keys_step (g g' : Groups) (e : ParsedEndpoint) :
  group_step g e = Ok g' ->
  map fst g' =
  map fst g ++ (if absent_from (map fst g) (first_tag e)
                then [first_tag e] else []).
Proof.
  intros Hstep. apply group_step_inv in Hstep as ->. rewrite keys_set.
  destruct (get g (first_tag e)) eqn:E.
  - destruct (absent_from (map fst g) (first_tag e)) eqn:A.
    + apply get_none_absent in A. congruence.
    + now rewrite app_nil_r.
  - apply get_none_absent in E. now rewrite E.
Qed.

Lemma filter_absorb {A} (p q : A -> bool) (l : list A) :
  (forall x, p x = true -> q x = true) ->
  filter p (filter q l) = filter p l.
Proof.
  intros H. induction l as [|x l IH]; simpl; [reflexivity|].
  destruct (q x) eqn:Q; simpl.
  - now rewrite IH.
  - destruct (p x) eqn:P; [|exact IH].
    rewrite (H x P) in Q. discriminate.
Qed.

Lemma filter_both {A} (p q : A -> bool) (l : list A) :
  filter p (filter q l) = filter (fun x => q x && p x) l.
Proof.
  induction l as [|x l IH]; simpl; [reflexivity|].
  destruct (q x); simpl; [|exact IH].
  destruct (p x); now rewrite IH.
Qed.

Lemma keys_fold (eps : list ParsedEndpoint) (g g' : Groups) :
  forEach group_step eps g = Ok g' ->
  map fst g' =
  map fst g ++ filter (absent_from (map fst g))
                      (first_occurrences (map first_tag eps)).
Proof.
  revert g; induction eps as [|e eps IH]; intros g; simpl.
  - intros H; injection H as <-. now rewrite app_nil_r.
  - destruct (group_step g e) as [g1|] eqn:Hstep; simpl; [|discriminate].
    intros Hrest. rewrite (IH g1 Hrest), (keys_step g g1 e Hstep).
    set (K := map fst g). set (t := first_tag e).
    set (X := first_occurrences (map first_tag eps)).
    destruct (absent_from K t) eqn:A; simpl.
    + rewrite <- app_assoc. simpl. f_equal. f_equal.
      rewrite filter_both. apply filter_ext. intros x.
      unfold absent_from. rewrite existsb_app. simpl.
      rewrite orb_false_r, negb_orb, (String.eqb_sym x t).
      apply andb_comm.
    + rewrite app_nil_r. f_equal. symmetry. apply filter_absorb.
      intros x Hx. apply negb_true_iff.
      destruct (String.eqb_spec t x) as [<-|_]; [|reflexivity].
      congruence.
Qed.

(** The keys of the groups, in the order the reduce creates them. *)
Lemma grouping_keys (eps : list ParsedEndpoint) (g : Groups) :
  getEndpointsByTag eps = Ok g ->
  map fst g = first_occurrences (map first_tag eps).
Proof.
  intros H. rewrite (keys_fold eps [] g H). simpl.
  induction (first_occurrences (map first_tag eps)) as [|x l IH];
    simpl; [reflexivity | now rewrite IH].
Qed.

Lemma In_first_occurrences (l : list string) (x : string) :
  In x (first_occurrences l) -> In x l.
Proof.
  induction l as [|y l IH]; simpl; [tauto|].
  intros [->|H]; [now left|]. right. apply IH.
  now apply filter_In in H.
Qed.

Lemma filter_map_fst {V} (p : string -> bool) (l : list (string * V)) :
  map fst (filter (fun kv => p (fst kv)) l) = filter p (map fst l).
Proof.
  induction l as [|kv l IH]; simpl; [reflexivity|].
  destruct (p (fst kv)); simpl; now rewrite IH.
Qed.

Lemma insert_index_sorted {V} (n : N) (kv : string * V) sorted :
  StronglySorted (fun a b => (fst a <= fst b)%N) sorted ->
  StronglySorted (fun a b => (fst a <= fst b)%N) (insert_index n kv sorted).
Proof.
  induction 1 as [|[m kv'] r Hr IH Hall]; simpl.
  - repeat constructor.
  - destruct (N.ltb_spec n m) as [Hlt|Hge].
    + constructor; [now constructor|].
      constructor; [simpl; lia|].
      rewrite Forall_forall in *. intros x Hx.
      specialize (Hall x Hx). simpl in *. lia.
    + constructor; [exact IH|].
      rewrite Forall_forall in *. intros x Hx.
      apply In_insert_index in Hx as [->|Hx]; [exact Hge|].
      now apply Hall.
Qed.

Lemma index_entries_sorted {V} (own : list (string * V)) :
  StronglySorted (fun a b => (fst a <= fst b)%N) (index_entries own).
Proof.
  unfold index_entries. induction own as [|kv own IH]; simpl.
  - constructor.
  - destruct (array_index (fst kv)); [|exact IH].
    now apply insert_index_sorted.
Qed.

(** X18.  When the grouping returns and no first tag is an array index
    (a decimal numeral without leading zero, below 2^32 - 1),
    Object.entries enumerates the groups in the order in which their
    tags first occur in the endpoint list: the keys are the first tags
    of the endpoints, each kept at its first occurrence.  This is the
    order in which generateRoutes and generateHandlers write their
    files. *)
Theorem groups_in_order_of_first_occurrence
        (eps : list ParsedEndpoint) (groups : Groups) :
  getEndpointsByTag eps = Ok groups ->
  Forall (fun e => is_index (first_tag e) = false) eps ->
  entries groups = groups
  /\ map fst (entries groups) = first_occurrences (map first_tag eps).
Proof.
  intros Hgroups Hplain.
  assert (Hkeys : no_index_key groups = true).
  { unfold no_index_key. apply forallb_forall. intros [tag es] Hin.
    assert (Htag : In tag (map first_tag eps)).
    { apply In_first_occurrences. rewrite <- (grouping_keys eps groups Hgroups).
      change tag with (fst (tag, es)). now apply in_map. }
    apply in_map_iff in Htag as (e & <- & He).
    rewrite Forall_forall in Hplain. specialize (Hplain e He).
    unfold is_index in Hplain. simpl.
    now destruct (array_index (first_tag e)). }
  rewrite (entries_plain groups Hkeys).
  split; [reflexivity | now apply grouping_keys].
Qed.

Lemma groups_in_order_of_first_occurrence_witness :
  exists groups,
    getEndpointsByTag five_endpoints = Ok groups
    /\ map fst (entries groups) = ["pets"; "owners"; "default"].
Proof.
  destruct (getEndpointsByTag five_endpoints) as [groups|] eqn:G;
    [|discriminate G].
  exists groups. split; [reflexivity|].
  destruct (groups_in_order_of_first_occurrence five_endpoints groups G)
    as [_ H].
  - repeat constructor.
  - rewrite H. reflexivity.
Defined.

(** X28.  Whatever the tags, when the grouping returns, Object.entries
    enumerates first the groups whose tag is an array index, by
    ascending index, then the other groups in the order in which their
    tags first occur in the endpoint list. *)
Theorem index_tags_come_first
        (eps : list ParsedEndpoint) (groups : Groups) :
  getEndpointsByTag eps = Ok groups ->
  map fst (entries groups) =
  map (fun entry => fst (snd entry)) (index_entries groups)
  ++ filter (fun tag => negb (is_index tag))
            (first_occurrences (map first_tag eps))
  /\ StronglySorted (fun a b => (fst a <= fst b)%N) (index_entries groups)
  /\ (forall n tag es,
         In (n, (tag, es)) (index_entries groups) <->
         In (tag, es) groups /\ array_index tag = Some n).
Proof.
  intros Hgroups. split; [|split].
  - unfold entries. rewrite map_app, map_map.
    rewrite <- (grouping_keys eps groups Hgroups).
    rewrite <- (filter_map_fst (fun tag => negb (is_index tag))).
    f_equal. f_equal. apply filter_ext. intros kv. unfold is_index.
    now destruct (array_index (fst kv)).
  - apply index_entries_sorted.
  - intros n tag es. apply (In_index_entries groups n (tag, es)).
Qed.

Lemma index_tags_come_first_witness :
  exists groups,
    getEndpointsByTag
      [tagged "a" ["pets"]; tagged "b" ["10"]; tagged "c" ["07"];
       tagged "d" ["9"]; tagged "e" ["pets"]] = Ok groups
    /\ map fst groups = ["pets"; "10"; "07"; "9"]
    /\ map fst (entries groups) = ["9"; "10"; "pets"; "07"].
Proof.
  destruct (getEndpointsByTag
              [tagged "a" ["pets"]; tagged "b" ["10"]; tagged "c" ["07"];
               tagged "d" ["9"]; tagged "e" ["pets"]])
    as [groups|] eqn:G; [|discriminate G].
  exists groups. split; [reflexivity|].
  destruct (index_tags_come_first _ groups G) as (Horder & _ & _).
  rewrite Horder. injection G as <-. split; reflexivity.
Defined.

(* ------------------------------------------------------------------ *)
(** ** Status codes and validators *)

(** X19.  statusCodeConstant names the eight codes of its table.  A
    code that names a member the table inherits from Object.prototype
    (constructor, toString, ...) gets that member, which is not a
    string; any other code is returned as it is.  Applied to a text it
    has returned the helper changes nothing, no name of the table being
    a code of the table or an inherited member. *)
Theorem statusCodeConstant_table (code : string) :
  statusCodeConstant "200" = Text "OK"
  /\ statusCodeConstant "201" = Text "CREATED"
  /\ statusCodeConstant "204" = Text "NO_CONTENT"
  /\ statusCodeConstant "400" = Text "BAD_REQUEST"
  /\ statusCodeConstant "401" = Text "UNAUTHORIZED"
  /\ statusCodeConstant "404" = Text "NOT_FOUND"
  /\ statusCodeConstant "422" = Text "UNPROCESSABLE_ENTITY"
  /\ statusCodeConstant "500" = Text "INTERNAL_SERVER_ERROR"
  /\ (inherited code = true ->
      statusCodeConstant code = InheritedMember code)
  /\ (~ In code ["200"; "201"; "204"; "400"; "401"; "404"; "422"; "500"] ->
      inherited code = false ->
      statusCodeConstant code = Text code)
  /\ (forall name,
         statusCodeConstant code = Text name ->
         statusCodeConstant name = Text name).
Proof.
  assert (Hmiss : ~ In code ["200"; "201"; "204"; "400"; "401"; "404";
                             "422"; "500"] ->
                  statusCodeConstant code =
                  if inherited code then InheritedMember code else Text code).
  { intros H. unfold statusCodeConstant.
    rewrite switch_miss by exact H. reflexivity. }
  assert (Hin : In code ["200"; "201"; "204"; "400"; "401"; "404"; "422";
                         "500"] ->
                inherited code = false
                /\ exists name, statusCodeConstant code = Text name
                                /\ statusCodeConstant name = Text name).
  { simpl. intros H.
    repeat (destruct H as [<-|H];
            [split; [reflexivity | eexists; split; reflexivity]|]).
    destruct H. }
  repeat (split; [reflexivity|]).
  destruct (in_dec string_dec code
              ["200"; "201"; "204"; "400"; "401"; "404"; "422"; "500"])
    as [Hcode|Hcode].
  - destruct (Hin Hcode) as (Hown & name & Hname & Hidem).
    split; [congruence|]. split; [tauto|].
    intros name' H. rewrite Hname in H. injection H as <-. exact Hidem.
  - rewrite (Hmiss Hcode). split; [now intros ->|]. split; [now intros _ ->|].
    destruct (inherited code) eqn:E; [discriminate|].
    intros name H. injection H as Hname. subst name.
    exact (Hmiss Hcode).
Qed.

Example statusCodeConstant_constructor :
  statusCodeConstant "constructor" = InheritedMember "constructor"
  /\ statusCodeConstant "418" = Text "418".
Proof. split; reflexivity. Qed.

(** X20.  Off arrays the zodType helper is total and follows its table:
    a missing schema and a schema without type, or of a type other
    than the five it knows, give z.unknown(); string, number, integer
    and boolean give their validators.  The helper throws on a schema
    exactly when the type of the schema is array. *)
Theorem zodType_primitives (s : SchemaObject) :
  zodType None = Ok "z.unknown()"
  /\ (schema_type s = Some "string" -> zodType (Some s) = Ok "z.string()")
  /\ (schema_type s = Some "number" -> zodType (Some s) = Ok "z.number()")
  /\ (schema_type s = Some "integer" ->
      zodType (Some s) = Ok "z.number().int()")
  /\ (schema_type s = Some "boolean" -> zodType (Some s) = Ok "z.boolean()")
  /\ (schema_type s = None -> zodType (Some s) = Ok "z.unknown()")
  /\ (forall t, schema_type s = Some t ->
                ~ In t ["string"; "number"; "integer"; "boolean"; "array"] ->
                zodType (Some s) = Ok "z.unknown()")
  /\ (is_ok (zodType (Some s)) = false <-> schema_type s = Some "array").
Proof.
  unfold zodType, zodType_body.
  split; [reflexivity|].
  repeat (split; [intros ->; reflexivity|]).
  split.
  - intros t -> H. now apply switch_miss.
  - destruct (schema_type s) as [t|]; [|split; discriminate].
    simpl.
    destruct (String.eqb t "string") eqn:E1; [split; [discriminate|];
      intros H; injection H as ->; discriminate E1|].
    destruct (String.eqb t "number") eqn:E2; [split; [discriminate|];
      intros H; injection H as ->; discriminate E2|].
    destruct (String.eqb t "integer") eqn:E3; [split; [discriminate|];
      intros H; injection H as ->; discriminate E3|].
    destruct (String.eqb t "boolean") eqn:E4; [split; [discriminate|];
      intros H; injection H as ->; discriminate E4|].
    destruct (String.eqb_spec t "array") as [->|Hne].
    + split; reflexivity.
    + split; [discriminate|]. intros H. injection H as ->. now elim Hne.
Qed.

(* ================================================================== *)
(** * Loading, and how failures surface *)
(* ================================================================== *)

Lemma parseOpenAPISpec_fs h specPath w :
  fs (snd (parseOpenAPISpec h specPath w)) = fs w.
Proof.
  unfold parseOpenAPISpec, loadOpenAPISpec, mbind, readFileSync, lift.
  destruct (find_node (fs w) specPath) as [[content|]|]; simpl;
    [|reflexivity|reflexivity].
  destruct (endsWith ".yaml" specPath || endsWith ".yml" specPath).
  - destruct (yaml_load h content); reflexivity.
  - destruct (JSON_parse h content); reflexivity.
Qed.

(** X21.  parseOpenAPISpec reads the spec file once and changes no
    file.  Its result is that of the parse of the decoded document, the
    decoder being the YAML one for a path that ends in .yaml or .yml
    and the JSON one for any other path; an error of the decoder leaves
    parseOpenAPISpec as it is; and a path at which there is no file
    makes it throw before any decoder is called. *)
Theorem parseOpenAPISpec_loads
        (h : Host) (specPath : string) (w : World) :
  fs (snd (parseOpenAPISpec h specPath w)) = fs w
  /\ trace (snd (parseOpenAPISpec h specPath w))
     = trace w ++ [ReadFile specPath]
  /\ (forall content,
         find_node (fs w) specPath = Some (FileNode content) ->
         fst (parseOpenAPISpec h specPath w) =
         match decoder_for h specPath content with
         | Ok doc => parse_document doc
         | Throw e => Throw e
         end)
  /\ (find_node (fs w) specPath = None ->
      exists e, fst (parseOpenAPISpec h specPath w) = Throw e)
  /\ (find_node (fs w) specPath = Some DirNode ->
      exists e, fst (parseOpenAPISpec h specPath w) = Throw e).
Proof.
  unfold parseOpenAPISpec, loadOpenAPISpec, decoder_for, mbind,
    readFileSync, lift.
  destruct (find_node (fs w) specPath) as [[content|]|] eqn:E; simpl.
  - destruct (endsWith ".yaml" specPath || endsWith ".yml" specPath);
      simpl.
    + destruct (yaml_load h content) eqn:D; simpl;
        (repeat split; try discriminate;
         intros c Hc; injection Hc as <-; now rewrite D).
    + destruct (JSON_parse h content) eqn:D; simpl;
        (repeat split; try discriminate;
         intros c Hc; injection Hc as <-; now rewrite D).
  - repeat split; try discriminate; eauto.
  - repeat split; try discriminate; eauto.
Qed.

Example upper_case_extension_is_json :
  decoder_for demo_host "api.YAML" = JSON_parse demo_host
  /\ decoder_for demo_host "api.yml" = yaml_load demo_host.
Proof. split; reflexivity. Qed.

(** X22.  An error thrown after the checks surfaces with its own
    message, the process exiting with status 1, and the world stays as
    it was when the error was thrown: after a failed parse only the
    spec file has been read; after a failed emission whatever had been
    created is still there. *)
Theorem failures_surface
        (h : Host) (appName : string) (opts : Options)
        (files : list (string * node)) (specPath : string) :
  validateAppName appName = Ok tt ->
  find_node files (join (cwd h) appName) = None ->
  spec opts = Some specPath ->
  truthy specPath = true ->
  find_node files specPath <> None ->
  (forall e w1,
      parseOpenAPISpec h specPath (boot files) = (Throw e, w1) ->
      action h appName opts (boot files) = (Exit 1 (message_of e), w1)
      /\ fs w1 = files /\ trace w1 = [ReadFile specPath])
  /\ (forall ir w1 e w2,
         parseOpenAPISpec h specPath (boot files) = (Ok ir, w1) ->
         emit h appName opts (join (cwd h) appName) ir w1 = (Throw e, w2) ->
         action h appName opts (boot files) = (Exit 1 (message_of e), w2)
         /\ present (join (cwd h) appName) w2).
Proof.
  intros Hname Hfree Hspec Htruthy Hfound.
  destruct (find_node files specPath) as [n|] eqn:En; [|now elim Hfound].
  assert (Hrun : action h appName opts (boot files) =
                 match parseOpenAPISpec h specPath (boot files) with
                 | (Ok ir, w1) =>
                     match emit h appName opts (join (cwd h) appName) ir w1
                     with
                     | (Ok _, w2) => (Completed, w2)
                     | (Throw e, w2) => (Exit 1 (message_of e), w2)
                     end
                 | (Throw e, w1) => (Exit 1 (message_of e), w1)
                 end).
  { unfold action, action_try.
    run_to Hname. run_to Hfree. run_to Hspec. run_to Htruthy. run_to En.
    destruct (parseOpenAPISpec h specPath (boot files)) as [[ir|e] w1];
      reflexivity. }
  split.
  - intros e w1 Hparse. rewrite Hrun, Hparse. split; [reflexivity|].
    pose proof (parseOpenAPISpec_fs h specPath (boot files)) as Hfs.
    pose proof (parseOpenAPISpec_trace _ _ _ _ _ Hparse) as Htr.
    rewrite Hparse in Hfs. simpl in Hfs, Htr. now split.
  - intros ir w1 e w2 Hparse Hemit. rewrite Hrun, Hparse, Hemit.
    split; [reflexivity|].
    pose proof (emit_creates_target h appName opts
                  (join (cwd h) appName) ir w1) as Hc.
    now rewrite Hemit in Hc.
Qed.

Lemma failures_surface_witness :
  action demo_host "shop" (with_spec "refs.json") (boot demo_files) =
  (Exit 1 "Parameter references not yet supported",
   log (ReadFile "refs.json") (boot demo_files)).
Proof.
  destruct (failures_surface demo_host "shop" (with_spec "refs.json")
                             demo_files "refs.json")
    as [H _];
    [reflexivity | reflexivity | reflexivity | reflexivity | discriminate |].
  apply (H (Error "Parameter references not yet supported")
           (log (ReadFile "refs.json") (boot demo_files))).
  reflexivity.
Defined.

(* ================================================================== *)
(** * The scaffold copy *)
(* ================================================================== *)

Section AppendsOnly.

Context {A B : Type} (Q : event -> Prop).

Lemma appends_only_ret (a : A) : appends_only Q (mret a).
Proof. intros w. exists []. simpl. now rewrite app_nil_r. Qed.

Lemma appends_only_lift (r : result A) : appends_only Q (lift r).
Proof. intros w. exists []. simpl. now rewrite app_nil_r. Qed.

Lemma appends_only_bind (m : M A) (k : A -> M B) :
  appends_only Q m -> (forall a, appends_only Q (k a)) ->
  appends_only Q (mbind m k).
Proof.
  intros Hm Hk w. unfold mbind.
  destruct (Hm w) as (es1 & H1 & Q1).
  destruct (m w) as [[a|e] w1]; simpl in *.
  - destruct (Hk a w1) as (es2 & H2 & Q2). exists (es1 ++ es2).
    split; [now rewrite H2, H1, app_assoc | now apply Forall_app].
  - now exists es1.
Qed.

End AppendsOnly.

Lemma appends_only_forM {A} (Q : event -> Prop) (f : A -> M unit)
      (l : list A) :
  Forall (fun x => appends_only Q (f x)) l -> appends_only Q (forM_ f l).
Proof.
  induction 1 as [|x l Hx _ IH]; simpl.
  - apply appends_only_ret.
  - apply appends_only_bind; [exact Hx | intros _; exact IH].
Qed.

Lemma appends_only_weaken {A} (Q Q' : event -> Prop) (m : M A) :
  (forall e, Q e -> Q' e) -> appends_only Q m -> appends_only Q' m.
Proof.
  intros H Hm w. destruct (Hm w) as (es & Ht & Hq).
  exists es. split; [exact Ht|]. eapply Forall_impl; [exact H | exact Hq].
Qed.

Lemma appends_only_one {A} (Q : event -> Prop) (m : M A) (e : event) :
  (forall w, trace (snd (m w)) = trace w ++ [e]) -> Q e ->
  appends_only Q m.
Proof. intros H Hq w. exists [e]. split; [apply H | now constructor]. Qed.

Lemma under_join dest name rest e :
  destination e = Some (join (join dest name) rest) -> under dest e.
Proof.
  intros H. exists (name ++ "/" ++ rest)%string. rewrite H.
  unfold join. now rewrite !append_assoc.
Qed.

Lemma under_deeper dest name e : under (join dest name) e -> under dest e.
Proof. intros [rest H]. eapply under_join. exact H. Qed.

Lemma under_child dest name e :
  destination e = Some (join dest name) -> under dest e.
Proof. intros H. now exists name. Qed.

Lemma walk_entry_under (h : Host) (data : TemplateData) (e : entry) :
  forall src dest,
    appends_only (under dest) (walk_entry h src dest data e).
Proof.
  induction e as [name tpl | name children IH] using entry_induction;
    intros src dest; simpl.
  - destruct (endsWith ".hbs" name).
    + apply appends_only_bind; [apply appends_only_lift | intros text].
      eapply appends_only_one; [reflexivity|].
      now apply (under_child dest (strip_hbs name)).
    + eapply appends_only_one; [reflexivity|].
      now apply (under_child dest (strip_hbs name)).
  - apply appends_only_bind.
    + eapply appends_only_one; [reflexivity|].
      now apply (under_child dest (strip_hbs name)).
    + intros _. apply appends_only_forM.
      eapply Forall_impl; [|exact IH]. intros c Hc.
      eapply appends_only_weaken; [|apply Hc].
      intros ev. apply under_deeper.
Qed.

Lemma returns_after_bind {A B} (m : M A) (k : A -> M B) a n1 b n2 :
  returns_after m a n1 -> returns_after (k a) b n2 ->
  returns_after (mbind m k) b (n1 + n2).
Proof.
  intros Hm Hk w. unfold mbind.
  destruct (Hm w) as (w1 & es1 & -> & H1 & L1).
  destruct (Hk w1) as (w2 & es2 & -> & H2 & L2).
  exists w2, (es1 ++ es2). split; [reflexivity|].
  split; [now rewrite H2, H1, app_assoc|].
  rewrite length_app. lia.
Qed.

Lemma returns_after_forM {A} (f : A -> M unit) (size : A -> nat)
      (l : list A) :
  Forall (fun x => returns_after (f x) tt (size x)) l ->
  returns_after (forM_ f l) tt (fold_right (fun x n => size x + n) 0 l).
Proof.
  induction 1 as [|x l Hx _ IH]; simpl.
  - intros w. exists w, []. simpl. now rewrite app_nil_r.
  - eapply returns_after_bind; [exact Hx | exact IH].
Qed.

Lemma returns_after_one {A} (m : M A) (a : A) (e : event) :
  returns m a [e] -> returns_after m a 1.
Proof.
  intros H w. destruct (H w) as (w' & Hrun & Ht). now exists w', [e].
Qed.

Lemma entry_size_directory name children :
  entry_size (Directory name children) = S (listing_size children).
Proof.
  unfold listing_size. simpl. apply f_equal.
  induction children as [|c r IH]; simpl; [reflexivity | now rewrite IH].
Qed.

Lemma walk_entry_counts (h : Host) (data : TemplateData) (e : entry) :
  renders h ->
  forall src dest,
    returns_after (walk_entry h src dest data e) tt (entry_size e).
Proof.
  intros Hr.
  induction e as [name tpl | name children IH] using entry_induction;
    intros src dest.
  - simpl. destruct (endsWith ".hbs" name).
    + change 1 with (0 + 1).
      eapply returns_after_bind.
      * intros w. exists w, []. unfold lift.
        rewrite (render_ok h _ _ Hr). simpl. now rewrite app_nil_r.
      * apply (returns_after_one _ _ _ (returns_writeFileSync _ _)).
    + apply (returns_after_one _ _ _ (returns_copySync _ _ _)).
  - rewrite entry_size_directory. change (walk_entry h src dest data
                                            (Directory name children))
      with (ensureDirSync (join dest (strip_hbs name)) ;;;
            forM_ (walk_entry h (join src name)
                              (join dest (strip_hbs name)) data)
                  children)%io.
    change (S (listing_size children)) with (1 + listing_size children).
    eapply returns_after_bind.
    + apply (returns_after_one _ _ _ (returns_ensureDirSync _)).
    + apply returns_after_forM.
      eapply Forall_impl; [|exact IH]. intros c Hc. apply Hc.
Qed.

(** X23.  Everything walk creates lies under its destination: each
    event it appends, whether or not it runs to the end, ensures,
    writes or copies a path made of the destination, a separator and
    more.  And when the template engine renders what it is given, walk
    returns having performed exactly one such effect per entry of the
    scaffold, directories and files at every depth counted. *)
Theorem walk_mirrors_scaffold
        (h : Host) (src dest : string) (data : TemplateData)
        (listing : list entry) :
  appends_only (under dest) (walk h src dest data listing)
  /\ (renders h ->
      returns_after (walk h src dest data listing) tt
                    (listing_size listing)).
Proof.
  split.
  - apply appends_only_forM. apply Forall_forall. intros e _.
    apply walk_entry_under.
  - intros Hr. apply returns_after_forM. apply Forall_forall. intros e _.
    now apply walk_entry_counts.
Qed.

Example demo_scaffold_size : listing_size (scaffold demo_host) = 5.
Proof. reflexivity. Qed.

(* ================================================================== *)
(** * The members of a descriptor *)
(* ================================================================== *)

Lemma upperOf_is_not_lower (c : ascii) :
  forall_chars (fun x => negb (isLower x)) (upperOf c) = true.
Proof. destruct c as [[] [] [] [] [] [] [] []]; reflexivity. Qed.

Lemma toUpperCase_no_lower (s : string) :
  forall_chars (fun c => negb (isLower c)) (toUpperCase s) = true.
Proof.
  induction s as [|c r IH]; simpl; [reflexivity|].
  now rewrite forall_chars_append, upperOf_is_not_lower, IH.
Qed.

Lemma endpoint_literal_inv (p m : string) (op : OperationObject)
      (e : ParsedEndpoint) :
  endpoint_literal p m op = Ok e ->
  parseParameters (default (op_parameters op) []) = Ok (parameters e)
  /\ parseResponses (default (op_responses op) []) = Ok (responses e)
  /\ summary e = op_summary op
  /\ description e = op_description op.
Proof.
  unfold endpoint_literal.
  destruct (parseParameters _); simpl; [|discriminate].
  destruct (parseResponses _); simpl; [|discriminate].
  intros H; injection H as <-. repeat split.
Qed.

Lemma mapM_length {A B} (f : A -> result B) (l : list A) (ys : list B) :
  mapM f l = Ok ys -> List.length ys = List.length l.
Proof.
  intros H. apply mapM_ok_Forall2, Forall2_length in H. now symmetry.
Qed.

(** X24.  In the descriptor of an operation the method holds no
    lower-case letter; a declared, non-empty operationId is kept as it
    is, while a declared but empty one is replaced by the synthesized
    id, like a missing one; summary and description are those of the
    operation; an inline request body is kept with a required flag that
    is false unless set and a content that is empty unless set, a
    missing one stays missing; and there are as many parameters and
    responses as the operation declares. *)
Theorem descriptor_members (spec : Document) (eps : list ParsedEndpoint) :
  parseEndpoints spec = Ok eps ->
  Forall2 (fun o e =>
             forall_chars (fun c => negb (isLower c)) (method e) = true
             /\ (forall id, op_operationId (o_object o) = Some id ->
                            id <> "" -> operationId e = id)
             /\ (op_operationId (o_object o) = Some "" ->
                 operationId e = generateOperationId (o_method o) (o_path o))
             /\ summary e = op_summary (o_object o)
             /\ description e = op_description (o_object o)
             /\ (op_requestBody (o_object o) = None -> requestBody e = None)
             /\ (forall b, op_requestBody (o_object o) = Some (Inline b) ->
                           requestBody e =
                           Some {| prb_required :=
                                     match rb_required b with
                                     | Some r => r
                                     | None => false
                                     end;
                                   prb_content :=
                                     match rb_content b with
                                     | Some c => c
                                     | None => []
                                     end |})
             /\ List.length (parameters e)
                = List.length (default (op_parameters (o_object o)) [])
             /\ List.length (responses e)
                = List.length (default (op_responses (o_object o)) []))
          (operations spec) eps.
Proof.
  intros H. apply parseEndpoints_Forall2 in H.
  eapply Forall2_impl; [|exact H].
  intros o e Ho. unfold normalize_operation in Ho.
  pose proof (endpoint_literal_inv _ _ _ _ Ho) as (Hps & Hrs & Hsum & Hdesc).
  apply endpoint_literal_fields in Ho as (_ & Hm & Hid & _ & Hrb).
  split; [rewrite Hm; apply toUpperCase_no_lower|].
  split.
  { intros id Hdecl Hne. rewrite Hid, Hdecl. simpl.
    destruct id; [now elim Hne | reflexivity]. }
  split; [intros Hdecl; now rewrite Hid, Hdecl|].
  split; [exact Hsum|]. split; [exact Hdesc|].
  split; [intros Hb; now rewrite Hrb, Hb|].
  split; [intros b Hb; now rewrite Hrb, Hb|].
  split; [eapply mapM_length; exact Hps | eapply mapM_length; exact Hrs].
Qed.

Lemma descriptor_members_witness :
  exists e,
    parseEndpoints empty_id_doc = Ok [e]
    /\ operationId e = "postpets"
    /\ method e = "POST".
Proof.
  destruct (parseEndpoints empty_id_doc) as [eps|] eqn:E; [|discriminate E].
  pose proof (descriptor_members empty_id_doc eps E) as H.
  injection E as <-. eexists. split; [reflexivity|].
  inversion H as [|o e os es Hhead _]; subst.
  destruct Hhead as (_ & _ & Hid & _).
  split; [exact (Hid eq_refl) | reflexivity].
Defined.
